(** * ROM-Plumes: geometry utilities, ring tracker, batch regression and
      ROM evaluator, embedded from the Python sources.

    Sources embedded here:
    - [src/rom_plumes/utils.py]  ([circle_intersection]);
    - [src/rom_plumes/models.py] ([PLUME.regress_multiframe_mean],
      [var_func_on_poly], [flatten_edge_points], [_create_radius_pairs]);
    - [src/models.py] ([PLUME.find_max_on_boundary],
      [PLUME.find_next_center], [PLUME.concentric_circle]).

    Number model.  The geometry code ([circle_intersection],
    [var_func_on_poly]) is embedded over an arithmetic that is
    instantiated twice: with IEEE-754 binary64 (Rocq's primitive floats),
    which is what the code runs with, and with the idealised floats [fl]
    below.  The ring tracker, the batch regression and the flattening are
    embedded over [fl]: a real number, one of
    the two infinities, or NaN, with exact finite arithmetic and the
    IEEE-754 special cases (division by zero, square root of a negative
    number, NaN propagation, comparisons with NaN being false) written
    out. *)

From Stdlib Require Import Reals Lra Lia ZArith List.
From stdpp Require Import gmap strings list sorting.
From Stdlib Require Floats.

(* ===================================================================== *)
(** ** Idealised float64 *)
(* ===================================================================== *)

Module Float.

Inductive fl : Type :=
| Fin (x : R)
| PInf
| NInf
| NaN.

Definition Rleb (x y : R) : bool := if Rle_dec x y then true else false.
Definition Rltb (x y : R) : bool := if Rlt_dec x y then true else false.
Definition Reqb (x y : R) : bool := if Req_dec_T x y then true else false.

(** [x / 0.0] and [x * inf]: the sign of [x] picks the infinity, zero gives NaN. *)
Definition signed_inf (x : R) : fl :=
  if Rltb 0 x then PInf else if Rltb x 0 then NInf else NaN.

Definition fl_neg (a : fl) : fl :=
  match a with
  | Fin x => Fin (- x)
  | PInf => NInf
  | NInf => PInf
  | NaN => NaN
  end.

Definition fl_abs (a : fl) : fl :=
  match a with
  | Fin x => Fin (Rabs x)
  | PInf | NInf => PInf
  | NaN => NaN
  end.

Definition fl_add (a b : fl) : fl :=
  match a, b with
  | NaN, _ | _, NaN => NaN
  | Fin x, Fin y => Fin (x + y)
  | PInf, NInf | NInf, PInf => NaN
  | PInf, _ | _, PInf => PInf
  | NInf, _ | _, NInf => NInf
  end.

Definition fl_sub (a b : fl) : fl := fl_add a (fl_neg b).

Definition fl_mul (a b : fl) : fl :=
  match a, b with
  | NaN, _ | _, NaN => NaN
  | Fin x, Fin y => Fin (x * y)
  | Fin x, PInf | PInf, Fin x => signed_inf x
  | Fin x, NInf | NInf, Fin x => fl_neg (signed_inf x)
  | PInf, PInf | NInf, NInf => PInf
  | PInf, NInf | NInf, PInf => NInf
  end.

(** Division as numpy performs it on float64 scalars: a zero divisor gives
    an infinity or NaN (with a RuntimeWarning), never an exception.  The
    zero divisor is [+0.0]. *)
Definition fl_div (a b : fl) : fl :=
  match a, b with
  | NaN, _ | _, NaN => NaN
  | Fin x, Fin y => if Reqb y 0 then signed_inf x else Fin (x / y)
  | Fin _, (PInf | NInf) => Fin 0
  | PInf, Fin y => if Rleb 0 y then PInf else NInf
  | NInf, Fin y => if Rleb 0 y then NInf else PInf
  | (PInf | NInf), (PInf | NInf) => NaN
  end.

(** [np.sqrt] *)
Definition fl_sqrt (a : fl) : fl :=
  match a with
  | Fin x => if Rleb 0 x then Fin (sqrt x) else NaN
  | PInf => PInf
  | NInf | NaN => NaN
  end.

(** [np.sin] *)
Definition fl_sin (a : fl) : fl :=
  match a with
  | Fin x => Fin (sin x)
  | _ => NaN
  end.

(** [x ** 2] *)
Definition fl_sq (a : fl) : fl := fl_mul a a.

(** Comparisons: anything compared with NaN is [false]. *)
Definition fl_le (a b : fl) : bool :=
  match a, b with
  | NaN, _ | _, NaN => false
  | Fin x, Fin y => Rleb x y
  | NInf, _ | _, PInf => true
  | _, _ => false
  end.

Definition fl_lt (a b : fl) : bool :=
  match a, b with
  | NaN, _ | _, NaN => false
  | Fin x, Fin y => Rltb x y
  | NInf, NInf | PInf, PInf => false
  | NInf, _ | _, PInf => true
  | _, _ => false
  end.

Definition fl_ge (a b : fl) : bool := fl_le b a.
Definition fl_gt (a b : fl) : bool := fl_lt b a.

Definition fl_eq (a b : fl) : bool :=
  match a, b with
  | Fin x, Fin y => Reqb x y
  | PInf, PInf | NInf, NInf => true
  | _, _ => false
  end.

Definition isfinite (a : fl) : bool :=
  match a with Fin _ => true | _ => false end.

Definition isnan (a : fl) : bool :=
  match a with NaN => true | _ => false end.

Declare Scope fl_scope.
Delimit Scope fl_scope with fl.
Bind Scope fl_scope with fl.
Infix "+" := fl_add : fl_scope.
Infix "-" := fl_sub : fl_scope.
Infix "*" := fl_mul : fl_scope.
Infix "/" := fl_div : fl_scope.
Notation "- a" := (fl_neg a) : fl_scope.
Notation "a ²" := (fl_sq a) (at level 1, format "a ²") : fl_scope.

(** Integers (Python [int], numpy integer dtypes) enter float arithmetic
    by conversion. *)
Definition of_Z (z : Z) : fl := Fin (IZR z).

End Float.
Export Float.

(** A point of the plane, [(x, y)]. *)
Definition point : Type := fl * fl.

(** Euclidean distance between two points with real coordinates, used to
    state where the returned points lie. *)
Definition euclid_dist (p c : R * R) : R :=
  sqrt ((fst p - fst c) * (fst p - fst c) + (snd p - snd c) * (snd p - snd c)).

(* ===================================================================== *)
(** ** Python exceptions *)
(* ===================================================================== *)

Inductive exn : Type :=
| IndexError
| ValueError
| TypeError
| LinAlgError
| OtherException (msg : string).

Inductive result (A : Type) : Type :=
| Return (a : A)
| Raise (e : exn).
Arguments Return {A} a.
Arguments Raise {A} e.

#[global] Instance result_ret : MRet result := @Return.
#[global] Instance result_bind : MBind result := fun A B f m =>
  match m with
  | Return a => f a
  | Raise e => Raise e
  end.

(** [l[t]] for a Python/numpy integer index: negative indices count from
    the end, anything out of range raises IndexError. *)
Definition np_index {A} (l : list A) (t : Z) : result A :=
  let n := Z.of_nat (length l) in
  let i := if (0 <=? t)%Z then t else (n + t)%Z in
  if ((0 <=? i) && (i <? n))%Z
  then match l !! Z.to_nat i with
       | Some a => Return a
       | None => Raise IndexError
       end
  else Raise IndexError.

(* ===================================================================== *)
(** ** numpy.sum *)
(* ===================================================================== *)

(** [np.sum] of a list of floats. *)
Definition np_sum (l : list fl) : fl := foldl fl_add (Fin 0) l.

(* ===================================================================== *)
(** ** Float arithmetic of the geometry code *)
(* ===================================================================== *)

(** [circle_intersection] and [var_func_on_poly] are written once, over an
    arithmetic: the operations Python and numpy apply to float64 values.
    Two arithmetics are used.  [binary64] is IEEE-754 double precision, the
    arithmetic the code runs with.  [exact] is the idealised arithmetic of
    [fl] (no rounding, no overflow); it states what the formulas compute
    before rounding. *)
Record arith (F : Type) : Type := {
  f_add : F → F → F;
  f_sub : F → F → F;
  f_mul : F → F → F;
  f_div : F → F → F;
  (** [np.sqrt] *)
  f_sqrt : F → F;
  (** conversion of a Python [int] operand, as in [2 * d] *)
  f_of_int : Z → F;
  (** [a <= b] and [a >= b] *)
  f_le : F → F → bool;
  f_ge : F → F → bool;
  (** a finite value whose square is not finite *)
  f_pow_overflows : F → bool
}.
Arguments f_add {F} _ _ _.
Arguments f_sub {F} _ _ _.
Arguments f_mul {F} _ _ _.
Arguments f_div {F} _ _ _.
Arguments f_sqrt {F} _ _.
Arguments f_of_int {F} _ _.
Arguments f_le {F} _ _ _.
Arguments f_ge {F} _ _ _.
Arguments f_pow_overflows {F} _ _.

Definition exact : arith fl := {|
  f_add := fl_add;
  f_sub := fl_sub;
  f_mul := fl_mul;
  f_div := fl_div;
  f_sqrt := fl_sqrt;
  f_of_int := of_Z;
  f_le := fl_le;
  f_ge := fl_ge;
  f_pow_overflows := fun _ => false
|}.

Module Binary64.
Import PrimFloat.

(** A Python [int] converted to float64: rounded to nearest, ties to even,
    exact up to [2^53].  (An int of magnitude [2^1024] or more, whose
    conversion raises OverflowError, is not a frame index nor one of the
    literals [0] and [2] converted here.) *)
Definition of_int (z : Z) : float :=
  FloatOps.SF2Prim (SpecFloat.binary_normalize FloatOps.prec FloatOps.emax
                      z 0 false).

Definition pow_overflows (v : float) : bool :=
  is_finite v && is_infinity (mul v v).

Definition binary64 : arith float := {|
  f_add := add;
  f_sub := sub;
  f_mul := mul;
  f_div := div;
  f_sqrt := sqrt;
  f_of_int := of_int;
  f_le := leb;
  f_ge := fun a b => leb b a;
  f_pow_overflows := pow_overflows
|}.

End Binary64.
Export Binary64.

(** A float operand is a Python [float] or a numpy [float64] scalar.  The
    two differ in [** 2]: Python's float power raises OverflowError when a
    finite value overflows, numpy's returns [inf]. *)
Inductive float_type : Type :=
| PyFloat
| NpFloat64.

Definition scalar (F : Type) : Type := float_type * F.

Definition OverflowError : exn := OtherException "OverflowError".

(** The type of [a op b]: a Python float only when both operands are. *)
Definition binop_type (a b : float_type) : float_type :=
  match a, b with
  | PyFloat, PyFloat => PyFloat
  | _, _ => NpFloat64
  end.

Declare Scope arith_scope.

(* ===================================================================== *)
(** ** utils.py: circle_intersection *)
(* ===================================================================== *)

Section CircleIntersection.
Context {F : Type} (A : arith F).
Local Notation "a + b" := (f_add A a b) : arith_scope.
Local Notation "a - b" := (f_sub A a b) : arith_scope.
Local Notation "a * b" := (f_mul A a b) : arith_scope.
Local Notation "a / b" := (f_div A a b) : arith_scope.
Local Open Scope arith_scope.

(** [v ** 2] for an operand of type [ty]; the square itself is the rounded
    product [v * v]. *)
Definition square (ty : float_type) (v : F) : result F :=
  match ty with
  | PyFloat =>
      if f_pow_overflows A v then Raise OverflowError else Return (v * v)
  | NpFloat64 => Return (v * v)
  end.

(** [d], [L] and [h] are numpy scalars ([np.sqrt] returns one), so every
    division has a numpy operand and answers [inf] or [nan] on a zero
    divisor instead of raising. *)
Definition circle_intersection (x0 y0 r0 x1 y1 r1 : scalar F)
  : result (list (F * F)) :=
  let '(tx0, x0) := x0 in
  let '(ty0, y0) := y0 in
  let '(tr0, r0) := r0 in
  let '(tx1, x1) := x1 in
  let '(ty1, y1) := y1 in
  let '(tr1, r1) := r1 in
  dx2 ← square (binop_type tx0 tx1) (x0 - x1);
  dy2 ← square (binop_type ty0 ty1) (y0 - y1);
  let d := f_sqrt A (dx2 + dy2) in
  r02 ← square tr0 r0;
  r12 ← square tr1 r1;
  let L := (r02 - r12 + d * d) / (f_of_int A 2 * d) in
  r02' ← square tr0 r0;
  let h := f_sqrt A (r02' - L * L) in
  let x3 := L / d * (x1 - x0) - h / d * (y1 - y0) + x0 in
  let y3 := L / d * (y1 - y0) + h / d * (x1 - x0) + y0 in
  let x4 := L / d * (x1 - x0) + h / d * (y1 - y0) + x0 in
  let y4 := L / d * (y1 - y0) - h / d * (x1 - x0) + y0 in
  mret [(x3, y3); (x4, y4)].

End CircleIntersection.

(* ===================================================================== *)
(** ** models.py: var_func_on_poly *)
(* ===================================================================== *)

(** The attributes [__init__] sets: the three fitted attributes start as
    [None], the envelope as ["upper"]. *)
Record var_func_on_poly (F : Type) : Type := {
  (** [(A_opt, w_opt, g_opt, B_opt)] *)
  var_on_flattened_poly_params : option (F * F * F * F);
  (** one row [(a, b, c)] per time frame *)
  poly_func_params : option (list (F * F * F));
  orig_center : option (F * F);
  (** ["upper"] by default; ["lower"] for the other envelope *)
  upper_lower_envelope : string
}.
Arguments var_on_flattened_poly_params {F} _.
Arguments poly_func_params {F} _.
Arguments orig_center {F} _.
Arguments upper_lower_envelope {F} _.

Section VarFuncOnPoly.
Context {F : Type} (A : arith F).
(** [np.sin] *)
Variable np_sin : F → F.
Variable self : var_func_on_poly F.
Local Notation "a + b" := (f_add A a b) : arith_scope.
Local Notation "a - b" := (f_sub A a b) : arith_scope.
Local Notation "a * b" := (f_mul A a b) : arith_scope.
Local Open Scope arith_scope.

(** Subscripting or unpacking [None] raises TypeError; the rows of
    [poly_func_params] are numpy scalars. *)
Definition poly_func (t : Z) (x : scalar F) : result F :=
  match poly_func_params self with
  | None => Raise TypeError
  | Some params =>
      '(a, b, c) ← np_index params t;
      x2 ← square A (fst x) (snd x);
      mret (a * x2 + b * snd x + c)
  end.

Definition sinusoid_func (t : Z) (r : F) : result F :=
  match var_on_flattened_poly_params self with
  | None => Raise TypeError
  | Some (A_opt, w_opt, g_opt, B_opt) =>
      mret (A_opt * np_sin (w_opt * r - g_opt * f_of_int A t) + B_opt * r)
  end.

(** The [for sol in sols: if <side test>: return sol] loop; falling off the
    end of the loop (and of the method) returns [None].  [sol[0]] is an
    entry of a float64 array. *)
Fixpoint first_on_side (cmp : F → F → bool) (t : Z) (sols : list (F * F))
  : result (option (F * F)) :=
  match sols with
  | [] => mret None
  | sol :: rest =>
      v ← poly_func t (NpFloat64, fst sol);
      if cmp (snd sol) v then mret (Some sol) else first_on_side cmp t rest
  end.

(** [x0, y0 = (0, 0)] are Python ints: in [x0 - x1] and [... + x0] they act
    as the float [0.0], and [x0 - x1] has the type of [x1]. *)
Definition eval_x (t : Z) (x : scalar F) : result (option (F * F)) :=
  let x1 := x in
  let x0 := (PyFloat, f_of_int A 0) in
  let y0 := (PyFloat, f_of_int A 0) in
  y1 ← poly_func t x1;
  dx2 ← square A (binop_type (fst x0) (fst x1)) (snd x0 - snd x1);
  dy2 ← square A NpFloat64 (snd y0 - y1);
  let r := f_sqrt A (dx2 + dy2) in
  d ← sinusoid_func t r;
  sols ← circle_intersection A x0 y0 (NpFloat64, r) x1 (NpFloat64, y1)
           (NpFloat64, d);
  if String.eqb (upper_lower_envelope self) "upper" then
    first_on_side (f_ge A) t sols
  else if String.eqb (upper_lower_envelope self) "lower" then
    first_on_side (f_le A) t sols
  else mret None.


End VarFuncOnPoly.

Section Binary64Examples.
Import PrimFloat.
Local Open Scope float_scope.

(** A fitted model used in examples: the mean curve of frame 0 is [y = 0],
    the variance is [d(t, r) = 1.2 * r], upper envelope. *)
Definition flat_upper_model : var_func_on_poly float := {|
  var_on_flattened_poly_params := Some (0, 1, 1, 0x1.3333333333333p+0);
  poly_func_params := Some [(0, 0, 0)];
  orig_center := Some (0, 0);
  upper_lower_envelope := "upper"
|}.

(** A stand-in for [np.sin] in examples; the example model multiplies it by
    [A_opt = 0]. *)
Definition zero_sin (v : float) : float := 0.

End Binary64Examples.
(* ===================================================================== *)
(** ** models.py: PLUME.regress_multiframe_mean *)
(* ===================================================================== *)

(** [PlumePoints]: rows [(radius, x, y)]. *)
Definition PlumePoints : Type := list (fl * fl * fl).

(** numpy arrays are mutable objects: the caller's list holds references
    into a store of arrays. *)
Definition loc : Type := positive.
Abbreviation store := (gmap loc PlumePoints).

Inductive warning : Type :=
| InsufficientTrainingPoints (frame : nat).

Section RegressMultiframeMean.
Local Open Scope fl_scope.

(** [regressions.regress_frame_mean] is not among the sources.  It is a
    parameter: given the array it is passed, the method, the degree and the
    direction, it returns the array as it leaves it (it may write to the
    object it was handed) and either a coefficient vector or an exception. *)
Variable regress_frame_mean :
  PlumePoints → string → nat → string → PlumePoints * result (list fl).

Definition n_coef (regression_method : string) (poly_deg : nat) : nat :=
  if String.eqb regression_method "poly_para" then 2 * (poly_deg + 1)
  else if String.eqb regression_method "linear" then 2
  else poly_deg + 1.

(** [frame_points[:, 1:] -= decenter] *)
Definition decenter_points (decenter : fl * fl) (frame_points : PlumePoints)
  : PlumePoints :=
  map (fun '(r, x, y) => (r, x - fst decenter, y - snd decenter)) frame_points.

(** [coef_time_series[i] = v]: numpy broadcasts a one-element vector over
    the row and rejects any other width than the row's. *)
Definition assign_row (width i : nat) (v : list fl) (series : list (list fl))
  : result (list (list fl)) :=
  if (length v =? width)%nat then Return (<[i := v]> series)
  else match v with
       | [c] => Return (<[i := replicate width c]> series)
       | _ => Raise ValueError
       end.

(** State threaded through the loop: the store, the warnings emitted so
    far, and [coef_time_series]. *)
Record batch_state : Type := {
  st_store : store;
  st_warnings : list warning;
  st_series : list (list fl)
}.

(** The call [regress_frame_mean(frame_points, ...)]: the callee receives
    the reference, so whatever it does to the array lands in the store. *)
Definition call_regress_frame_mean (h : store) (frame_points : loc)
    (regression_method : string) (poly_deg : nat) (direction : string)
  : store * result (list fl) :=
  match h !! frame_points with
  | Some pts =>
      let '(pts', outcome) :=
        regress_frame_mean pts regression_method poly_deg direction in
      (<[frame_points := pts']> h, outcome)
  | None => (h, Raise TypeError)
  end.

(** One iteration of the [for i, (_, frame_points) in enumerate(...)] loop.
    [ref] is the caller's array; the loop variable [frame_points] is rebound
    to a fresh copy before anything is written. *)
Definition regress_frame_step (regression_method : string) (poly_deg : nat)
    (direction : string) (decenter : option (fl * fl))
    (i : nat) (ref : loc) (st : batch_state) : batch_state * result unit :=
  match st_store st !! ref with
  | None => (st, Raise TypeError)
  | Some arr =>
      (* frame_points = np.copy(frame_points) *)
      let frame_points := fresh (dom (st_store st)) in
      let h := <[frame_points := arr]> (st_store st) in
      (* if decenter is not None: frame_points[:, 1:] -= decenter *)
      let h :=
        match decenter with
        | Some off => alter (decenter_points off) frame_points h
        | None => h
        end in
      let '(h, outcome) :=
        call_regress_frame_mean h frame_points regression_method poly_deg
          direction in
      let width := n_coef regression_method poly_deg in
      match outcome with
      | Return coef =>
          match assign_row width i coef (st_series st) with
          | Return series =>
              ({| st_store := h; st_warnings := st_warnings st;
                  st_series := series |}, Return ())
          | Raise e =>
              ({| st_store := h; st_warnings := st_warnings st;
                  st_series := st_series st |}, Raise e)
          end
      | Raise LinAlgError =>
          ({| st_store := h;
              st_warnings := st_warnings st ++ [InsufficientTrainingPoints i];
              st_series := <[i := replicate width NaN]> (st_series st) |},
           Return ())
      | Raise e =>
          ({| st_store := h; st_warnings := st_warnings st;
              st_series := st_series st |}, Raise e)
      end
  end.

Fixpoint regress_frames_loop (regression_method : string) (poly_deg : nat)
    (direction : string) (decenter : option (fl * fl))
    (i : nat) (mean_points : list (Z * loc)) (st : batch_state)
  : batch_state * result unit :=
  match mean_points with
  | [] => (st, Return ())
  | (_, ref) :: rest =>
      match regress_frame_step regression_method poly_deg direction decenter
              i ref st with
      | (st', Return _) =>
          regress_frames_loop regression_method poly_deg direction decenter
            (S i) rest st'
      | (st', Raise e) => (st', Raise e)
      end
  end.

(** The method: the store after the call, the warnings emitted, and the
    returned [coef_time_series] (or the exception that escaped). *)
Definition regress_multiframe_mean (h : store) (mean_points : list (Z * loc))
    (regression_method : string) (poly_deg : nat) (direction : string)
    (decenter : option (fl * fl))
  : store * list warning * result (list (list fl)) :=
  let n_frames := length mean_points in
  let width := n_coef regression_method poly_deg in
  let coef_time_series := replicate n_frames (replicate width (Fin 0)) in
  let st0 := {| st_store := h; st_warnings := [];
                st_series := coef_time_series |} in
  match regress_frames_loop regression_method poly_deg direction decenter
          0 mean_points st0 with
  | (st, Return _) => (st_store st, st_warnings st, Return (st_series st))
  | (st, Raise e) => (st_store st, st_warnings st, Raise e)
  end.

(** The per-frame fit: what [regress_frame_mean] answers on a frame's
    points once the optional offset has been subtracted. *)
Definition maybe_decenter (decenter : option (fl * fl)) (arr : PlumePoints)
  : PlumePoints :=
  match decenter with
  | Some off => decenter_points off arr
  | None => arr
  end.

Definition frame_fit (regression_method : string) (poly_deg : nat)
    (direction : string) (decenter : option (fl * fl)) (arr : PlumePoints)
  : result (list fl) :=
  snd (regress_frame_mean (maybe_decenter decenter arr) regression_method
         poly_deg direction).

(** Every frame either fits with the mode's width or fails with the
    linear-algebra error. *)
Definition fits_or_linalg (h : store) (regression_method : string)
    (poly_deg : nat) (direction : string) (decenter : option (fl * fl))
    (refs : list (Z * loc)) : Prop :=
  ∀ frame ref, (frame, ref) ∈ refs →
    ∃ arr, h !! ref = Some arr
           ∧ (frame_fit regression_method poly_deg direction decenter arr
              = Raise LinAlgError
              ∨ ∃ coef,
                  frame_fit regression_method poly_deg direction decenter arr
                  = Return coef
                  ∧ length coef = n_coef regression_method poly_deg).

End RegressMultiframeMean.

(** Pre-subtracted inputs, as a caller would prepare them: [arr_pre] has
    as many rows as [arr], and its row [i] is row [i] of [arr] with [dx]
    taken off the x column and [dy] off the y column (the radius column is
    left alone). *)
Definition columns_subtracted (dx dy : fl) (arr arr_pre : PlumePoints) : Prop :=
  length arr_pre = length arr
  ∧ ∀ (i : nat) (r x y : fl),
      arr !! i = Some (r, x, y) →
      arr_pre !! i = Some (r, fl_sub x dx, fl_sub y dy).

(** The two loops (with and without the offset) run in step when the
    second store holds, for every frame still to come, the array the first
    loop will have after subtracting. *)
Definition stores_in_step (off : fl * fl) (refs : list (Z * loc))
    (h h_pre : store) : Prop :=
  ∀ frame ref, (frame, ref) ∈ refs →
    ∃ arr, h !! ref = Some arr ∧ h_pre !! ref = Some (decenter_points off arr).

(** A stand-in for [regress_frame_mean] in the examples: it needs two points
    and then answers with a vector of the mode's width. *)
Definition two_point_fit (frame_points : PlumePoints) (regression_method : string)
    (poly_deg : nat) (direction : string) : PlumePoints * result (list fl) :=
  (frame_points,
   match frame_points with
   | (_, x, _) :: _ :: _ => Return (replicate (n_coef regression_method poly_deg) x)
   | _ => Raise LinAlgError
   end).

(** The array of the repository's no-mutation test, [[1,1,1],[2,2,2]]. *)
Definition test_points : PlumePoints :=
  [(Fin 1, Fin 1, Fin 1); (Fin 2, Fin 2, Fin 2)].
Definition test_store : store := <[1%positive := test_points]> ∅.
Definition test_frames : list (Z * loc) := [(0%Z, 1%positive)].

(** Example frames: one with two points, one with a single point. *)
Definition two_points : PlumePoints :=
  [(Fin 0, Fin 11, Fin 12); (Fin 1, Fin 13, Fin 14)].
Definition one_point : PlumePoints := [(Fin 0, Fin 11, Fin 12)].

Definition example_store : store :=
  <[1%positive := two_points]> (<[2%positive := one_point]> ∅).
(** The same two frames with [(10, 10)] taken off the x and y columns. *)
Definition two_points_pre : PlumePoints :=
  [(Fin 0, Fin 1, Fin 2); (Fin 1, Fin 3, Fin 4)].
Definition one_point_pre : PlumePoints := [(Fin 0, Fin 1, Fin 2)].
Definition example_store_pre : store :=
  <[1%positive := two_points_pre]> (<[2%positive := one_point_pre]> ∅).
Definition example_frames : list (Z * loc) := [(1%Z, 1%positive); (2%Z, 2%positive)].

(* ===================================================================== *)
(** ** numpy.isclose *)
(* ===================================================================== *)

Section IsClose.
Local Open Scope fl_scope.

(** [np.isclose(a, b, rtol, atol)]: [|a - b| <= atol + rtol * |b|] when
    both are finite, plain equality otherwise (so NaN is close to
    nothing). *)
Definition isclose (a b rtol atol : fl) : bool :=
  if isfinite a && isfinite b
  then fl_le (fl_abs (a - b)) (atol + rtol * fl_abs b)
  else fl_eq a b.

(** numpy's default tolerances, [rtol=1e-05] and [atol=1e-08]. *)
Definition default_rtol : fl := Fin (1 / 100000).
Definition default_atol : fl := Fin (1 / 100000000).

End IsClose.

(* ===================================================================== *)
(** ** src/models.py: the ring tracker *)
(* ===================================================================== *)

(** [GrayImage]: rows of uint8 intensities. *)
Definition GrayImage : Type := list (list Z).

Definition is_uint8 (v : Z) : Prop := (0 <= v <= 255)%Z.
Definition gray_image (array : GrayImage) : Prop :=
  Forall (Forall is_uint8) array.

Section RingTracker.
Local Open Scope fl_scope.

Definition of_nat (n : nat) : fl := of_Z (Z.of_nat n).

(** [n, d = array.shape] *)
Definition shape (array : GrayImage) : nat * nat :=
  (length array, match array with row :: _ => length row | [] => 0%nat end).

(** The index pairs [(row, col)] of an [n x d] array in row-major order,
    the order in which boolean-mask indexing and [np.argwhere] scan. *)
Definition row_major (n d : nat) : list (nat * nat) :=
  foldr (fun yy acc => map (fun xx => (yy, xx)) (seq 0 d) ++ acc) [] (seq 0 n).

Definition pixel (array : GrayImage) (rc : nat * nat) : Z :=
  match array !! fst rc with
  | Some row => match row !! snd rc with Some v => v | None => 0%Z end
  | None => 0%Z
  end.

(** [np.sqrt((xx - col)**2 + (yy - row)**2)] at grid position [(yy, xx)]. *)
Definition distances (center : point) (rc : nat * nat) : fl :=
  let '(col, row) := center in
  fl_sqrt ((of_nat (snd rc) - col)² + (of_nat (fst rc) - row)²).

(** [array[mask]]: the selected intensities, row-major. *)
Definition masked (array : GrayImage) (mask : nat * nat → bool) : list Z :=
  let '(n, d) := shape array in
  map (pixel array) (filter (fun rc => mask rc = true) (row_major n d)).

(** [np.max]; ValueError on an empty array. *)
Definition np_max (l : list Z) : result Z :=
  match l with
  | [] => Raise ValueError
  | v :: rest => Return (foldl Z.max v rest)
  end.

(** [np.argwhere(np.isclose(array, max_value) & mask)] *)
Definition argwhere_max (array : GrayImage) (max_value : Z)
    (mask : nat * nat → bool) : list (nat * nat) :=
  let '(n, d) := shape array in
  filter (fun rc =>
            isclose (of_Z (pixel array rc)) (of_Z max_value)
                    default_rtol default_atol && mask rc = true)
         (row_major n d).

(** The common tail of both searches: maximum over the mask, first
    position attaining it, returned as [(max_value, (col, row))]. *)
Definition max_on_mask (array : GrayImage) (mask : nat * nat → bool)
  : result (Z * (nat * nat)) :=
  max_value ← np_max (masked array mask);
  match argwhere_max array max_value mask with
  | (row, col) :: _ => Return (max_value, (col, row))
  | [] => Raise IndexError
  end.

(** [boundary_mask = np.isclose(distances, r, rtol=rtol, atol=atol)] *)
Definition boundary_mask (center : point) (r rtol atol : fl) (rc : nat * nat)
  : bool :=
  isclose (distances center rc) r rtol atol.

Definition find_max_on_boundary (array : GrayImage) (center : point)
    (r rtol atol : fl) : result (Z * (nat * nat)) :=
  max_on_mask array (boundary_mask center r rtol atol).

(** [search_mask = boundary_mask & interior_mask], the interior mask being
    [distances <= r*scale] around the neighbouring centre. *)
Definition search_mask (orig_center neig_center : point)
    (r scale rtol atol : fl) (rc : nat * nat) : bool :=
  let interior_mask := fl_le (distances neig_center rc) (r * scale) in
  boundary_mask orig_center r rtol atol rc && interior_mask.

(** [search_subset = array[search_mask]], the candidate set of a ring. *)
Definition search_subset (array : GrayImage) (orig_center neig_center : point)
    (r scale rtol atol : fl) : list Z :=
  masked array (search_mask orig_center neig_center r scale rtol atol).

Definition find_next_center (array : GrayImage) (orig_center neig_center : point)
    (r scale rtol atol : fl) : result (Z * (nat * nat)) :=
  max_on_mask array (search_mask orig_center neig_center r scale rtol atol).

(** A found position [(col, row)] used as a point. *)
Definition as_point (c : nat * nat) : point := (of_nat (fst c), of_nat (snd c)).

(** A row of [np.zeros(shape=(num_of_circs+1, 2))]: an entry of the mean
    path that has not been assigned. *)
Definition unset : point := (Fin 0, Fin 0).

(** [points_mean[i] = p]; IndexError outside the array. *)
Definition set_point (i : nat) (p : point) (points_mean : list point)
  : result (list point) :=
  if (i <? length points_mean)%nat then Return (<[i := p]> points_mean)
  else Raise IndexError.

(** The [for step in range(2, num_of_circs+1)] loop of [concentric_circle]:
    any exception of [find_next_center] is caught and breaks the loop. *)
Fixpoint ring_loop (array : GrayImage) (orig_center : point)
    (radii interior_scale rtol atol : fl)
    (steps : list nat) (center : point) (points_mean : list point)
  : list point :=
  match steps with
  | [] => points_mean
  | step :: rest =>
      let radius := radii * of_nat step in
      match find_next_center array orig_center center radius interior_scale
              rtol atol with
      | Raise _ => points_mean
      | Return (_, c) =>
          ring_loop array orig_center radii interior_scale rtol atol rest
            (as_point c) (<[step := as_point c]> points_mean)
      end
  end.

(** The ring search of [concentric_circle] (the block that fills
    [points_mean]), returning [points_mean]. *)
Definition ring_search (array : GrayImage) (orig_center : point)
    (radii : fl) (num_of_circs : nat) (interior_scale rtol atol : fl)
  : result (list point) :=
  let points_mean := replicate (num_of_circs + 1) unset in
  points_mean ← set_point 0 orig_center points_mean;
  '(_, center) ← find_max_on_boundary array orig_center radii rtol atol;
  points_mean ← set_point 1 (as_point center) points_mean;
  mret (ring_loop array orig_center radii interior_scale rtol atol
          (seq 2 (num_of_circs - 1)) (as_point center) points_mean).

(** The centre accepted at ring [j] when every ring up to [j] is found:
    ring 0 is the origin, ring 1 the maximum on the boundary, ring [j+1]
    the next centre from ring [j]. *)
Fixpoint ring_center (array : GrayImage) (orig_center : point)
    (radii interior_scale rtol atol : fl) (j : nat) : result point :=
  match j with
  | O => Return orig_center
  | S j' =>
      match j' with
      | O =>
          '(_, c) ← find_max_on_boundary array orig_center radii rtol atol;
          mret (as_point c)
      | S _ =>
          center ← ring_center array orig_center radii interior_scale rtol atol j';
          '(_, c) ← find_next_center array orig_center center (radii * of_nat j)
                      interior_scale rtol atol;
          mret (as_point c)
      end
  end.

(** A pixel position of the array lying on the tolerance ring. *)
Definition ring_pixel (array : GrayImage) (center : point) (r rtol atol : fl)
    (rc : nat * nat) : Prop :=
  (fst rc < fst (shape array))%nat ∧ (snd rc < snd (shape array))%nat
  ∧ boundary_mask center r rtol atol rc = true.

(** Row-major scan order on positions [(row, col)]: top to bottom, then
    left to right. *)
Definition scans_before (a b : nat * nat) : Prop :=
  (fst a < fst b)%nat ∨ (fst a = fst b ∧ (snd a < snd b)%nat).

End RingTracker.

(** Example images: a single row. *)
Definition tie_image : GrayImage := [[5; 9; 5]%Z].
Definition short_image : GrayImage := [[7; 3]%Z].

(* ===================================================================== *)
(** ** models.py: flatten_edge_points *)
(* ===================================================================== *)

Section FlattenEdgePoints.
Local Open Scope fl_scope.

(** [np.where(b)[0]] for a one-dimensional boolean array: the indices of
    its true entries, ascending. *)
Definition np_where (b : list bool) : list nat :=
  filter (fun i => b !! i = Some true) (seq 0 (length b)).

(** [mask, *_ = np.where(np.isclose(curve_1_pts[:, 0], r))] *)
Definition radius_mask (curve_1_pts : PlumePoints) (r : fl) : list nat :=
  np_where (map (fun '(r1, _, _) => isclose r1 r default_rtol default_atol)
                curve_1_pts).

(** [curve_1_pts[mask]] *)
Definition take_rows (curve_1_pts : PlumePoints) (mask : list nat) : PlumePoints :=
  omap (fun i => curve_1_pts !! i) mask.

Definition _create_radius_pairs (curve_1_pts curve_2_pts : PlumePoints)
  : list (fl * point * point) :=
  foldl (fun pairs '(r, x, y) =>
           let mask := radius_mask curve_1_pts r in
           match take_rows curve_1_pts mask with
           | [] => pairs
           | (_, cx, cy) :: _ => pairs ++ [(r, (cx, cy), (x, y))]
           end)
        [] curve_2_pts.

(** [np.linalg.norm(center_points - edge_points)] on two points. *)
Definition norm_diff (p q : point) : fl :=
  fl_sqrt (np_sum [(fst p - fst q)²; (snd p - snd q)²]).

Definition flatten_edge_points (mean_points vari_points : PlumePoints)
  : list (fl * fl) :=
  let pairs := _create_radius_pairs mean_points vari_points in
  foldl (fun rad_dist '(radius, center_points, edge_points) =>
           let dist := norm_diff center_points edge_points in
           rad_dist ++ [(radius, dist)])
        [] pairs.

(** The behaviour in words, for comparison with the code: the first mean
    point, in array order, whose radius is close to [r] ... *)
Definition first_mean_point (mean_points : PlumePoints) (r : fl) : option point :=
  match List.find (fun '(r1, _, _) => isclose r1 r default_rtol default_atol)
          mean_points with
  | Some (_, cx, cy) => Some (cx, cy)
  | None => None
  end.

(** ... and one [(radius, distance)] row per edge point that has such a
    mean point, in the order of the edge points; the others give no row. *)
Definition flatten_rows (mean_points vari_points : PlumePoints) : list (fl * fl) :=
  omap (fun '(r, x, y) =>
          match first_mean_point mean_points r with
          | Some c => Some (r, norm_diff c (x, y))
          | None => None
          end)
       vari_points.

End FlattenEdgePoints.

(** Example: mean points at radii 0, 1, 1 and edge points at radii 1, 5. *)
Definition example_mean : PlumePoints :=
  [(Fin 0, Fin 0, Fin 0); (Fin 1, Fin 3, Fin 0); (Fin 1, Fin 9, Fin 9)].
Definition example_edge : PlumePoints :=
  [(Fin 1, Fin 3, Fin 4); (Fin 5, Fin 7, Fin 7)].


(* ===================================================================== *)
(** ** src/models.py: PLUME.concentric_circle *)
(* ===================================================================== *)

(** The keyword arguments of [concentric_circle].  The two drawing flags
    [boundary_ring] and [interior_ring] are at their default [False]:
    nothing is drawn during the ring search. *)
Record cc_args : Type := {
  contour_smoothing : bool;
  contour_smoothing_eps : fl;
  radii : fl;
  num_of_circs : nat;
  fit_poly : bool;
  interior_scale : fl;
  rtol : fl;
  atol : fl;
  poly_deg : nat;
  x_less : fl;
  x_plus : fl;
  mean_smoothing : bool;
  mean_smoothing_sigma : fl
}.

Section ConcentricCircle.

(** OpenCV images and contours are opaque. *)
Variables Img Contour : Type.

(** Lines 54–106, all OpenCV: grayscale conversion, Otsu threshold,
    contour extraction, selection of the largest contour, optional
    smoothing, and the first drawings on a copy of the image.  It yields
    [img_gray], [selected_contours] and [contour_img]. *)
Variable find_contours :
  Img → point → bool → fl → result (GrayImage * list Contour * Img).

(** [scipy.ndimage.gaussian_filter] on a one-dimensional array. *)
Variable gaussian_filter : list fl → fl → result (list fl).

(** [cv2.circle(contour_img, center.round().astype(int), 7, blue, -1)] *)
Variable draw_mean_point : Img → point → result Img.

(** [np.polyfit(x, y, deg=poly_deg)] *)
Variable np_polyfit : list fl → list fl → nat → result (list fl).

(** Lines 189–297: the plot of the fitted mean curve, the variance points
    of each ring above and below it, their two fits and plots.  It yields
    [contour_img], [poly_coef_var1] and [poly_coef_var2]. *)
Variable variance_stage :
  cc_args → point → list Contour → Img → list point → list fl →
  result (Img * list fl * list fl).

(** [np.column_stack((x, y))] of two one-dimensional arrays. *)
Definition np_column_stack (x y : list fl) : result (list point) :=
  if (length x =? length y)%nat then Return (zip x y) else Raise ValueError.

(** [for center in points_mean: cv2.circle(...)] *)
Fixpoint draw_mean_points (contour_img : Img) (points_mean : list point)
  : result Img :=
  match points_mean with
  | [] => Return contour_img
  | center :: rest =>
      contour_img ← draw_mean_point contour_img center;
      draw_mean_points contour_img rest
  end.

(** Lines 172–299: what the method does with [points_mean] once the ring
    search is over. *)
Definition fit_mean_path (args : cc_args) (orig_center : point)
    (selected_contours : list Contour) (contour_img : Img)
    (points_mean : list point)
  : result (Img * list fl * list fl * list fl) :=
  points_mean ←
    (if mean_smoothing args then
       let smooth_x := map fst points_mean in
       smooth_y ← gaussian_filter (map snd points_mean)
                    (mean_smoothing_sigma args);
       np_column_stack smooth_x smooth_y
     else Return points_mean);
  contour_img ← draw_mean_points contour_img points_mean;
  poly_coef_mean ← np_polyfit (map fst points_mean) (map snd points_mean)
                     (poly_deg args);
  '(contour_img, poly_coef_var1, poly_coef_var2) ←
    variance_stage args orig_center selected_contours contour_img points_mean
      poly_coef_mean;
  mret (contour_img, poly_coef_mean, poly_coef_var1, poly_coef_var2).

(** [self.orig_center] is [None] until it is declared; anything but a
    tuple raises TypeError. *)
Definition concentric_circle (self_orig_center : option point) (img : Img)
    (args : cc_args) : result (Img * list fl * list fl * list fl) :=
  match self_orig_center with
  | None => Raise TypeError
  | Some orig_center =>
      '(img_gray, selected_contours, contour_img) ←
        find_contours img orig_center (contour_smoothing args)
          (contour_smoothing_eps args);
      points_mean ← ring_search img_gray orig_center (radii args)
                      (num_of_circs args) (interior_scale args) (rtol args)
                      (atol args);
      fit_mean_path args orig_center selected_contours contour_img points_mean
  end.

End ConcentricCircle.

(** Stand-ins for the library calls in examples: the image is its own
    grayscale version, no contour is found, nothing is drawn, the filter
    leaves the array as it is, and the fit answers with the two arrays it
    was given, one after the other. *)
Definition blank_contours (img : GrayImage) (orig_center : point)
    (contour_smoothing : bool) (contour_smoothing_eps : fl)
  : result (GrayImage * list unit * GrayImage) :=
  Return (img, [], img).
Definition identity_filter (y : list fl) (sigma : fl) : result (list fl) :=
  Return y.
Definition no_drawing (contour_img : GrayImage) (center : point)
  : result GrayImage :=
  Return contour_img.
Definition echo_polyfit (x y : list fl) (deg : nat) : result (list fl) :=
  Return (x ++ y).
Definition no_variance (args : cc_args) (orig_center : point)
    (selected_contours : list unit) (contour_img : GrayImage)
    (points_mean : list point) (poly_coef_mean : list fl)
  : result (GrayImage * list fl * list fl) :=
  Return (contour_img, [], []).

(** Two rings of radius 1, tolerances [1e-2] and [1e-6], the other arguments
    at their defaults. *)
Definition two_rings : cc_args := {|
  contour_smoothing := false;
  contour_smoothing_eps := Fin 50;
  radii := Fin 1;
  num_of_circs := 2;
  fit_poly := true;
  interior_scale := Fin (3 / 5);
  rtol := Fin (1 / 100);
  atol := Fin (1 / 1000000);
  poly_deg := 2;
  x_less := Fin 600;
  x_plus := Fin 0;
  mean_smoothing := true;
  mean_smoothing_sigma := Fin 2
|}.
(* ===================================================================== *)
(** * Further code of the same files *)
(* ===================================================================== *)

From Stdlib Require Import Ascii.
From stdpp Require Import pretty.


(** ** regress_multiframe_mean: vocabulary for its warnings and errors *)

Section BatchVocabulary.
Variable regress_frame_mean :
  PlumePoints → string → nat → string → PlumePoints * result (list fl).

(** Whether the fit of the frame behind [ref] raises the linear-algebra
    error. *)
Definition frame_fails (h : store) (regression_method : string) (poly_deg : nat)
    (direction : string) (decenter : option (fl * fl)) (ref : loc) : bool :=
  match h !! ref with
  | Some arr =>
      match frame_fit regress_frame_mean regression_method poly_deg direction
              decenter arr with
      | Raise LinAlgError => true
      | _ => false
      end
  | None => false
  end.

(** The positions (counted from [i]) of the frames whose fit fails that
    way, in list order. *)
Fixpoint failing_frames (h : store) (regression_method : string) (poly_deg : nat)
    (direction : string) (decenter : option (fl * fl))
    (i : nat) (refs : list (Z * loc)) : list nat :=
  match refs with
  | [] => []
  | (_, ref) :: rest =>
      let later :=
        failing_frames h regression_method poly_deg direction decenter (S i) rest in
      if frame_fails h regression_method poly_deg direction decenter ref
      then i :: later else later
  end.

End BatchVocabulary.

(** A stand-in for [regress_frame_mean] that rejects unknown mode names
    with a ValueError before looking at the points. *)
Definition mode_checked_fit (frame_points : PlumePoints)
    (regression_method : string) (poly_deg : nat) (direction : string)
  : PlumePoints * result (list fl) :=
  if bool_decide (regression_method ∈ ["linear"; "poly"; "poly_inv"; "poly_para"])
  then two_point_fit frame_points regression_method poly_deg direction
  else (frame_points, Raise ValueError).

(** ** src/models.py: the candidates of find_next_center *)

(** A pixel position of the array that [find_next_center] searches: on the
    tolerance ring around the origin and within [r*scale] of the
    neighbouring centre. *)
Definition next_center_candidate (array : GrayImage)
    (orig_center neig_center : point) (r scale rtol atol : fl)
    (rc : nat * nat) : Prop :=
  ring_pixel array orig_center r rtol atol rc
  ∧ fl_le (distances neig_center rc) (fl_mul r scale) = true.

(* ===================================================================== *)
(** ** utils.py: display and file-name helpers *)
(* ===================================================================== *)

(** [s.replace("_", " ")] *)
Fixpoint replace_underscore (s : string) : string :=
  match s with
  | EmptyString => EmptyString
  | String c rest =>
      String (if Ascii.eqb c "_" then " "%char else c) (replace_underscore rest)
  end.

(** The label [add_clock] logs for a function name. *)
Definition _rename_string (f_name : string) : string :=
  if String.eqb f_name "video_to_ROM" then "apply concentric circle"
  else if String.prefix "apply" f_name then replace_underscore f_name
  else "apply " +:+ replace_underscore f_name.

(** [str(id)] for an int: decimal digits, a leading minus sign when
    negative. *)
Definition str (id : Z) : string := pretty id.

(** [range(n)] for an int: empty when [n] is negative. *)
Definition range (n : Z) : list nat := seq 0 (Z.to_nat n).

Definition create_id (id magnitude : Z) : string :=
  let num_of_leading_zeros := (magnitude - Z.of_nat (String.length (str id)))%Z in
  let frame_str :=
    foldl (fun frame_str _ => frame_str +:+ "0") "" (range num_of_leading_zeros) in
  frame_str +:+ str id.

(** [s.endswith(suffix)] *)
Fixpoint endswith (s suffix : string) : bool :=
  String.eqb s suffix
  || match s with
     | EmptyString => false
     | String _ rest => endswith rest suffix
     end.

(** [count_files] and [get_frame_ids] read the directory through
    [os.listdir]; its result is the parameter [listdir]. *)
Definition count_files (listdir : list string) (extension : string) : nat :=
  foldl (fun count filename =>
           if endswith filename ("." +:+ extension) then S count else count)
        0 listdir.

Definition get_frame_ids (listdir : list string) (extension : string)
  : list string :=
  let file_ids :=
    foldl (fun file_ids filename =>
             if endswith filename ("." +:+ extension)
             then file_ids ++ [filename] else file_ids)
          [] listdir in
  (* file_ids.sort(): Python orders [str] lexicographically by code point *)
  merge_sort String.le file_ids.

(* ===================================================================== *)
(** ** models.py: frame ranges, video_to_ROM, apply_gauss_time_blur *)
(* ===================================================================== *)

(** A slice bound as Python clips it: a negative bound counts from the
    end. *)
Definition slice_bound (n i : Z) : Z :=
  if (i <? 0)%Z then Z.max (i + n) 0 else Z.min i n.

(** [a[start:stop]] along the first axis. *)
Definition py_slice {A} (a : list A) (start stop : Z) : list A :=
  let n := Z.of_nat (length a) in
  let lo := slice_bound n start in
  let hi := slice_bound n stop in
  take (Z.to_nat (hi - lo)) (drop (Z.to_nat lo) a).

Section VideoToROM.
Context {Contour_List : Type}.

(** The two callees run on every frame, with their keyword arguments
    fixed: [get_contour] (OpenCV) and [concentric_circle] (imported from
    another module).  Either may raise. *)
Variable get_contour : GrayImage → result Contour_List.
Variable concentric_circle :
  GrayImage → Contour_List → Z * Z →
  result (PlumePoints * PlumePoints * PlumePoints).

(** The three lists being appended to. *)
Definition rom_lists : Type :=
  (list (Z * PlumePoints) * list (Z * PlumePoints) * list (Z * PlumePoints))%type.

(** [for k, frame_k in enumerate(arr[start_frame:end_frame])], from
    count [k] on. *)
Fixpoint video_to_ROM_loop (orig_center : Z * Z) (start_frame : Z) (k : nat)
    (frames : list GrayImage) (acc : rom_lists) : result rom_lists :=
  match frames with
  | [] => Return acc
  | frame_k :: rest =>
      (* k += start_frame *)
      let k' := (Z.of_nat k + start_frame)%Z in
      selected_contours ← get_contour frame_k;
      '(mean_k, var1_k, var2_k) ←
        concentric_circle frame_k selected_contours orig_center;
      let '(mean_points, var1_points, var2_points) := acc in
      video_to_ROM_loop orig_center start_frame (S k) rest
        (mean_points ++ [(k', mean_k)],
         var1_points ++ [(k', var1_k)],
         var2_points ++ [(k', var2_k)])
  end.

Definition video_to_ROM (arr : list GrayImage) (orig_center : Z * Z)
    (img_range : Z * Z) : result rom_lists :=
  let orig_center := (fst orig_center, snd orig_center) in
  let '(start_frame, end_frame) := img_range in
  let end_frame :=
    if (end_frame =? -1)%Z then Z.of_nat (length arr) else end_frame in
  video_to_ROM_loop orig_center start_frame 0
    (py_slice arr start_frame end_frame) ([], [], []).

End VideoToROM.

(** The entries [j-h .. j+h] of [l]; [None] stands for a position outside
    [l], where [mode="constant"] pads with [cval]. *)
Definition window {A} (l : list A) (j h : Z) : list (option A) :=
  (fun t : Z => if (t <? 0)%Z then None else l !! Z.to_nat t)
    <$> seqZ (j - h) (2 * h + 1).

(** What the properties below assume of scipy's [convolve1d] followed by
    the cast: the result has the shape of the input, and each entry is a
    function of the input entries at most [h] positions away. *)
Definition windowed {A} (conv : list A → list A) (h : Z) : Prop :=
  (∀ l, length (conv l) = length l)
  ∧ ∃ K : list (option A) → A,
      ∀ l j, j < length l → conv l !! j = Some (K (window l (Z.of_nat j) h)).

Section GaussTimeBlur.
Context {Image : Type}.

(** [convolve1d(a, gw, axis=AX_FRAME, mode="constant", cval=0.0)
    .astype(np.uint8)] for the normalised Gaussian window of the given
    size (and the given [sigma]): scipy's, kept abstract.  The model
    covers positive kernel sizes. *)
Variable convolve1d : Z → list Image → list Image.

(** The body of the loop: the value written to [blurred_arr[i]]. *)
Definition blur_frame (arr : list Image) (kernel_size : Z) (i : Z)
  : result Image :=
  let n := Z.of_nat (length arr) in
  let start_idx := Z.max (i - kernel_size / 2) 0 in
  let end_idx := Z.min (i + kernel_size / 2 + 1) n in
  let slice_arr := py_slice arr start_idx end_idx in
  let convolved_slice := convolve1d kernel_size slice_arr in
  let slice_index :=
    Z.min (kernel_size / 2) (Z.of_nat (length convolved_slice)) in
  let slice_index :=
    if (i <? kernel_size)%Z then (-1 * (slice_index + 1))%Z else slice_index in
  np_index convolved_slice slice_index.

(** The loop over the frames: entry [i] of [blurred_arr] is written once,
    in iteration [i]; an exception ends the loop. *)
Fixpoint blur_frames (arr : list Image) (kernel_size : Z) (frames : list nat)
  : result (list Image) :=
  match frames with
  | [] => Return []
  | i :: rest =>
      blurred ← blur_frame arr kernel_size (Z.of_nat i);
      later ← blur_frames arr kernel_size rest;
      mret (blurred :: later)
  end.

Definition apply_gauss_time_blur (arr : list Image) (kernel_size : Z)
    (iterative : bool) : result (list Image) :=
  if (kernel_size mod 2 =? 0)%Z then Raise ValueError
  else if iterative
       then blur_frames arr kernel_size (range (Z.of_nat (length arr)))
       else Return (convolve1d kernel_size arr).

End GaussTimeBlur.

(** Example: a two-frame video, and stand-ins for the two callees that
    return the same points for every frame. *)
Definition example_video : list GrayImage := [tie_image; short_image].
Definition no_contour (frame : GrayImage) : result unit := Return ().
Definition fixed_circle (frame : GrayImage) (contours : unit)
    (orig_center : Z * Z) : result (PlumePoints * PlumePoints * PlumePoints) :=
  Return (one_point, one_point, one_point).
Definition example_rom : list (Z * PlumePoints) :=
  [(0%Z, one_point); (1%Z, one_point)].

(** Example: the convolution with the kernel [0, 1, 0], which returns
    its input; each entry is the centre of its window of three. *)
Definition unit_convolve1d (kernel_size : Z) (a : list Z) : list Z := a.
Definition centre_entry (w : list (option Z)) : Z :=
  match w with
  | [_; Some x; _] => x
  | _ => 0%Z
  end.

(* ===================================================================== *)
(** ** models.py: background subtraction *)
(* ===================================================================== *)

Section BackgroundSubtract.
Context {Image FloatImage : Type}.

(** numpy's and OpenCV's pixel operations, kept abstract:
    [np.mean(., axis=AX_FRAME)], [.astype(np.uint8)] and [cv2.subtract]. *)
Variable np_mean : list Image → FloatImage.
Variable astype_uint8 : FloatImage → Image.
Variable cv2_subtract : Image → Image → Image.

(** [img_range] is an int (a number of initial frames) or a pair. *)
Definition _create_background_img (frames : list Image)
    (img_range : Z + Z * Z) : FloatImage :=
  let '(start_frame, end_frame) :=
    match img_range with
    | inl count => (0%Z, count)
    | inr range => range
    end in
  let end_frame :=
    if (end_frame =? -1)%Z then Z.of_nat (length frames) else end_frame in
  np_mean (py_slice frames start_frame end_frame).

(** [clean_vid[i] = v]; IndexError outside the array.  An entry of
    [np.empty] that has not been written is [None]. *)
Definition set_frame (i : nat) (v : Image) (clean_vid : list (option Image))
  : result (list (option Image)) :=
  if (i <? length clean_vid)%nat then Return (<[i := Some v]> clean_vid)
  else Raise IndexError.

(** [for i, frame in enumerate(frames[start_frame:end_frame])], from
    count [i] on. *)
Fixpoint subtract_loop (background_img_np : Image) (i : nat)
    (frames : list Image) (clean_vid : list (option Image))
  : result (list (option Image)) :=
  match frames with
  | [] => Return clean_vid
  | frame :: rest =>
      clean_vid ← set_frame i (cv2_subtract frame background_img_np) clean_vid;
      subtract_loop background_img_np (S i) rest clean_vid
  end.

Definition background_subtract (frames : list Image) (fixed_range : Z * Z)
    (img_range : Z * Z) : result (list (option Image)) :=
  let background_img_np :=
    astype_uint8 (_create_background_img frames (inr fixed_range)) in
  let '(start_frame, end_frame) := img_range in
  let end_frame :=
    if (end_frame =? -1)%Z then Z.of_nat (length frames) else end_frame in
  match frames with
  | [] => Raise IndexError                                  (* frames[0] *)
  | _ :: _ =>
      if (end_frame - start_frame <? 0)%Z then Raise ValueError  (* np.empty *)
      else
        let clean_vid := replicate (Z.to_nat (end_frame - start_frame)) None in
        subtract_loop background_img_np 0
          (py_slice frames start_frame end_frame) clean_vid
  end.

End BackgroundSubtract.

(** Example pixel operations on one-pixel images. *)
Definition first_pixel (frames : list Z) : Z :=
  match frames with v :: _ => v | [] => 0%Z end.
Definition saturating_sub (a b : Z) : Z := Z.max (a - b) 0.

(* ===================================================================== *)
(** ** src/models.py: create_background_img *)
(* ===================================================================== *)

Section CreateBackgroundImg.
Local Open Scope fl_scope.

(** The arithmetic is elementwise, so one pixel is followed: [video] holds
    the gray value of that pixel in each frame the capture delivers, and
    the result is the value of that pixel in the background image. *)

(** [.astype(np.uint8)] of a float, kept abstract. *)
Variable astype_uint8 : fl → Z.

(** The [while ret] loop from frame count [k] on; [frames] are the frames
    still to come, the current one first. *)
Fixpoint background_loop (frames : list Z) (k img_count : Z)
    (background_img_np : fl) : fl :=
  match frames with
  | [] => background_img_np
  | frame :: rest =>
      let background_img_np :=
        if (k <? img_count)%Z then background_img_np + of_Z frame
        else background_img_np in
      background_loop rest (k + 1) img_count background_img_np
  end.

Definition create_background_img (video : list Z) (img_count : Z) : result Z :=
  match video with
  | [] => Raise (OtherException "cv2.error")   (* cvtColor of no frame *)
  | frame :: _ =>
      let background_img_np := of_Z frame in
      let background_img_np := background_loop video 0 img_count background_img_np in
      Return (astype_uint8 (background_img_np / of_Z img_count))
  end.

End CreateBackgroundImg.

(** The sum of gray values. *)
Definition gray_sum (l : list Z) : Z := foldr Z.add 0%Z l.

(** Example cast: the integer part, wrapped to 8 bits. *)
Definition wrap_uint8 (a : fl) : Z :=
  match a with
  | Fin x => (Int_part x mod 256)%Z
  | _ => 0%Z
  end.

(* ===================================================================== *)
(** * Properties *)
(* ===================================================================== *)

(* --------------------------------------------------------------------- *)
(** ** Arithmetic of finite floats *)
(* --------------------------------------------------------------------- *)

Section FloatFacts.

Lemma Rleb_true (x y : R) : (x <= y)%R → Rleb x y = true.
Proof. intros H. unfold Rleb. destruct (Rle_dec x y); [reflexivity | contradiction]. Qed.

Lemma Rleb_false (x y : R) : (y < x)%R → Rleb x y = false.
Proof. intros H. unfold Rleb. destruct (Rle_dec x y); [lra | reflexivity]. Qed.

Lemma Rleb_spec (x y : R) : Rleb x y = true ↔ (x <= y)%R.
Proof. unfold Rleb. destruct (Rle_dec x y); split; intros; auto; try discriminate; contradiction. Qed.

Lemma Rltb_true (x y : R) : (x < y)%R → Rltb x y = true.
Proof. intros H. unfold Rltb. destruct (Rlt_dec x y); [reflexivity | contradiction]. Qed.

Lemma Rltb_false (x y : R) : (y <= x)%R → Rltb x y = false.
Proof. intros H. unfold Rltb. destruct (Rlt_dec x y); [lra | reflexivity]. Qed.

Lemma Rltb_spec (x y : R) : Rltb x y = true ↔ (x < y)%R.
Proof. unfold Rltb. destruct (Rlt_dec x y); split; intros; auto; try discriminate; contradiction. Qed.

Lemma Reqb_true (x y : R) : x = y → Reqb x y = true.
Proof. intros H. unfold Reqb. destruct (Req_dec_T x y); [reflexivity | contradiction]. Qed.

Lemma Reqb_false (x y : R) : x ≠ y → Reqb x y = false.
Proof. intros H. unfold Reqb. destruct (Req_dec_T x y); [contradiction | reflexivity]. Qed.

Lemma Reqb_spec (x y : R) : Reqb x y = true ↔ x = y.
Proof. unfold Reqb. destruct (Req_dec_T x y); split; intros; auto; try discriminate; contradiction. Qed.

Lemma fl_sqrt_Fin (x : R) : (0 <= x)%R → fl_sqrt (Fin x) = Fin (sqrt x).
Proof. intros H. unfold fl_sqrt. by rewrite Rleb_true. Qed.

Lemma fl_sqrt_neg (x : R) : (x < 0)%R → fl_sqrt (Fin x) = NaN.
Proof. intros H. unfold fl_sqrt. by rewrite Rleb_false. Qed.

Lemma fl_div_Fin (x y : R) : y ≠ 0%R → fl_div (Fin x) (Fin y) = Fin (x / y).
Proof. intros H. unfold fl_div. by rewrite Reqb_false. Qed.

Lemma fl_sq_Fin (x : R) : fl_sq (Fin x) = Fin (x * x).
Proof. reflexivity. Qed.

Lemma fl_add_Fin (x y : R) : fl_add (Fin x) (Fin y) = Fin (x + y).
Proof. reflexivity. Qed.

Lemma fl_sub_Fin (x y : R) : fl_sub (Fin x) (Fin y) = Fin (x - y).
Proof. reflexivity. Qed.

Lemma fl_mul_Fin (x y : R) : fl_mul (Fin x) (Fin y) = Fin (x * y).
Proof. reflexivity. Qed.

Lemma fl_neg_Fin (x : R) : fl_neg (Fin x) = Fin (- x).
Proof. reflexivity. Qed.

End FloatFacts.

Ltac fl_simp :=
  repeat first [ rewrite fl_sub_Fin | rewrite fl_add_Fin | rewrite fl_mul_Fin
               | rewrite fl_sq_Fin | rewrite fl_neg_Fin ].

(* --------------------------------------------------------------------- *)
(** ** circle_intersection on intersecting circles *)
(* --------------------------------------------------------------------- *)

Section CircleIntersectionFacts.
Local Open Scope R_scope.



End CircleIntersectionFacts.

Section CircleIntersectionOnCircles.
Local Open Scope R_scope.

Lemma euclid_dist_of_sq (p c : R * R) (r : R) :
  0 <= r →
  (fst p - fst c) * (fst p - fst c) + (snd p - snd c) * (snd p - snd c) = r * r →
  euclid_dist p c = r.
Proof.
  intros Hr E. unfold euclid_dist. rewrite E. by apply sqrt_square.
Qed.


End CircleIntersectionOnCircles.

Section CircleIntersectionExample.
Local Open Scope R_scope.



End CircleIntersectionExample.

Section CircleIntersectionBinary64.
Import PrimFloat.
Local Open Scope float_scope.

(** In float64 the same two circles give exactly [(3,4)] and [(3,-4)]. *)
Lemma circle_intersection_binary64_3_4 :
  circle_intersection binary64 (NpFloat64, 0) (NpFloat64, 0) (NpFloat64, 5)
    (NpFloat64, 6) (NpFloat64, 0) (NpFloat64, 5)
  = Return [(3, 4); (3, -4)].
Proof. vm_compute. reflexivity. Qed.



End CircleIntersectionBinary64.

(* --------------------------------------------------------------------- *)
(** ** Python indexing and exception propagation *)
(* --------------------------------------------------------------------- *)

Section IndexFacts.


Lemma np_index_out_of_range {A} (l : list A) (t : Z) :
  ¬ (- Z.of_nat (length l) <= t < Z.of_nat (length l))%Z →
  np_index l t = Raise IndexError.
Proof.
  intros Ht. unfold np_index.
  set (i := if (0 <=? t)%Z then t else (Z.of_nat (length l) + t)%Z).
  assert (Hi : ¬ (0 <= i < Z.of_nat (length l))%Z).
  { unfold i. destruct (Z.leb_spec 0 t); lia. }
  destruct ((0 <=? i)%Z && (i <? Z.of_nat (length l))%Z) eqn:E; [| reflexivity].
  apply andb_true_iff in E as [E1%Z.leb_le E2%Z.ltb_lt]. lia.
Qed.

Lemma bind_Return_inv {A B} (m : result A) (f : A → result B) (b : B) :
  m ≫= f = Return b → ∃ a, m = Return a ∧ f a = Return b.
Proof.
  destruct m as [a | e]; intros H; cbv [mbind result_bind] in H;
    [by exists a | discriminate].
Qed.

Lemma bind_Raise_inv {A B} (m : result A) (f : A → result B) (e : exn) :
  m ≫= f = Raise e → m = Raise e ∨ ∃ a, m = Return a ∧ f a = Raise e.
Proof.
  destruct m as [a | e']; intros H; cbv [mbind result_bind] in H;
    [right; by exists a | injection H as ->; by left].
Qed.

End IndexFacts.

(* --------------------------------------------------------------------- *)
(** ** eval_x: the envelope side *)
(* --------------------------------------------------------------------- *)

Section EvalXSide.
Context {F : Type} (A : arith F).
Variable np_sin : F → F.
Variable self : var_func_on_poly F.

Lemma square_Return (ty : float_type) (v v2 : F) :
  square A ty v = Return v2 → v2 = f_mul A v v.
Proof.
  unfold square. destruct ty; [destruct (f_pow_overflows A v) |]; congruence.
Qed.




End EvalXSide.

Section EvalXSideExample.
Import PrimFloat.
Local Open Scope float_scope.



End EvalXSideExample.

(* --------------------------------------------------------------------- *)
(** ** float64: NaN and its propagation *)
(* --------------------------------------------------------------------- *)

Section Binary64Facts.
Import PrimFloat FloatOps FloatAxioms SpecFloat.
Local Open Scope float_scope.

Lemma float_is_nan (f : float) : Prim2SF f = S754_nan → f = nan.
Proof. intros H. apply Prim2SF_inj. rewrite H. reflexivity. Qed.

Lemma Prim2SF_nan : Prim2SF nan = S754_nan.
Proof. reflexivity. Qed.

Lemma add_nan_l (y : float) : nan + y = nan.
Proof. apply float_is_nan. rewrite add_spec, Prim2SF_nan. reflexivity. Qed.

Lemma add_nan_r (x : float) : x + nan = nan.
Proof.
  apply float_is_nan. rewrite add_spec, Prim2SF_nan.
  by destruct (Prim2SF x).
Qed.

Lemma sub_nan_r (x : float) : x - nan = nan.
Proof.
  apply float_is_nan. rewrite sub_spec, Prim2SF_nan.
  by destruct (Prim2SF x).
Qed.

Lemma mul_nan_l (y : float) : nan * y = nan.
Proof. apply float_is_nan. rewrite mul_spec, Prim2SF_nan. reflexivity. Qed.

Lemma mul_nan_r (x : float) : x * nan = nan.
Proof.
  apply float_is_nan. rewrite mul_spec, Prim2SF_nan.
  by destruct (Prim2SF x).
Qed.

Lemma div_nan_l (y : float) : nan / y = nan.
Proof. apply float_is_nan. rewrite div_spec, Prim2SF_nan. reflexivity. Qed.

(** Every comparison with NaN is false. *)
Lemma leb_nan_l (y : float) : (nan <=? y) = false.
Proof. rewrite leb_spec, Prim2SF_nan. reflexivity. Qed.

Lemma leb_nan_r (x : float) : (x <=? nan) = false.
Proof. rewrite leb_spec, Prim2SF_nan. by destruct (Prim2SF x). Qed.

Lemma SFcompare_refl (s : spec_float) :
  s ≠ S754_nan → SFcompare s s = Some Eq.
Proof.
  destruct s as [[] | [] | | [] m e]; intros H; try reflexivity; try done;
    cbn; rewrite Z.compare_refl, ?Pos.compare_cont_refl, ?Pos.compare_refl;
    reflexivity.
Qed.

Lemma is_nan_eq (f : float) : is_nan f = true → f = nan.
Proof.
  unfold is_nan. rewrite eqb_spec. intros H. apply float_is_nan.
  destruct (Prim2SF f) as [s | s | | s m e] eqn:E; [| | reflexivity |];
    unfold SFeqb in H; rewrite SFcompare_refl in H by discriminate;
    discriminate.
Qed.

(** The square root of a negative number, [-inf] included, is NaN. *)
Lemma sqrt_negative (f : float) : (f <? 0) = true → sqrt f = nan.
Proof.
  rewrite ltb_spec. intros H. apply float_is_nan. rewrite sqrt_spec.
  change (Prim2SF 0) with (S754_zero false) in H.
  by destruct (Prim2SF f) as [[] | [] | | [] m e].
Qed.

Lemma sqrt_nan : sqrt nan = nan.
Proof. reflexivity. Qed.

Lemma eqb_zero (f : float) :
  (f =? 0) = true → ∃ s, Prim2SF f = S754_zero s.
Proof.
  rewrite eqb_spec. change (Prim2SF 0) with (S754_zero false).
  destruct (Prim2SF f) as [s | [] | | [] m e]; try discriminate.
  by exists s.
Qed.

(** With a zero centre distance, [L] is a quotient by zero and the argument
    of the second square root is [-inf] or NaN. *)
Lemma concentric_sqrt_nan (r02 r12 d : float) :
  (d =? 0) = true →
  sqrt (r02 - (r02 - r12 + d * d) / (2 * d) * ((r02 - r12 + d * d) / (2 * d)))
  = nan.
Proof.
  intros Hd. apply eqb_zero in Hd as [s Hd].
  apply float_is_nan.
  rewrite sqrt_spec, sub_spec, mul_spec, div_spec.
  rewrite (mul_spec 2 d), Hd.
  change (Prim2SF 2) with (S754_finite false 4503599627370496 (-51)).
  destruct (Prim2SF (r02 - r12 + d * d)) as [[] | [] | | [] m e];
    destruct (Prim2SF r02) as [[] | [] | | [] m' e']; destruct s;
    reflexivity.
Qed.

End Binary64Facts.

(* --------------------------------------------------------------------- *)
(** ** circle_intersection and eval_x on degenerate circles *)
(* --------------------------------------------------------------------- *)

Section CircleIntersectionDegenerate.
Import PrimFloat.
Local Open Scope float_scope.

Lemma of_int_0 : Binary64.of_int 0 = 0.
Proof. reflexivity. Qed.

Lemma of_int_2 : Binary64.of_int 2 = 2.
Proof. reflexivity. Qed.

(** What [circle_intersection] returns once the second square root is
    NaN. *)
Lemma circle_intersection_nan_root (x0 y0 r0 x1 y1 r1 : scalar float)
    (dx2 dy2 r02 r12 : float) :
  square binary64 (binop_type (fst x0) (fst x1)) (snd x0 - snd x1)
    = Return dx2 →
  square binary64 (binop_type (fst y0) (fst y1)) (snd y0 - snd y1)
    = Return dy2 →
  square binary64 (fst r0) (snd r0) = Return r02 →
  square binary64 (fst r1) (snd r1) = Return r12 →
  let d := sqrt (dx2 + dy2) in
  let L := (r02 - r12 + d * d) / (2 * d) in
  sqrt (r02 - L * L) = nan →
  circle_intersection binary64 x0 y0 r0 x1 y1 r1
  = Return [(nan, nan); (nan, nan)].
Proof.
  destruct x0 as [tx0 x0], y0 as [ty0 y0], r0 as [tr0 r0],
    x1 as [tx1 x1], y1 as [ty1 y1], r1 as [tr1 r1].
  cbv zeta. cbn [fst snd]. intros Hdx Hdy Hr0 Hr1 Hh.
  unfold circle_intersection.
  change (f_sub binary64) with sub. rewrite Hdx, Hdy.
  cbn [mbind result_bind]. rewrite Hr0, Hr1. cbn [mbind result_bind mret result_ret].
  change (f_sub binary64) with sub. change (f_add binary64) with add.
  change (f_mul binary64) with mul. change (f_div binary64) with div.
  change (f_sqrt binary64) with sqrt.
  change (f_of_int binary64 2) with (Binary64.of_int 2). rewrite of_int_2.
  rewrite Hh.
  rewrite !div_nan_l, !mul_nan_l, !sub_nan_r, !add_nan_r, !add_nan_l.
  reflexivity.
Qed.

Lemma poly_func_on_candidate (self : var_func_on_poly float) (t : Z)
    (x : scalar float) (y1 v : float) :
  poly_func binary64 self t x = Return y1 →
  ∃ w, poly_func binary64 self t (NpFloat64, v) = Return w.
Proof.
  unfold poly_func. destruct (poly_func_params self) as [params |]; [| done].
  destruct (np_index params t) as [[[a b] c] | e]; [| done].
  intros _. cbn. by eexists.
Qed.

Lemma first_on_side_nan (self : var_func_on_poly float) (t : Z)
    (x : scalar float) (y1 : float) (cmp : float → float → bool) :
  poly_func binary64 self t x = Return y1 →
  (∀ v, cmp nan v = false) →
  first_on_side binary64 self cmp t [(nan, nan); (nan, nan)] = Return None.
Proof.
  intros Hy Hc. cbn [first_on_side fst snd].
  destruct (poly_func_on_candidate self t x y1 nan Hy) as [w ->].
  cbn [mbind result_bind]. rewrite Hc. reflexivity.
Qed.

(** C4. [circle_intersection] detects a degenerate pair of circles only
    through its float64 intermediates.  Provided no [** 2] on a Python
    float raises OverflowError before, whenever the computed
    centre distance [d] is zero, or the computed [r0² − L²] is negative or
    NaN, it returns a 2×2 array whose four entries are NaN — not an empty
    array and not [None].  [eval_x], its caller, then returns [None]: no
    NaN candidate passes the side test. *)
Theorem circle_intersection_degenerate :
  (∀ (x0 y0 r0 x1 y1 r1 : scalar float) (dx2 dy2 r02 r12 : float),
     square binary64 (binop_type (fst x0) (fst x1)) (snd x0 - snd x1)
       = Return dx2 →
     square binary64 (binop_type (fst y0) (fst y1)) (snd y0 - snd y1)
       = Return dy2 →
     square binary64 (fst r0) (snd r0) = Return r02 →
     square binary64 (fst r1) (snd r1) = Return r12 →
     let d := sqrt (dx2 + dy2) in
     let L := (r02 - r12 + d * d) / (2 * d) in
     (d =? 0) = true ∨ (r02 - L * L <? 0) = true
       ∨ is_nan (r02 - L * L) = true →
     circle_intersection binary64 x0 y0 r0 x1 y1 r1
     = Return [(nan, nan); (nan, nan)])
  ∧ (∀ (np_sin : float → float) (self : var_func_on_poly float) (t : Z)
       (x : scalar float) (y1 d : float),
       let r := sqrt ((0 - snd x) * (0 - snd x) + (0 - y1) * (0 - y1)) in
       poly_func binary64 self t x = Return y1 →
       sinusoid_func binary64 np_sin self t r = Return d →
       circle_intersection binary64 (PyFloat, 0) (PyFloat, 0) (NpFloat64, r)
         x (NpFloat64, y1) (NpFloat64, d)
       = Return [(nan, nan); (nan, nan)] →
       eval_x binary64 np_sin self t x = Return None).
Proof.
  split.
  - intros x0 y0 r0 x1 y1 r1 dx2 dy2 r02 r12 Hdx Hdy Hr0 Hr1 d L Hdeg.
    apply (circle_intersection_nan_root x0 y0 r0 x1 y1 r1 dx2 dy2 r02 r12);
      try assumption.
    fold d. fold L. destruct Hdeg as [Hd | [Hneg | Hnan]].
    + by apply concentric_sqrt_nan.
    + by apply sqrt_negative.
    + rewrite (is_nan_eq _ Hnan). exact sqrt_nan.
  - intros np_sin self t [tx x] y1 d r Hy Hd Hci. cbn [fst snd] in *.
    assert (Etx : binop_type PyFloat tx = tx) by (by destruct tx).
    unfold eval_x. rewrite Hy. cbn [mbind result_bind fst snd].
    change (f_of_int binary64 0) with (Binary64.of_int 0). rewrite of_int_0.
    change (f_sub binary64) with sub. change (f_add binary64) with add.
    change (f_sqrt binary64) with sqrt.
    assert (Hsq : square binary64 tx (0 - x) = Return ((0 - x) * (0 - x))).
    { unfold circle_intersection in Hci. cbv beta iota zeta in Hci.
      apply bind_Return_inv in Hci as (v & E & _).
      rewrite Etx in E. change (f_sub binary64) with sub in E.
      by rewrite (square_Return binary64 tx _ v E) in E. }
    rewrite Etx, Hsq. cbn [mbind result_bind square].
    change (f_mul binary64) with mul.
    fold r. rewrite Hd. cbn [mbind result_bind]. rewrite Hci.
    cbn [mbind result_bind].
    destruct (String.eqb (upper_lower_envelope self) "upper").
    + apply (first_on_side_nan self t (tx, x) y1); [exact Hy |].
      intros v. apply leb_nan_r.
    + destruct (String.eqb (upper_lower_envelope self) "lower");
        [| reflexivity].
      apply (first_on_side_nan self t (tx, x) y1); [exact Hy |].
      intros v. apply leb_nan_l.
Qed.

(** Concentric unit circles give four NaNs, and the flat model queried at
    [x = 0] (both radii 0, both centres the origin) gives [None]. *)
Lemma circle_intersection_degenerate_witness :
  circle_intersection binary64 (NpFloat64, 0) (NpFloat64, 0) (NpFloat64, 1)
    (NpFloat64, 0) (NpFloat64, 0) (NpFloat64, 1)
  = Return [(nan, nan); (nan, nan)]
  ∧ eval_x binary64 zero_sin flat_upper_model 0 (NpFloat64, 0) = Return None.
Proof.
  split.
  - apply (proj1 circle_intersection_degenerate
             (NpFloat64, 0) (NpFloat64, 0) (NpFloat64, 1)
             (NpFloat64, 0) (NpFloat64, 0) (NpFloat64, 1) 0 0 1 1);
      try reflexivity.
    left. reflexivity.
  - apply (proj2 circle_intersection_degenerate zero_sin flat_upper_model 0%Z
             (NpFloat64, 0) 0 0); reflexivity.
Defined.

(** The circle of radius 3 around [(0,0)] and the circle of radius 1 around
    [(4 + 2^-50, 0)] are disjoint ([3 + 1 < 4 + 2^-50], the abscissa being
    the float [4503599627370497 * 2^-50]), yet [d² ] rounds to 16,
    [r0² − L²] to 0, and the point [(3, 0)] is returned twice. *)
Lemma circle_intersection_disjoint_returns_point :
  FloatOps.Prim2SF 0x1.0000000000001p+2
    = SpecFloat.S754_finite false 4503599627370497 (-50)
  ∧ (3 + 1 < IZR 4503599627370497 / 2 ^ 50)%R
  ∧ circle_intersection binary64 (NpFloat64, 0) (NpFloat64, 0) (NpFloat64, 3)
      (NpFloat64, 0x1.0000000000001p+2) (NpFloat64, 0) (NpFloat64, 1)
    = Return [(3, 0); (3, 0)].
Proof.
  split; [vm_compute; reflexivity |]. split; [lra |].
  vm_compute. reflexivity.
Qed.

End CircleIntersectionDegenerate.

(* --------------------------------------------------------------------- *)
(** ** eval_x: which calls raise *)
(* --------------------------------------------------------------------- *)

Section Binary64Overflow.
Import PrimFloat FloatOps FloatAxioms SpecFloat.
Local Open Scope float_scope.






End Binary64Overflow.

Section EvalXOutcome.
Import PrimFloat.
Local Open Scope float_scope.
Variable np_sin : float → float.
Variable self : var_func_on_poly float.




End EvalXOutcome.

Section EvalXOutcomeExample.
Import PrimFloat.
Local Open Scope float_scope.


End EvalXOutcomeExample.

(* --------------------------------------------------------------------- *)
(** ** regress_multiframe_mean: the store *)
(* --------------------------------------------------------------------- *)

Section BatchStore.
Variable regress_frame_mean :
  PlumePoints → string → nat → string → PlumePoints * result (list fl).

(** What an iteration does, in terms of the values involved: the fit is
    taken on the (decentered) copy, and the store only grows by that copy. *)
Lemma regress_frame_step_spec (method : string) (deg : nat) (dir : string)
    (decenter : option (fl * fl)) (i : nat) (ref : loc) (st : batch_state)
    (arr : PlumePoints) :
  st_store st !! ref = Some arr →
  ∃ h' : store,
    st_store st ⊆ h'
    ∧ regress_frame_step regress_frame_mean method deg dir decenter i ref st
      = match frame_fit regress_frame_mean method deg dir decenter arr with
        | Return coef =>
            match assign_row (n_coef method deg) i coef (st_series st) with
            | Return series =>
                ({| st_store := h'; st_warnings := st_warnings st;
                    st_series := series |}, Return ())
            | Raise e =>
                ({| st_store := h'; st_warnings := st_warnings st;
                    st_series := st_series st |}, Raise e)
            end
        | Raise LinAlgError =>
            ({| st_store := h';
                st_warnings := st_warnings st ++ [InsufficientTrainingPoints i];
                st_series := <[i := replicate (n_coef method deg) NaN]>
                               (st_series st) |}, Return ())
        | Raise e =>
            ({| st_store := h'; st_warnings := st_warnings st;
                st_series := st_series st |}, Raise e)
        end.
Proof.
  intros Href. unfold regress_frame_step, frame_fit. rewrite Href.
  set (l := fresh (dom (st_store st))).
  assert (Hl : st_store st !! l = None) by apply not_elem_of_dom, is_fresh.
  set (h1 := match decenter with
             | Some off => alter (decenter_points off) l (<[l := arr]> (st_store st))
             | None => <[l := arr]> (st_store st)
             end).
  assert (H1 : h1 !! l = Some (maybe_decenter decenter arr)).
  { unfold h1. destruct decenter as [off |]; cbn [maybe_decenter].
    - by rewrite lookup_alter_eq, lookup_insert_eq.
    - by rewrite lookup_insert_eq. }
  assert (H1' : ∀ k, k ≠ l → h1 !! k = st_store st !! k).
  { intros k Hk. unfold h1. destruct decenter as [off |].
    - by rewrite lookup_alter_ne, lookup_insert_ne.
    - by rewrite lookup_insert_ne. }
  unfold call_regress_frame_mean. rewrite H1.
  destruct (regress_frame_mean (maybe_decenter decenter arr) method deg dir)
    as [pts' outcome]. cbn [snd].
  exists (<[l := pts']> h1). split.
  - apply map_subseteq_spec. intros k x Hk.
    assert (k ≠ l) by congruence.
    by rewrite lookup_insert_ne, H1'.
  - reflexivity.
Qed.

(** One iteration only ever writes to the copy it has just allocated. *)
Lemma regress_frame_step_store (method : string) (deg : nat) (dir : string)
    (decenter : option (fl * fl)) (i : nat) (ref : loc) (st : batch_state) :
  st_store st
  ⊆ st_store (fst (regress_frame_step regress_frame_mean method deg dir
                     decenter i ref st)).
Proof.
  destruct (st_store st !! ref) as [arr |] eqn:Href.
  - destruct (regress_frame_step_spec method deg dir decenter i ref st arr Href)
      as (h' & Hsub & ->).
    destruct (frame_fit _ _ _ _ _ _) as [coef | e].
    + by destruct (assign_row _ i coef (st_series st)).
    + by destruct e.
  - unfold regress_frame_step. by rewrite Href.
Qed.

Lemma regress_frames_loop_store (method : string) (deg : nat) (dir : string)
    (decenter : option (fl * fl)) (mean_points : list (Z * loc)) :
  ∀ (i : nat) (st : batch_state),
    st_store st
    ⊆ st_store (fst (regress_frames_loop regress_frame_mean method deg dir
                       decenter i mean_points st)).
Proof.
  induction mean_points as [| [frame ref] rest IH]; intros i st;
    cbn [regress_frames_loop]; [done |].
  pose proof (regress_frame_step_store method deg dir decenter i ref st) as Hs.
  destruct (regress_frame_step _ method deg dir decenter i ref st)
    as [st' [[] | e]]; cbn [fst] in *.
  - etrans; [exact Hs | apply IH].
  - exact Hs.
Qed.

(** C6. Every array that is in the store before the call — the input point
    arrays among them — is in the store after the call with the same
    contents, whatever the arguments (method, degree, direction, decenter
    offset) and whether the call returns or raises. *)
Theorem regress_multiframe_mean_does_not_mutate (h : store)
    (mean_points : list (Z * loc)) (regression_method : string)
    (poly_deg : nat) (direction : string) (decenter : option (fl * fl)) :
  h ⊆ fst (fst (regress_multiframe_mean regress_frame_mean h mean_points
                  regression_method poly_deg direction decenter)).
Proof.
  unfold regress_multiframe_mean.
  match goal with
  | |- context [regress_frames_loop ?f ?m ?d ?dir ?dc ?i ?mp ?st0] =>
      pose proof (regress_frames_loop_store m d dir dc mp i st0) as Hs;
      destruct (regress_frames_loop f m d dir dc i mp st0) as [st [[] | e]]
  end; exact Hs.
Qed.

End BatchStore.

Section BatchStoreExample.

(** The repository's test: linear fit with [decenter=(1, 1)]; the array the
    caller holds is the same before and after, while the fit ran on the
    decentered copy (its first [x] is [1 - 1]). *)
Example regress_multiframe_mean_test_array :
  fst (fst (regress_multiframe_mean two_point_fit test_store test_frames
              "linear" 2 "either" (Some (Fin 1, Fin 1)))) !! 1%positive
  = Some test_points
  ∧ snd (regress_multiframe_mean two_point_fit test_store test_frames
           "linear" 2 "either" (Some (Fin 1, Fin 1)))
    = Return [[fl_sub (Fin 1) (Fin 1); fl_sub (Fin 1) (Fin 1)]].
Proof. split; reflexivity. Qed.

End BatchStoreExample.

(* --------------------------------------------------------------------- *)
(** ** regress_multiframe_mean: decenter *)
(* --------------------------------------------------------------------- *)

Section BatchDecenter.
Variable regress_frame_mean :
  PlumePoints → string → nat → string → PlumePoints * result (list fl).

(** What the loop's in-place subtraction leaves in a frame is the
    pre-subtracted frame. *)
Lemma decenter_points_columns (dx dy : fl) (arr arr_pre : PlumePoints) :
  columns_subtracted dx dy arr arr_pre →
  decenter_points (dx, dy) arr = arr_pre.
Proof.
  intros [Hlen Hrow]. revert arr_pre Hlen Hrow.
  induction arr as [| [[r x] y] arr IH]; intros [| row arr_pre] Hlen Hrow;
    try discriminate; [reflexivity |].
  cbn [decenter_points map fst snd]. f_equal.
  - pose proof (Hrow 0%nat r x y eq_refl) as H0. by injection H0 as ->.
  - apply IH.
    + cbn in Hlen. lia.
    + intros i r' x' y' E. exact (Hrow (S i) r' x' y' E).
Qed.


Lemma stores_in_step_weaken (off : fl * fl) (refs : list (Z * loc))
    (h h_pre h' h_pre' : store) :
  h ⊆ h' → h_pre ⊆ h_pre' →
  stores_in_step off refs h h_pre → stores_in_step off refs h' h_pre'.
Proof.
  intros H1 H2 H frame ref Hin.
  destruct (H frame ref Hin) as (arr & Ha & Hb).
  exists arr. split; eapply lookup_weaken; eauto.
Qed.

Lemma regress_frames_loop_decenter (method : string) (deg : nat) (dir : string)
    (off : fl * fl) (mean_points : list (Z * loc)) :
  ∀ (i : nat) (st1 st2 : batch_state),
    st_warnings st1 = st_warnings st2 →
    st_series st1 = st_series st2 →
    stores_in_step off mean_points (st_store st1) (st_store st2) →
    let r1 := regress_frames_loop regress_frame_mean method deg dir (Some off)
                i mean_points st1 in
    let r2 := regress_frames_loop regress_frame_mean method deg dir None
                i mean_points st2 in
    st_warnings (fst r1) = st_warnings (fst r2)
    ∧ st_series (fst r1) = st_series (fst r2)
    ∧ snd r1 = snd r2.
Proof.
  induction mean_points as [| [frame ref] rest IH]; intros i st1 st2 Hw Hs Hpre;
    cbn [regress_frames_loop]; [by cbn |].
  destruct (Hpre frame ref) as (arr & Ha & Hb); [left |].
  destruct (regress_frame_step_spec regress_frame_mean method deg dir (Some off)
              i ref st1 arr Ha) as (h1 & Hsub1 & ->).
  destruct (regress_frame_step_spec regress_frame_mean method deg dir None
              i ref st2 _ Hb) as (h2 & Hsub2 & ->).
  change (frame_fit regress_frame_mean method deg dir None
            (decenter_points off arr))
    with (frame_fit regress_frame_mean method deg dir (Some off) arr).
  assert (Hrest : stores_in_step off rest h1 h2).
  { apply (stores_in_step_weaken off rest (st_store st1) (st_store st2));
      [done | done |].
    intros f r Hin. apply (Hpre f r). by right. }
  rewrite <- Hw, <- Hs.
  destruct (frame_fit _ _ _ _ _ _) as [coef | e].
  - destruct (assign_row _ i coef (st_series st1)) as [series | e'].
    + by apply IH.
    + by cbn.
  - destruct e; try by cbn. by apply IH.
Qed.

(** C5. Calling [regress_multiframe_mean] with [decenter=(dx, dy)] returns
    exactly the coefficient array (and emits the warnings) of the call
    without [decenter] on pre-subtracted inputs: arrays of the same length
    whose rows are the original rows with [dx] taken off the x column and
    [dy] off the y column — for every frame list, method, degree and
    offset. *)
Theorem regress_multiframe_mean_decenter (h h_pre : store)
    (mean_points : list (Z * loc)) (regression_method : string)
    (poly_deg : nat) (direction : string) (dx dy : fl) :
  (∀ frame ref, (frame, ref) ∈ mean_points →
     ∃ arr arr_pre,
       h !! ref = Some arr ∧ h_pre !! ref = Some arr_pre
       ∧ length arr_pre = length arr
       ∧ ∀ (i : nat) (r x y : fl),
           arr !! i = Some (r, x, y) →
           arr_pre !! i = Some (r, fl_sub x dx, fl_sub y dy)) →
  snd (regress_multiframe_mean regress_frame_mean h mean_points
         regression_method poly_deg direction (Some (dx, dy)))
  = snd (regress_multiframe_mean regress_frame_mean h_pre mean_points
           regression_method poly_deg direction None)
  ∧ snd (fst (regress_multiframe_mean regress_frame_mean h mean_points
                regression_method poly_deg direction (Some (dx, dy))))
    = snd (fst (regress_multiframe_mean regress_frame_mean h_pre mean_points
                  regression_method poly_deg direction None)).
Proof.
  intros Hpre.
  assert (Hstep : stores_in_step (dx, dy) mean_points h h_pre).
  { intros frame ref Hin.
    destruct (Hpre frame ref Hin) as (arr & arr_pre & Ha & Hb & Hlen & Hrow).
    exists arr. split; [done |].
    by rewrite (decenter_points_columns dx dy arr arr_pre (conj Hlen Hrow)). }
  unfold regress_multiframe_mean.
  match goal with
  | |- context [regress_frames_loop _ _ _ _ (Some _) _ _ ?s1] =>
      match goal with
      | |- context [regress_frames_loop _ _ _ _ None _ _ ?s2] =>
          pose proof (regress_frames_loop_decenter regression_method poly_deg
                        direction (dx, dy) mean_points 0 s1 s2
                        eq_refl eq_refl Hstep) as H
      end
  end.
  cbv zeta in H.
  destruct (regress_frames_loop _ _ _ _ (Some _) _ _ _) as [st1 [[] | e1]];
    destruct (regress_frames_loop _ _ _ _ None _ _ _) as [st2 [[] | e2]];
    cbn [fst snd] in *; destruct H as (Hw & Hs & Hr); try discriminate.
  - by rewrite Hw, Hs.
  - injection Hr as ->. by rewrite Hw.
Qed.

End BatchDecenter.

Section BatchDecenterExample.

Lemma two_points_pre_columns :
  columns_subtracted (Fin 10) (Fin 10) two_points two_points_pre.
Proof.
  split; [reflexivity |].
  intros [| [| i]] r x y [= <- <- <-]; cbn;
    repeat f_equal; lra.
Qed.

Lemma one_point_pre_columns :
  columns_subtracted (Fin 10) (Fin 10) one_point one_point_pre.
Proof.
  split; [reflexivity |].
  intros [| i] r x y [= <- <- <-]; cbn;
    repeat f_equal; lra.
Qed.

Lemma example_pre_subtracted :
  ∀ frame ref, (frame, ref) ∈ example_frames →
    ∃ arr arr_pre,
      example_store !! ref = Some arr ∧ example_store_pre !! ref = Some arr_pre
      ∧ length arr_pre = length arr
      ∧ ∀ (i : nat) (r x y : fl),
          arr !! i = Some (r, x, y) →
          arr_pre !! i = Some (r, fl_sub x (Fin 10), fl_sub y (Fin 10)).
Proof.
  intros frame ref Hin. unfold example_frames in Hin.
  apply list_elem_of_In in Hin. destruct Hin as [[= <- <-] | [[= <- <-] | []]].
  - exists two_points, two_points_pre.
    split; [reflexivity |]. split; [reflexivity |]. exact two_points_pre_columns.
  - exists one_point, one_point_pre.
    split; [reflexivity |]. split; [reflexivity |]. exact one_point_pre_columns.
Qed.

Lemma regress_multiframe_mean_decenter_witness :
  snd (regress_multiframe_mean two_point_fit example_store example_frames
         "poly" 2 "either" (Some (Fin 10, Fin 10)))
  = snd (regress_multiframe_mean two_point_fit example_store_pre example_frames
           "poly" 2 "either" None)
  ∧ snd (fst (regress_multiframe_mean two_point_fit example_store example_frames
                "poly" 2 "either" (Some (Fin 10, Fin 10))))
    = snd (fst (regress_multiframe_mean two_point_fit example_store_pre
                  example_frames "poly" 2 "either" None)).
Proof.
  apply (regress_multiframe_mean_decenter two_point_fit example_store
           example_store_pre example_frames "poly" 2 "either" (Fin 10) (Fin 10)).
  exact example_pre_subtracted.
Defined.

End BatchDecenterExample.

(* --------------------------------------------------------------------- *)
(** ** regress_multiframe_mean: fault isolation *)
(* --------------------------------------------------------------------- *)

Section BatchIsolation.
Variable regress_frame_mean :
  PlumePoints → string → nat → string → PlumePoints * result (list fl).
Variable h : store.
Variables (method : string) (deg : nat) (dir : string).
Variable decenter : option (fl * fl).

Let fit := frame_fit regress_frame_mean method deg dir decenter.
Let width := n_coef method deg.

Lemma assign_row_width (i : nat) (coef : list fl) (series : list (list fl)) :
  length coef = width →
  assign_row width i coef series = Return (<[i := coef]> series).
Proof. intros H. unfold assign_row. by rewrite H, Nat.eqb_refl. Qed.

Lemma regress_frames_loop_isolates (rest : list (Z * loc)) :
  ∀ (i : nat) (st : batch_state),
    h ⊆ st_store st →
    i + length rest ≤ length (st_series st) →
    fits_or_linalg regress_frame_mean h method deg dir decenter rest →
    ∃ st' : batch_state,
      regress_frames_loop regress_frame_mean method deg dir decenter i rest st
        = (st', Return ())
      ∧ h ⊆ st_store st'
      ∧ length (st_series st') = length (st_series st)
      ∧ (∀ j, j < i → st_series st' !! j = st_series st !! j)
      ∧ (∀ k frame ref arr,
           rest !! k = Some (frame, ref) → h !! ref = Some arr →
           match fit arr with
           | Return coef => st_series st' !! (i + k) = Some coef
           | Raise _ =>
               st_series st' !! (i + k) = Some (replicate width NaN)
               ∧ InsufficientTrainingPoints (i + k) ∈ st_warnings st'
           end)
      ∧ (∀ w, w ∈ st_warnings st → w ∈ st_warnings st')
      ∧ (∀ w, w ∈ st_warnings st' →
           w ∈ st_warnings st
           ∨ ∃ k frame ref arr,
               rest !! k = Some (frame, ref) ∧ h !! ref = Some arr
               ∧ fit arr = Raise LinAlgError
               ∧ w = InsufficientTrainingPoints (i + k)).
Proof.
  induction rest as [| [frame ref] rest IH]; intros i st Hsub Hlen Hfit.
  - exists st. cbn [regress_frames_loop]. repeat split; auto.
    intros k ? ? ? Hk. by rewrite lookup_nil in Hk.
  - cbn [regress_frames_loop]. cbn [length] in Hlen.
    destruct (Hfit frame ref) as (arr & Harr & Hcase); [left |].
    change (fit arr = Raise LinAlgError
            ∨ ∃ coef, fit arr = Return coef ∧ length coef = width) in Hcase.
    assert (Hst : st_store st !! ref = Some arr) by (eapply lookup_weaken; eauto).
    destruct (regress_frame_step_spec regress_frame_mean method deg dir decenter
                i ref st arr Hst) as (h1 & Hsub1 & ->).
    fold fit width.
    assert (Hrest : fits_or_linalg regress_frame_mean h method deg dir decenter rest).
    { intros f r Hin. apply (Hfit f r). by right. }
    assert (Hh1 : h ⊆ h1) by (etrans; eauto).
    (* the state after this frame, in both cases *)
    assert (∃ st1 row,
              match fit arr with
              | Return coef =>
                  match assign_row width i coef (st_series st) with
                  | Return series =>
                      ({| st_store := h1; st_warnings := st_warnings st;
                          st_series := series |}, Return ())
                  | Raise e =>
                      ({| st_store := h1; st_warnings := st_warnings st;
                          st_series := st_series st |}, Raise e)
                  end
              | Raise LinAlgError =>
                  ({| st_store := h1;
                      st_warnings :=
                        st_warnings st ++ [InsufficientTrainingPoints i];
                      st_series := <[i := replicate width NaN]> (st_series st) |},
                   Return ())
              | Raise e =>
                  ({| st_store := h1; st_warnings := st_warnings st;
                      st_series := st_series st |}, Raise e)
              end = (st1, Return ())
              ∧ st_store st1 = h1
              ∧ st_series st1 = <[i := row]> (st_series st)
              ∧ match fit arr with
                | Return coef =>
                    row = coef ∧ st_warnings st1 = st_warnings st
                | Raise _ =>
                    row = replicate width NaN
                    ∧ st_warnings st1
                      = st_warnings st ++ [InsufficientTrainingPoints i]
                    ∧ fit arr = Raise LinAlgError
                end) as (st1 & row & -> & Hs1 & Hr1 & Hw1).
    { destruct Hcase as [-> | (coef & -> & Hc)].
      - eexists _, _. repeat split; reflexivity.
      - rewrite assign_row_width by done. eexists _, _. repeat split; reflexivity. }
    destruct (IH (S i) st1) as (st' & Hrun & Hsub' & Hlen' & Hold & Hrows & Hmono & Horig).
    { by rewrite Hs1. }
    { rewrite Hr1, length_insert. lia. }
    { exact Hrest. }
    exists st'. split; [exact Hrun |]. split; [exact Hsub' |].
    assert (Hi : st_series st' !! i = Some row).
    { rewrite Hold by lia. rewrite Hr1. apply list_lookup_insert_eq. lia. }
    split; [by rewrite Hlen', Hr1, length_insert |].
    split; [| split; [| split]].
    + intros j Hj. rewrite Hold by lia. rewrite Hr1.
      apply list_lookup_insert_ne. lia.
    + intros k f r a Hk Ha. destruct k as [| k].
      * cbn in Hk. injection Hk as -> ->.
        assert (a = arr) as -> by congruence.
        rewrite Nat.add_0_r.
        destruct (fit arr) as [coef | e].
        -- destruct Hw1 as [-> _]. exact Hi.
        -- destruct Hw1 as (-> & Hw & _). split; [exact Hi |].
           apply Hmono. rewrite Hw. apply elem_of_app. right. by left.
      * cbn in Hk. replace (i + S k) with (S i + k) by lia.
        by apply (Hrows k f r a).
    + intros w Hw. apply Hmono.
      destruct (fit arr); [destruct Hw1 as [_ ->] | destruct Hw1 as (_ & -> & _)];
        [done | apply elem_of_app; by left].
    + intros w Hw. apply Horig in Hw as [Hw | (k & f & r & a & Hk & Ha & Hf & ->)].
      * destruct (fit arr) as [coef | e] eqn:Hfa.
        -- destruct Hw1 as [_ Hw1]. rewrite Hw1 in Hw. by left.
        -- destruct Hw1 as (_ & Hw1 & He). rewrite Hw1 in Hw.
           apply elem_of_app in Hw as [Hw | Hw]; [by left |].
           apply list_elem_of_singleton in Hw as ->.
           right. exists 0, frame, ref, arr.
           rewrite Nat.add_0_r. split; [reflexivity |].
           split; [exact Harr |]. split; [by rewrite Hfa | reflexivity].
      * right. exists (S k), f, r, a.
        replace (i + S k) with (S i + k) by lia.
        split; [exact Hk |]. split; [exact Ha |]. split; [exact Hf | reflexivity].
Qed.

End BatchIsolation.

Section BatchIsolationTheorem.
Variable regress_frame_mean :
  PlumePoints → string → nat → string → PlumePoints * result (list fl).

(** C3. When every frame's fit either succeeds with the mode's width or
    raises the linear-algebra error, [regress_multiframe_mean] returns an
    array with one row per input frame, in input order: the row of a frame
    that fitted holds its coefficients, the row of a frame whose fit raised
    is all NaN of the mode's width (2 for linear, [poly_deg+1] for poly and
    poly_inv, [2(poly_deg+1)] for poly_para) and a warning for it is
    emitted; every other frame is still fitted. *)
Theorem regress_multiframe_mean_isolates_failures (h : store)
    (mean_points : list (Z * loc)) (regression_method : string)
    (poly_deg : nat) (direction : string) (decenter : option (fl * fl)) :
  (∀ frame ref, (frame, ref) ∈ mean_points →
     ∃ arr, h !! ref = Some arr
       ∧ (frame_fit regress_frame_mean regression_method poly_deg direction
            decenter arr = Raise LinAlgError
          ∨ ∃ coef,
              frame_fit regress_frame_mean regression_method poly_deg direction
                decenter arr = Return coef
              ∧ length coef = n_coef regression_method poly_deg)) →
  ∃ (h' : store) (warnings : list warning) (rows : list (list fl)),
    regress_multiframe_mean regress_frame_mean h mean_points regression_method
      poly_deg direction decenter = (h', warnings, Return rows)
    ∧ length rows = length mean_points
    ∧ (∀ i frame ref arr,
         mean_points !! i = Some (frame, ref) → h !! ref = Some arr →
         match frame_fit regress_frame_mean regression_method poly_deg
                 direction decenter arr with
         | Return coef =>
             rows !! i = Some coef
             ∧ InsufficientTrainingPoints i ∉ warnings
         | Raise _ =>
             rows !! i = Some (replicate (n_coef regression_method poly_deg) NaN)
             ∧ InsufficientTrainingPoints i ∈ warnings
         end)
    ∧ n_coef "linear" poly_deg = 2
    ∧ n_coef "poly" poly_deg = poly_deg + 1
    ∧ n_coef "poly_inv" poly_deg = poly_deg + 1
    ∧ n_coef "poly_para" poly_deg = 2 * (poly_deg + 1).
Proof.
  intros Hfit. unfold regress_multiframe_mean.
  set (st0 := {| st_store := h; st_warnings := [];
                 st_series := replicate (length mean_points)
                                (replicate (n_coef regression_method poly_deg)
                                   (Fin 0)) |}).
  destruct (regress_frames_loop_isolates regress_frame_mean h regression_method
              poly_deg direction decenter mean_points 0 st0)
    as (st' & -> & Hsub & Hlen & _ & Hrows & _ & Horig).
  { done. }
  { cbn. rewrite length_replicate. lia. }
  { exact Hfit. }
  exists (st_store st'), (st_warnings st'), (st_series st').
  split; [reflexivity |].
  split; [by rewrite Hlen; cbn; rewrite length_replicate |].
  split; [| by repeat split].
  intros i frame ref arr Hi Harr.
  specialize (Hrows i frame ref arr Hi Harr). cbn [Nat.add] in Hrows.
  destruct (frame_fit _ _ _ _ _ arr) as [coef | e] eqn:Hfa; [| exact Hrows].
  split; [exact Hrows |].
  intros Hw. apply Horig in Hw as [Hw | (k & f & r & a & Hk & Ha & Hf & Heq)].
  - cbn in Hw. by apply elem_of_nil in Hw.
  - cbn [Nat.add] in Heq. injection Heq as <-.
    rewrite Hi in Hk. injection Hk as <- <-.
    rewrite Harr in Ha. injection Ha as <-.
    rewrite Hfa in Hf. discriminate.
Qed.

End BatchIsolationTheorem.

Section BatchIsolationExample.

Lemma example_frames_fit_or_fail :
  ∀ frame ref, (frame, ref) ∈ example_frames →
    ∃ arr, example_store !! ref = Some arr
      ∧ (frame_fit two_point_fit "poly_para" 3 "either" None arr
         = Raise LinAlgError
         ∨ ∃ coef,
             frame_fit two_point_fit "poly_para" 3 "either" None arr
             = Return coef
             ∧ length coef = n_coef "poly_para" 3).
Proof.
  intros frame ref Hin. unfold example_frames in Hin.
  apply list_elem_of_In in Hin. destruct Hin as [[= <- <-] | [[= <- <-] | []]].
  - exists two_points. split; [reflexivity |]. right.
    eexists. split; [reflexivity |]. reflexivity.
  - exists one_point. split; [reflexivity |]. by left.
Qed.

(** The second frame has a single point: the first row is fitted, the
    second is NaN of length [2(3+1) = 8]. *)
Lemma regress_multiframe_mean_isolates_failures_witness :
  ∃ (h' : store) (warnings : list warning) (rows : list (list fl)),
    regress_multiframe_mean two_point_fit example_store example_frames
      "poly_para" 3 "either" None = (h', warnings, Return rows)
    ∧ length rows = length example_frames
    ∧ (∀ i frame ref arr,
         example_frames !! i = Some (frame, ref) →
         example_store !! ref = Some arr →
         match frame_fit two_point_fit "poly_para" 3 "either" None arr with
         | Return coef =>
             rows !! i = Some coef
             ∧ InsufficientTrainingPoints i ∉ warnings
         | Raise _ =>
             rows !! i = Some (replicate (n_coef "poly_para" 3) NaN)
             ∧ InsufficientTrainingPoints i ∈ warnings
         end)
    ∧ n_coef "linear" 3 = 2
    ∧ n_coef "poly" 3 = 3 + 1
    ∧ n_coef "poly_inv" 3 = 3 + 1
    ∧ n_coef "poly_para" 3 = 2 * (3 + 1).
Proof.
  apply (regress_multiframe_mean_isolates_failures two_point_fit example_store
           example_frames "poly_para" 3 "either" None).
  exact example_frames_fit_or_fail.
Defined.

(** The same call, evaluated. *)
Example regress_multiframe_mean_nan_row :
  snd (regress_multiframe_mean two_point_fit example_store example_frames
         "poly_para" 3 "either" None)
  = Return [replicate 8 (Fin 11); replicate 8 NaN]
  ∧ snd (fst (regress_multiframe_mean two_point_fit example_store example_frames
                "poly_para" 3 "either" None))
    = [InsufficientTrainingPoints 1].
Proof. split; reflexivity. Qed.

End BatchIsolationExample.

(* --------------------------------------------------------------------- *)
(** ** Row-major scans and masked maxima *)
(* --------------------------------------------------------------------- *)

Section RowMajor.

Lemma elem_of_row (yy b d : nat) (rc : nat * nat) :
  rc ∈ map (fun xx => (yy, xx)) (seq b d)
  ↔ fst rc = yy ∧ b ≤ snd rc < b + d.
Proof.
  rewrite list_elem_of_In, in_map_iff. split.
  - intros (xx & <- & Hxx%in_seq). cbn. lia.
  - intros [<- H]. exists (snd rc). split; [by destruct rc |]. apply in_seq. lia.
Qed.

Lemma elem_of_rows (a n d : nat) (rc : nat * nat) :
  rc ∈ foldr (fun yy acc => map (fun xx => (yy, xx)) (seq 0 d) ++ acc) []
         (seq a n)
  ↔ a ≤ fst rc < a + n ∧ snd rc < d.
Proof.
  revert a. induction n as [| n IH]; intros a; cbn [seq foldr].
  - rewrite elem_of_nil. lia.
  - rewrite elem_of_app, elem_of_row, IH. lia.
Qed.

Lemma elem_of_row_major (n d : nat) (rc : nat * nat) :
  rc ∈ row_major n d ↔ fst rc < n ∧ snd rc < d.
Proof. unfold row_major. rewrite elem_of_rows. lia. Qed.

Lemma row_sorted (yy b d : nat) :
  StronglySorted scans_before (map (fun xx => (yy, xx)) (seq b d)).
Proof.
  revert b. induction d as [| d IH]; intros b; cbn [seq map]; constructor.
  - apply IH.
  - apply Forall_forall. intros rc Hrc%elem_of_row.
    right. cbn. lia.
Qed.

Lemma rows_sorted (a n d : nat) :
  StronglySorted scans_before
    (foldr (fun yy acc => map (fun xx => (yy, xx)) (seq 0 d) ++ acc) []
       (seq a n)).
Proof.
  revert a. induction n as [| n IH]; intros a; cbn [seq foldr].
  - constructor.
  - apply StronglySorted_app_2; [| apply row_sorted | apply IH].
    intros x1 x2 H1%elem_of_row H2%elem_of_rows. left. lia.
Qed.

(** [row_major] lists the positions top to bottom, left to right. *)
Lemma row_major_sorted (n d : nat) : StronglySorted scans_before (row_major n d).
Proof. apply rows_sorted. Qed.

End RowMajor.

Section MaskedMaximum.

Lemma foldl_Zmax_spec (l : list Z) (v : Z) :
  (foldl Z.max v l = v ∨ foldl Z.max v l ∈ l)
  ∧ (v <= foldl Z.max v l)%Z
  ∧ ∀ x, x ∈ l → (x <= foldl Z.max v l)%Z.
Proof.
  revert v. induction l as [| y l IH]; intros v; cbn [foldl].
  - split; [by left |]. split; [lia |]. intros x Hx. by apply elem_of_nil in Hx.
  - destruct (IH (Z.max v y)) as (Hin & Hle & Hall).
    split; [| split].
    + destruct Hin as [-> | Hin]; [| right; by right].
      destruct (Z.max_spec v y) as [[_ ->] | [_ ->]]; [right; by left | by left].
    + lia.
    + intros x [-> | Hx]%elem_of_cons; [lia | by apply Hall].
Qed.

Lemma np_max_spec (l : list Z) :
  l ≠ [] →
  ∃ m, np_max l = Return m ∧ m ∈ l ∧ ∀ x, x ∈ l → (x <= m)%Z.
Proof.
  destruct l as [| v l]; [done |]. intros _.
  destruct (foldl_Zmax_spec l v) as (Hin & Hle & Hall).
  exists (foldl Z.max v l). split; [reflexivity |]. split.
  - destruct Hin as [-> | Hin]; [by left | by right].
  - intros x [-> | Hx]%elem_of_cons; auto.
Qed.

Lemma np_max_nil : np_max [] = Raise ValueError.
Proof. reflexivity. Qed.

(** The first element of a filtered list, and what precedes it. *)
Lemma filter_first {A} (P : A → Prop) `{∀ x, Decision (P x)} (l : list A) (x : A) :
  x ∈ l → P x →
  ∃ pre y post,
    l = pre ++ y :: post ∧ P y ∧ (∀ z, z ∈ pre → ¬ P z)
    ∧ filter P l = y :: filter P post.
Proof.
  induction l as [| a l IH]; intros Hx HP; [by apply elem_of_nil in Hx |].
  destruct (decide (P a)) as [Ha | Ha].
  - exists [], a, l. split; [reflexivity |]. split; [exact Ha |].
    split; [intros z Hz; by apply elem_of_nil in Hz |].
    by rewrite filter_cons_True.
  - apply elem_of_cons in Hx as [-> | Hx]; [done |].
    destruct (IH Hx HP) as (pre & y & post & -> & Hy & Hpre & Hf).
    exists (a :: pre), y, post. split; [reflexivity |]. split; [exact Hy |].
    split.
    + intros z [-> | Hz]%elem_of_cons; auto.
    + by rewrite filter_cons_False.
Qed.

End MaskedMaximum.

(* --------------------------------------------------------------------- *)
(** ** isclose on finite values and on uint8 intensities *)
(* --------------------------------------------------------------------- *)

Section IsCloseFacts.
Local Open Scope R_scope.

Lemma isclose_Fin (x y rt at_ : R) :
  isclose (Fin x) (Fin y) (Fin rt) (Fin at_)
  = Rleb (Rabs (x - y)) (at_ + rt * Rabs y).
Proof. reflexivity. Qed.

Lemma is_uint8_IZR (v : Z) : is_uint8 v → 0 <= IZR v <= 255.
Proof. intros [H0 H1]. split; apply IZR_le; lia. Qed.

(** On uint8 intensities [np.isclose] with the default tolerances is
    equality: two different intensities differ by at least 1, the tolerance
    is below [1e-8 + 255e-5]. *)
Lemma isclose_uint8 (a m : Z) :
  is_uint8 a → is_uint8 m →
  isclose (of_Z a) (of_Z m) default_rtol default_atol = true ↔ a = m.
Proof.
  intros Ha Hm. unfold of_Z, default_rtol, default_atol.
  rewrite isclose_Fin, Rleb_spec.
  pose proof (is_uint8_IZR m Hm) as Hm'.
  rewrite (Rabs_right (IZR m)) by lra.
  split.
  - intros Hle. destruct (Z.eq_dec a m) as [-> | Hne]; [reflexivity |].
    exfalso.
    assert (Hd : (1 <= a - m)%Z ∨ (a - m <= -1)%Z) by lia.
    rewrite <- minus_IZR in Hle.
    destruct Hd as [Hd | Hd]; apply IZR_le in Hd.
    + rewrite Rabs_right in Hle by lra. lra.
    + rewrite Rabs_left in Hle by lra. lra.
  - intros ->. replace (IZR m - IZR m) with 0 by ring. rewrite Rabs_R0. lra.
Qed.

End IsCloseFacts.

(* --------------------------------------------------------------------- *)
(** ** find_max_on_boundary *)
(* --------------------------------------------------------------------- *)

Section MaxOnMask.
Variable array : GrayImage.
Hypothesis Hgray : gray_image array.

Let idxs : list (nat * nat) := row_major (fst (shape array)) (snd (shape array)).

Lemma pixel_uint8 (rc : nat * nat) : is_uint8 (pixel array rc).
Proof.
  unfold pixel.
  destruct (array !! fst rc) as [row |] eqn:Hrow; [| by unfold is_uint8].
  destruct (row !! snd rc) as [v |] eqn:Hv; [| by unfold is_uint8].
  unfold gray_image in Hgray. rewrite Forall_lookup in Hgray.
  specialize (Hgray _ _ Hrow). rewrite Forall_lookup in Hgray. eauto.
Qed.

Lemma masked_eq (mask : nat * nat → bool) :
  masked array mask = map (pixel array) (filter (fun rc => mask rc = true) idxs).
Proof. unfold masked, idxs. by destruct (shape array). Qed.

Lemma argwhere_max_eq (m : Z) (mask : nat * nat → bool) :
  argwhere_max array m mask
  = filter (fun rc =>
              isclose (of_Z (pixel array rc)) (of_Z m) default_rtol default_atol
              && mask rc = true) idxs.
Proof. unfold argwhere_max, idxs. by destruct (shape array). Qed.

(** An empty mask makes the search fail with [np.max]'s ValueError. *)
Lemma max_on_mask_empty (mask : nat * nat → bool) :
  masked array mask = [] → max_on_mask array mask = Raise ValueError.
Proof. intros H. unfold max_on_mask. by rewrite H. Qed.

Lemma max_on_mask_spec (mask : nat * nat → bool) :
  (∃ rc, rc ∈ idxs ∧ mask rc = true) →
  ∃ (m : Z) (row col : nat),
    max_on_mask array mask = Return (m, (col, row))
    ∧ (row, col) ∈ idxs ∧ mask (row, col) = true
    ∧ pixel array (row, col) = m
    ∧ (∀ rc, rc ∈ idxs → mask rc = true → (pixel array rc <= m)%Z)
    ∧ (∀ rc, rc ∈ idxs → mask rc = true → pixel array rc = m →
         rc = (row, col) ∨ scans_before (row, col) rc).
Proof.
  intros (rc0 & Hin0 & Hm0).
  assert (Hne : masked array mask ≠ []).
  { rewrite masked_eq. intros Hnil.
    assert (Hf : rc0 ∈ filter (fun rc => mask rc = true) idxs)
      by (apply list_elem_of_filter; auto).
    destruct (filter _ idxs); [by apply elem_of_nil in Hf | discriminate]. }
  destruct (np_max_spec _ Hne) as (m & Hmax & Hmem & Hall).
  (* a masked position attaining the maximum *)
  rewrite masked_eq in Hmem.
  apply list_elem_of_In, in_map_iff in Hmem as (rc1 & Hp1 & Hrc1).
  apply list_elem_of_In, list_elem_of_filter in Hrc1 as [Hmask1 Hin1].
  assert (Hm8 : is_uint8 m) by (rewrite <- Hp1; apply pixel_uint8).
  set (Q := fun rc : nat * nat =>
              isclose (of_Z (pixel array rc)) (of_Z m) default_rtol default_atol
              && mask rc = true).
  assert (HQ : ∀ rc, Q rc ↔ pixel array rc = m ∧ mask rc = true).
  { intros rc. unfold Q. rewrite andb_true_iff.
    by rewrite (isclose_uint8 _ _ (pixel_uint8 rc) Hm8). }
  destruct (filter_first Q idxs rc1 Hin1) as (pre & y & post & Hsplit & Hy & Hpre & Hf).
  { by apply HQ. }
  destruct y as [row col]. apply HQ in Hy as [Hpy Hmy].
  exists m, row, col. split; [| split; [| split; [| split; [| split]]]].
  - unfold max_on_mask. rewrite Hmax. cbn [mbind result_bind].
    rewrite argwhere_max_eq. fold Q. by rewrite Hf.
  - rewrite Hsplit. apply elem_of_app. right. by left.
  - exact Hmy.
  - exact Hpy.
  - intros rc Hin Hmask. apply Hall. rewrite masked_eq.
    apply list_elem_of_In, in_map_iff. exists rc. split; [reflexivity |].
    apply list_elem_of_In, list_elem_of_filter. auto.
  - intros rc Hin Hmask Hp.
    rewrite Hsplit in Hin.
    apply elem_of_app in Hin as [Hin | Hin].
    { exfalso. apply (Hpre rc Hin). by apply HQ. }
    apply elem_of_cons in Hin as [-> | Hin]; [by left |]. right.
    pose proof (row_major_sorted (fst (shape array)) (snd (shape array))) as Hs.
    fold idxs in Hs. rewrite Hsplit in Hs.
    apply StronglySorted_app_1_r, StronglySorted_cons in Hs as [Hs _].
    rewrite Forall_forall in Hs. by apply Hs.
Qed.

End MaxOnMask.


Section RingExamples.
Local Open Scope R_scope.

(** Distances along the row of the centre. *)
Lemma distances_row0 (cx : R) (c : nat) :
  distances (Fin cx, Fin 0) (0%nat, c) = Fin (Rabs (IZR (Z.of_nat c) - cx)).
Proof.
  unfold distances, of_nat, of_Z. cbn [fst snd]. fl_simp.
  change (IZR (Z.of_nat 0)) with 0.
  replace ((IZR (Z.of_nat c) - cx) * (IZR (Z.of_nat c) - cx) + (0 - 0) * (0 - 0))
    with (Rsqr (IZR (Z.of_nat c) - cx)) by (unfold Rsqr; ring).
  rewrite fl_sqrt_Fin by apply Rle_0_sqr.
  by rewrite sqrt_Rsqr_abs.
Qed.

Lemma boundary_mask_row0 (cx r rt at_ : R) (c : nat) :
  boundary_mask (Fin cx, Fin 0) (Fin r) (Fin rt) (Fin at_) (0%nat, c)
  = Rleb (Rabs (Rabs (IZR (Z.of_nat c) - cx) - r)) (at_ + rt * Rabs r).
Proof. unfold boundary_mask. by rewrite distances_row0, isclose_Fin. Qed.

End RingExamples.

(** Decides a comparison of concrete reals built from [Rabs]. *)
Ltac solve_Rleb :=
  first [ apply Rleb_true | apply Rleb_false | apply Rleb_spec ];
  repeat match goal with
         | |- context [Z.of_nat ?n] =>
             let z := eval vm_compute in (Z.of_nat n) in
             change (Z.of_nat n) with z
         end;
  unfold Rabs; repeat destruct Rcase_abs; lra.

Section FindMaxExample.
Local Open Scope R_scope.

Lemma tie_image_gray : gray_image tie_image.
Proof. repeat constructor; unfold is_uint8; lia. Qed.

Lemma tie_image_ring (c : nat) :
  boundary_mask (Fin 1, Fin 0) (Fin 1) (Fin (1 / 1000)) (Fin (1 / 1000000))
    (0%nat, c)
  = match c with
    | 0%nat | 2%nat => true
    | _ => false
    end.
Proof.
  rewrite boundary_mask_row0.
  destruct c as [| [| [| c]]]; try solve_Rleb.
  apply Rleb_false.
  assert (H : 3 <= IZR (Z.of_nat (S (S (S c))))) by (apply IZR_le; lia).
  unfold Rabs; repeat destruct Rcase_abs; lra.
Qed.


(** Evaluated: the leftmost of the two maxima is returned, as [(col, row)]. *)
Example find_max_on_boundary_tie :
  find_max_on_boundary tie_image (Fin 1, Fin 0) (Fin 1)
    (Fin (1 / 1000)) (Fin (1 / 1000000)) = Return (5%Z, (0%nat, 0%nat)).
Proof.
  unfold find_max_on_boundary, max_on_mask, masked, argwhere_max.
  cbn [tie_image shape length row_major seq foldr map app fst snd].
  rewrite filter_cons_True by apply (tie_image_ring 0).
  rewrite filter_cons_False by (rewrite (tie_image_ring 1); discriminate).
  rewrite filter_cons_True by apply (tie_image_ring 2).
  rewrite filter_nil. cbn [map pixel np_max foldl mbind result_bind].
  change (pixel tie_image (0%nat, 0%nat)) with 5%Z.
  change (pixel tie_image (0%nat, 2%nat)) with 5%Z.
  change (foldl Z.max 5%Z [5%Z]) with 5%Z. cbn [mbind result_bind].
  rewrite filter_cons_True; [reflexivity |].
  apply andb_true_iff. split; [| apply (tie_image_ring 0)].
  change (pixel tie_image (0%nat, 0%nat)) with 5%Z.
  apply isclose_uint8; unfold is_uint8; lia.
Qed.

End FindMaxExample.

(* --------------------------------------------------------------------- *)
(** ** The ring search of concentric_circle *)
(* --------------------------------------------------------------------- *)

Section RingSearch.
Variable array : GrayImage.
Variable orig_center : point.
Variables radii interior_scale rtol atol : fl.

Let loop := ring_loop array orig_center radii interior_scale rtol atol.
Let center_at := ring_center array orig_center radii interior_scale rtol atol.
Let next (center : point) (step : nat) :=
  find_next_center array orig_center center (fl_mul radii (of_nat step))
    interior_scale rtol atol.

Lemma ring_loop_halt (step : nat) (rest : list nat) (center : point)
    (pm : list point) (e : exn) :
  next center step = Raise e → loop (step :: rest) center pm = pm.
Proof. unfold next, loop. cbn [ring_loop]. by intros ->. Qed.

Lemma ring_loop_found (step : nat) (rest : list nat) (center : point)
    (pm : list point) (m : Z) (c : nat * nat) :
  next center step = Return (m, c) →
  loop (step :: rest) center pm
  = loop rest (as_point c) (<[step := as_point c]> pm).
Proof. unfold next, loop. cbn [ring_loop]. by intros ->. Qed.

(** An empty candidate set makes [find_next_center] raise. *)
Lemma find_next_center_empty (center : point) (step : nat) :
  search_subset array orig_center center (fl_mul radii (of_nat step))
    interior_scale rtol atol = [] →
  next center step = Raise ValueError.
Proof. intros H. unfold next, find_next_center. by apply max_on_mask_empty. Qed.

Lemma ring_center_SS (j : nat) :
  center_at (S (S j))
  = (center ← center_at (S j);
     '(_, c) ← next center (S (S j));
     mret (as_point c)).
Proof. reflexivity. Qed.

Lemma ring_center_S_inv (j : nat) (c : point) :
  1 ≤ j → center_at (S j) = Return c →
  ∃ cj m cc, center_at j = Return cj ∧ next cj (S j) = Return (m, cc)
             ∧ c = as_point cc.
Proof.
  intros Hj. destruct j as [| j]; [lia |].
  rewrite ring_center_SS.
  destruct (center_at (S j)) as [cj | e]; cbn [mbind result_bind];
    [| discriminate].
  destruct (next cj (S (S j))) as [[m cc] | e] eqn:Hn; cbn [mbind result_bind];
    [| discriminate].
  intros [= <-]. by exists cj, m, cc.
Qed.

Lemma ring_center_prefix (j n : nat) (c : point) :
  1 ≤ j → center_at (j + n) = Return c → ∃ cj, center_at j = Return cj.
Proof.
  intros Hj. revert c. induction n as [| n IH]; intros c Hc.
  - rewrite Nat.add_0_r in Hc. eauto.
  - replace (j + S n) with (S (j + n)) in Hc by lia.
    apply ring_center_S_inv in Hc as (cj & _ & _ & Hcj & _); [| lia]. eauto.
Qed.

(** Rings [j+1 .. j+n] are found: the loop walks through them, writing
    exactly their entries, and goes on with whatever steps remain. *)
Lemma ring_loop_reach (n : nat) :
  ∀ (j : nat) (cj c : point) (pm : list point),
    1 ≤ j → center_at j = Return cj → center_at (j + n) = Return c →
    j + n < length pm →
    ∃ pm' : list point,
      length pm' = length pm
      ∧ (∀ i, i ≤ j → pm' !! i = pm !! i)
      ∧ (∀ i, j < i ≤ j + n →
           ∃ ci, center_at i = Return ci ∧ pm' !! i = Some ci)
      ∧ ∀ rest tail,
          loop (seq (S j) n ++ rest) cj (pm ++ tail) = loop rest c (pm' ++ tail).
Proof.
  induction n as [| n IH]; intros j cj c pm Hj Hcj Hc Hlen.
  - rewrite Nat.add_0_r in Hc. assert (c = cj) as -> by congruence.
    exists pm. split; [done |]. split; [done |]. split; [intros i; lia | done].
  - destruct (ring_center_prefix (S j) n c) as [c' Hc'];
      [lia | by replace (S j + n) with (j + S n) by lia |].
    destruct (ring_center_S_inv j c' Hj Hc') as (cj' & m & cc & Hcj' & Hnext & ->).
    assert (cj' = cj) as -> by congruence.
    destruct (IH (S j) (as_point cc) c (<[S j := as_point cc]> pm))
      as (pm' & Hlen' & Hlow & Hmid & Hrun).
    { lia. } { exact Hc'. } { by replace (S j + n) with (j + S n) by lia. }
    { rewrite length_insert. lia. }
    exists pm'. split; [by rewrite Hlen', length_insert |]. split; [| split].
    + intros i Hi. rewrite Hlow by lia. apply list_lookup_insert_ne. lia.
    + intros i Hi. destruct (decide (i = S j)) as [-> | Hne].
      * exists (as_point cc). split; [exact Hc' |].
        rewrite Hlow by lia. apply list_lookup_insert_eq. lia.
      * apply Hmid. lia.
    + intros rest tail. cbn [seq app].
      rewrite (ring_loop_found _ _ _ _ _ _ Hnext).
      rewrite insert_app_l by lia. apply Hrun.
Qed.

End RingSearch.

Section RingSearchTheorem.
Variable array : GrayImage.
Variable orig_center : point.
Variables radii interior_scale rtol atol : fl.

Lemma ring_center_1_inv (c1 : point) :
  ring_center array orig_center radii interior_scale rtol atol 1 = Return c1 →
  ∃ m1 cc1, find_max_on_boundary array orig_center radii rtol atol
            = Return (m1, cc1) ∧ c1 = as_point cc1.
Proof.
  cbn [ring_center].
  destruct (find_max_on_boundary _ _ _ _ _) as [[m1 cc1] | e];
    cbn [mbind result_bind]; [| discriminate].
  intros [= <-]. by exists m1, cc1.
Qed.

Lemma ring_search_unfold (N : nat) (m1 : Z) (cc1 : nat * nat) :
  1 ≤ N →
  find_max_on_boundary array orig_center radii rtol atol = Return (m1, cc1) →
  ring_search array orig_center radii N interior_scale rtol atol
  = Return (ring_loop array orig_center radii interior_scale rtol atol
              (seq 2 (N - 1)) (as_point cc1)
              (<[1 := as_point cc1]>
                 (<[0 := orig_center]> (replicate (N + 1) unset)))).
Proof.
  intros HN Hmax. unfold ring_search, set_point.
  rewrite length_replicate.
  replace (0 <? N + 1)%nat with true by (symmetry; apply Nat.ltb_lt; lia).
  cbn [mbind result_bind]. rewrite Hmax. cbn [mbind result_bind].
  rewrite length_insert, length_replicate.
  replace (1 <? N + 1)%nat with true by (symmetry; apply Nat.ltb_lt; lia).
  reflexivity.
Qed.

(** If the search reaches ring [k ≥ 2] (rings 1..k-1 found, [c] being the
    centre accepted at ring k-1) and the candidate set of ring [k] is
    empty, the ring search block ends without raising; [points_mean] is
    then the array of a search with only k-1 rings, followed by rows that
    still hold their initial value: no row from ring [k] on is assigned. *)
Lemma ring_search_empty_ring (num_of_circs k : nat) (c : point) :
  2 ≤ k → k ≤ num_of_circs →
  ring_center array orig_center radii interior_scale rtol atol (k - 1)
    = Return c →
  search_subset array orig_center c (fl_mul radii (of_nat k))
    interior_scale rtol atol = [] →
  ∃ pm_prev : list point,
    ring_search array orig_center radii (k - 1) interior_scale rtol atol
      = Return pm_prev
    ∧ length pm_prev = k
    ∧ ring_search array orig_center radii num_of_circs interior_scale rtol atol
      = Return (pm_prev ++ replicate (num_of_circs + 1 - k) unset)
    ∧ (∀ j, j < k →
         ∃ cj, ring_center array orig_center radii interior_scale rtol atol j
               = Return cj
               ∧ pm_prev !! j = Some cj)
    ∧ (∀ j, k ≤ j → j ≤ num_of_circs →
         (pm_prev ++ replicate (num_of_circs + 1 - k) unset) !! j
         = Some unset).
Proof.
  intros Hk HN Hc Hempty.
  destruct (ring_center_prefix array orig_center radii interior_scale rtol atol
              1 (k - 2) c) as [c1 Hc1];
    [lia | by replace (1 + (k - 2)) with (k - 1) by lia |].
  destruct (ring_center_1_inv c1 Hc1) as (m1 & cc1 & Hmax & ->).
  set (pm0 := <[1 := as_point cc1]> (<[0 := orig_center]> (replicate k unset))).
  assert (Hlen0 : length pm0 = k)
    by (unfold pm0; by rewrite !length_insert, length_replicate).
  destruct (ring_loop_reach array orig_center radii interior_scale rtol atol
              (k - 2) 1 (as_point cc1) c pm0)
    as (pm' & Hlen' & Hlow & Hmid & Hrun).
  { lia. } { exact Hc1. } { by replace (1 + (k - 2)) with (k - 1) by lia. }
  { lia. }
  exists pm'.
  assert (Hprev : ring_search array orig_center radii (k - 1) interior_scale
                    rtol atol = Return pm').
  { rewrite (ring_search_unfold (k - 1) m1 cc1) by (lia || done).
    replace (k - 1 + 1) with k by lia. replace (k - 1 - 1) with (k - 2) by lia.
    fold pm0. f_equal.
    specialize (Hrun [] []). by rewrite !app_nil_r in Hrun. }
  split; [exact Hprev |]. split; [lia |]. split; [| split].
  - rewrite (ring_search_unfold num_of_circs m1 cc1) by (lia || done).
    f_equal.
    replace (replicate (num_of_circs + 1) unset)
      with (replicate k unset ++ replicate (num_of_circs + 1 - k) unset).
    2: { rewrite <- replicate_add. f_equal. lia. }
    rewrite !insert_app_l by (rewrite ?length_insert, length_replicate; lia).
    fold pm0.
    replace (seq 2 (num_of_circs - 1))
      with (seq 2 (k - 2) ++ k :: seq (S k) (num_of_circs - k)).
    2: { replace (num_of_circs - 1) with ((k - 2) + S (num_of_circs - k)) by lia.
         rewrite seq_app. cbn [seq]. by replace (2 + (k - 2)) with k by lia. }
    rewrite Hrun.
    apply (ring_loop_halt array orig_center radii interior_scale rtol atol
             k _ c _ ValueError).
    by apply find_next_center_empty.
  - intros j Hj. destruct (decide (j ≤ 1)) as [Hj1 | Hj1].
    + rewrite Hlow by lia. unfold pm0.
      destruct j as [| [| j]]; [| | lia].
      * exists orig_center. split; [reflexivity |].
        rewrite list_lookup_insert_ne by lia.
        apply list_lookup_insert_eq. rewrite length_replicate. lia.
      * exists (as_point cc1). split; [exact Hc1 |].
        apply list_lookup_insert_eq. rewrite length_insert, length_replicate. lia.
    + apply Hmid. lia.
  - intros j Hj HjN. rewrite lookup_app_r by lia.
    apply lookup_replicate. split; [reflexivity | lia].
Qed.

End RingSearchTheorem.

Section RingSearchExample.
Local Open Scope R_scope.

(** Ring 1 of [short_image] around column 0: only column 1 is on it. *)
Lemma short_image_ring1 (c : nat) :
  (c < 2)%nat →
  boundary_mask (Fin 0, Fin 0) (Fin 1) (Fin (1 / 100)) (Fin (1 / 1000000))
    (0%nat, c)
  = match c with 1%nat => true | _ => false end.
Proof.
  intros Hc. rewrite boundary_mask_row0.
  destruct c as [| [| c]]; [solve_Rleb | solve_Rleb | lia].
Qed.

(** Ring 2 lies outside the image. *)
Lemma short_image_ring2 (c : nat) (neig : point) :
  (c < 2)%nat →
  search_mask (Fin 0, Fin 0) neig (fl_mul (Fin 1) (of_nat 2)) (Fin (3 / 5))
    (Fin (1 / 100)) (Fin (1 / 1000000)) (0%nat, c) = false.
Proof.
  intros Hc. unfold search_mask, of_nat, of_Z. fl_simp.
  rewrite boundary_mask_row0.
  replace (Rleb _ _) with false; [reflexivity |].
  symmetry. destruct c as [| [| c]]; [solve_Rleb | solve_Rleb | lia].
Qed.

Lemma short_image_find_max :
  find_max_on_boundary short_image (Fin 0, Fin 0) (Fin 1)
    (Fin (1 / 100)) (Fin (1 / 1000000)) = Return (3%Z, (1%nat, 0%nat)).
Proof.
  unfold find_max_on_boundary, max_on_mask, masked, argwhere_max.
  cbn [short_image shape length row_major seq foldr map app fst snd].
  rewrite filter_cons_False by (rewrite (short_image_ring1 0); [discriminate | lia]).
  rewrite filter_cons_True by (apply (short_image_ring1 1); lia).
  rewrite filter_nil. cbn [map pixel np_max foldl mbind result_bind].
  change (pixel short_image (0%nat, 1%nat)) with 3%Z.
  cbn [foldl mbind result_bind].
  rewrite filter_cons_False.
  2: { rewrite (short_image_ring1 0) by lia. rewrite andb_false_r. discriminate. }
  rewrite filter_cons_True; [reflexivity |].
  apply andb_true_iff. split; [| apply (short_image_ring1 1); lia].
  change (pixel short_image (0%nat, 1%nat)) with 3%Z.
  apply isclose_uint8; unfold is_uint8; lia.
Qed.

Lemma short_image_ring_center_1 :
  ring_center short_image (Fin 0, Fin 0) (Fin 1) (Fin (3 / 5))
    (Fin (1 / 100)) (Fin (1 / 1000000)) 1 = Return (as_point (1%nat, 0%nat)).
Proof. cbn [ring_center]. by rewrite short_image_find_max. Qed.

Lemma short_image_ring2_empty (neig : point) :
  search_subset short_image (Fin 0, Fin 0) neig (fl_mul (Fin 1) (of_nat 2))
    (Fin (3 / 5)) (Fin (1 / 100)) (Fin (1 / 1000000)) = [].
Proof.
  unfold search_subset, masked.
  cbn [short_image shape length row_major seq foldr map app fst snd].
  rewrite !filter_cons_False by (rewrite short_image_ring2; [discriminate | lia]).
  reflexivity.
Qed.

(** Evaluated: origin, the ring-1 pixel [(col 1, row 0)], and an unset
    entry for ring 2. *)
Example ring_search_short_image :
  ring_search short_image (Fin 0, Fin 0) (Fin 1) 2 (Fin (3 / 5))
    (Fin (1 / 100)) (Fin (1 / 1000000))
  = Return [(Fin 0, Fin 0); as_point (1%nat, 0%nat); unset].
Proof.
  rewrite (ring_search_unfold _ _ _ _ _ _ 2 _ _ ltac:(lia) short_image_find_max).
  cbn [seq Nat.sub ring_loop].
  unfold find_next_center.
  rewrite max_on_mask_empty by apply short_image_ring2_empty.
  reflexivity.
Qed.

End RingSearchExample.

(* --------------------------------------------------------------------- *)
(** ** concentric_circle after an empty ring *)
(* --------------------------------------------------------------------- *)

Section ConcentricCircleEmptyRing.
Variables Img Contour : Type.
Variable find_contours :
  Img → point → bool → fl → result (GrayImage * list Contour * Img).
Variable gaussian_filter : list fl → fl → result (list fl).
Variable draw_mean_point : Img → point → result Img.
Variable np_polyfit : list fl → list fl → nat → result (list fl).
Variable variance_stage :
  cc_args → point → list Contour → Img → list point → list fl →
  result (Img * list fl * list fl).

Let fit := fit_mean_path Img Contour gaussian_filter draw_mean_point
             np_polyfit variance_stage.
Let run := concentric_circle Img Contour find_contours gaussian_filter
             draw_mean_point np_polyfit variance_stage.

(** The polynomial fit of the mean path runs over every row of the array
    it is handed: the x column as it is, the y column as it is or
    smoothed. *)
Lemma fit_mean_path_rows (args : cc_args) (orig_center : point)
    (contours : list Contour) (contour_img ci : Img)
    (points_mean : list point) (coef v1 v2 : list fl) :
  fit args orig_center contours contour_img points_mean
    = Return (ci, coef, v1, v2) →
  ∃ y : list fl,
    length y = length points_mean
    ∧ np_polyfit (map fst points_mean) y (poly_deg args) = Return coef
    ∧ (mean_smoothing args = false → y = map snd points_mean)
    ∧ (mean_smoothing args = true →
       gaussian_filter (map snd points_mean) (mean_smoothing_sigma args)
       = Return y).
Proof.
  unfold fit, fit_mean_path. intros H.
  apply bind_Return_inv in H as (pm & Hpm & H).
  apply bind_Return_inv in H as (ci' & _ & H).
  apply bind_Return_inv in H as (coef' & Hfit & H).
  apply bind_Return_inv in H as ([[ci'' v1'] v2'] & _ & H).
  injection H as _ <- _ _.
  destruct (mean_smoothing args).
  - apply bind_Return_inv in Hpm as (y & Hy & Hst).
    unfold np_column_stack in Hst. rewrite length_map in Hst.
    match type of Hst with
    | (if ?b then _ else _) = _ => destruct b eqn:E; [| discriminate]
    end.
    apply Nat.eqb_eq in E. injection Hst as <-.
    assert (Hx : (zip (map fst points_mean) y).*1 = map fst points_mean).
    { apply fst_zip. rewrite length_map. apply Nat.eq_le_incl. exact E. }
    assert (Hys : (zip (map fst points_mean) y).*2 = y).
    { apply snd_zip. rewrite length_map. apply Nat.eq_le_incl. symmetry.
      exact E. }
    change (map fst (zip (map fst points_mean) y))
      with ((zip (map fst points_mean) y).*1) in Hfit.
    change (map snd (zip (map fst points_mean) y))
      with ((zip (map fst points_mean) y).*2) in Hfit.
    rewrite Hx, Hys in Hfit.
    exists y. split; [symmetry; exact E |]. split; [exact Hfit |].
    split; [discriminate | done].
  - injection Hpm as <-. exists (map snd points_mean).
    split; [by rewrite length_map |]. split; [exact Hfit |].
    split; [done | discriminate].
Qed.

(** C7. If the ring search reaches ring [k ≥ 2] (rings 1..k-1
    found, [c] the centre accepted at ring k-1) and the candidate set of
    ring [k] is empty, the loop stops there without raising: [points_mean]
    keeps its [num_of_circs+1] rows, rows [0..k-1] hold the accepted
    centres, and rows [k..num_of_circs] keep their initial [(0, 0)] — no
    later ring entry is assigned.  [concentric_circle] then goes on with
    this whole array: whatever it returns or raises comes from the stages
    after the search, and when it returns, its result is the image and the
    three coefficient vectors, the first being the fit over all
    [num_of_circs+1] rows; the mean path itself is not returned. *)
Theorem concentric_circle_empty_ring (args : cc_args) (img : Img)
    (orig_center : point) (img_gray : GrayImage) (contours : list Contour)
    (contour_img : Img) (k : nat) (c : point) :
  2 ≤ k → k ≤ num_of_circs args →
  find_contours img orig_center (contour_smoothing args)
    (contour_smoothing_eps args) = Return (img_gray, contours, contour_img) →
  ring_center img_gray orig_center (radii args) (interior_scale args)
    (rtol args) (atol args) (k - 1) = Return c →
  search_subset img_gray orig_center c (fl_mul (radii args) (of_nat k))
    (interior_scale args) (rtol args) (atol args) = [] →
  ∃ points_mean : list point,
    ring_search img_gray orig_center (radii args) (num_of_circs args)
      (interior_scale args) (rtol args) (atol args) = Return points_mean
    ∧ length points_mean = num_of_circs args + 1
    ∧ (∀ j, j < k →
         ∃ cj, ring_center img_gray orig_center (radii args)
                 (interior_scale args) (rtol args) (atol args) j = Return cj
               ∧ points_mean !! j = Some cj)
    ∧ (∀ j, k ≤ j → j ≤ num_of_circs args → points_mean !! j = Some unset)
    ∧ run (Some orig_center) img args
      = fit args orig_center contours contour_img points_mean
    ∧ ∀ (ci : Img) (coef v1 v2 : list fl),
        run (Some orig_center) img args = Return (ci, coef, v1, v2) →
        ∃ y : list fl,
          length y = num_of_circs args + 1
          ∧ np_polyfit (map fst points_mean) y (poly_deg args) = Return coef
          ∧ (mean_smoothing args = false → y = map snd points_mean)
          ∧ (mean_smoothing args = true →
             gaussian_filter (map snd points_mean) (mean_smoothing_sigma args)
             = Return y).
Proof.
  intros Hk HN Hprep Hc Hempty.
  destruct (ring_search_empty_ring img_gray orig_center (radii args)
              (interior_scale args) (rtol args) (atol args)
              (num_of_circs args) k c Hk HN Hc Hempty)
    as (pm_prev & _ & Hlen & Hsearch & Hlow & Hhigh).
  set (points_mean := pm_prev ++ replicate (num_of_circs args + 1 - k) unset)
    in *.
  assert (Hlen' : length points_mean = num_of_circs args + 1).
  { unfold points_mean. rewrite length_app, length_replicate. lia. }
  assert (Hrun : run (Some orig_center) img args
                 = fit args orig_center contours contour_img points_mean).
  { unfold run, concentric_circle. rewrite Hprep. cbn [mbind result_bind].
    rewrite Hsearch. reflexivity. }
  exists points_mean. split; [exact Hsearch |]. split; [exact Hlen' |].
  split; [| split; [exact Hhigh |]].
  - intros j Hj. destruct (Hlow j Hj) as (cj & Hcj & Hpm). exists cj.
    split; [exact Hcj |]. unfold points_mean.
    rewrite lookup_app_l by lia. exact Hpm.
  - split; [exact Hrun |]. intros ci coef v1 v2 Hret. rewrite Hrun in Hret.
    destruct (fit_mean_path_rows args orig_center contours contour_img ci
                points_mean coef v1 v2 Hret) as (y & Hy & Hfit & Hoff & Hon).
    exists y. split; [lia |]. by repeat split.
Qed.

End ConcentricCircleEmptyRing.

Section ConcentricCircleExample.

Lemma short_image_empty_ring_2 :
  search_subset short_image (Fin 0, Fin 0) (as_point (1%nat, 0%nat))
    (fl_mul (radii two_rings) (of_nat 2)) (interior_scale two_rings)
    (rtol two_rings) (atol two_rings) = [].
Proof. apply short_image_ring2_empty. Qed.

(** On the two-pixel image ring 1 is found and ring 2 is empty; the path
    keeps three rows, the last one unset. *)
Lemma concentric_circle_empty_ring_witness :
  ∃ points_mean : list point,
    ring_search short_image (Fin 0, Fin 0) (radii two_rings)
      (num_of_circs two_rings) (interior_scale two_rings) (rtol two_rings)
      (atol two_rings) = Return points_mean
    ∧ length points_mean = (num_of_circs two_rings + 1)%nat
    ∧ (∀ j, (j < 2)%nat →
         ∃ cj, ring_center short_image (Fin 0, Fin 0) (radii two_rings)
                 (interior_scale two_rings) (rtol two_rings) (atol two_rings) j
               = Return cj
               ∧ points_mean !! j = Some cj)
    ∧ (∀ j, (2 ≤ j)%nat → (j ≤ num_of_circs two_rings)%nat →
         points_mean !! j = Some unset)
    ∧ concentric_circle GrayImage unit blank_contours identity_filter no_drawing
        echo_polyfit no_variance (Some (Fin 0, Fin 0)) short_image two_rings
      = fit_mean_path GrayImage unit identity_filter no_drawing echo_polyfit
          no_variance two_rings (Fin 0, Fin 0) [] short_image points_mean
    ∧ ∀ (ci : GrayImage) (coef v1 v2 : list fl),
        concentric_circle GrayImage unit blank_contours identity_filter no_drawing
          echo_polyfit no_variance (Some (Fin 0, Fin 0)) short_image two_rings
        = Return (ci, coef, v1, v2) →
        ∃ y : list fl,
          length y = (num_of_circs two_rings + 1)%nat
          ∧ echo_polyfit (map fst points_mean) y (poly_deg two_rings)
            = Return coef
          ∧ (mean_smoothing two_rings = false → y = map snd points_mean)
          ∧ (mean_smoothing two_rings = true →
             identity_filter (map snd points_mean)
               (mean_smoothing_sigma two_rings) = Return y).
Proof.
  apply (concentric_circle_empty_ring GrayImage unit blank_contours identity_filter
           no_drawing echo_polyfit no_variance two_rings short_image
           (Fin 0, Fin 0) short_image [] short_image 2
           (as_point (1%nat, 0%nat))).
  - lia.
  - cbn. lia.
  - reflexivity.
  - exact short_image_ring_center_1.
  - exact short_image_empty_ring_2.
Defined.

(** The same run, evaluated with the stand-ins: the method returns the
    image, the fit of all three rows — the echo shows the x column
    [0, 1, 0] and the y column [0, 0, 0] it was handed, the unset row
    included — and the two variance fits.  The mean path is not what it
    returns. *)
Lemma concentric_circle_returns_fit :
  search_subset short_image (Fin 0, Fin 0) (as_point (1%nat, 0%nat))
    (fl_mul (radii two_rings) (of_nat 2)) (interior_scale two_rings)
    (rtol two_rings) (atol two_rings) = []
  ∧ ring_search short_image (Fin 0, Fin 0) (radii two_rings)
      (num_of_circs two_rings) (interior_scale two_rings) (rtol two_rings)
      (atol two_rings)
    = Return [(Fin 0, Fin 0); as_point (1%nat, 0%nat); unset]
  ∧ concentric_circle GrayImage unit blank_contours identity_filter no_drawing
      echo_polyfit no_variance (Some (Fin 0, Fin 0)) short_image two_rings
    = Return (short_image,
              [Fin 0; of_nat 1; Fin 0; Fin 0; of_nat 0; Fin 0], [], []).
Proof.
  split; [exact short_image_empty_ring_2 |].
  split; [exact ring_search_short_image |].
  unfold concentric_circle, blank_contours. cbn [mbind result_bind].
  change (ring_search short_image (Fin 0, Fin 0) (radii two_rings)
            (num_of_circs two_rings) (interior_scale two_rings)
            (rtol two_rings) (atol two_rings))
    with (ring_search short_image (Fin 0, Fin 0) (Fin 1) 2 (Fin (3 / 5))
            (Fin (1 / 100)) (Fin (1 / 1000000))).
  rewrite ring_search_short_image. reflexivity.
Qed.

End ConcentricCircleExample.

(* --------------------------------------------------------------------- *)
(** ** flatten_edge_points *)
(* --------------------------------------------------------------------- *)

Section FlattenFacts.

(** Boolean-mask selection is filtering: [a[np.where(map p a)]] keeps the
    rows satisfying [p], in order. *)
Lemma take_rows_np_where {A} (p : A → bool) (pre l : list A) :
  omap (fun i => (pre ++ l) !! i)
    (filter (fun i => map p (pre ++ l) !! i = Some true)
       (seq (length pre) (length l)))
  = List.filter p l.
Proof.
  revert pre. induction l as [| a l IH]; intros pre; [reflexivity |].
  cbn [length seq List.filter].
  assert (Ha : (pre ++ a :: l) !! length pre = Some a)
    by (rewrite lookup_app_r by lia; by rewrite Nat.sub_diag).
  assert (Hp : map p (pre ++ a :: l) !! length pre = Some (p a)).
  { rewrite map_app, lookup_app_r by (rewrite length_map; lia).
    by rewrite length_map, Nat.sub_diag. }
  specialize (IH (pre ++ [a])).
  rewrite <- app_assoc, length_app in IH. cbn [app length] in IH.
  replace (length pre + 1) with (S (length pre)) in IH by lia.
  destruct (p a) eqn:Hpa.
  - rewrite filter_cons_True by exact Hp. cbn [omap list_omap]. rewrite Ha. by rewrite IH.
  - rewrite filter_cons_False by (rewrite Hp; discriminate). exact IH.
Qed.

Lemma take_rows_radius_mask (curve_1_pts : PlumePoints) (r : fl) :
  take_rows curve_1_pts (radius_mask curve_1_pts r)
  = List.filter (fun '(r1, _, _) => isclose r1 r default_rtol default_atol)
      curve_1_pts.
Proof.
  unfold take_rows, radius_mask, np_where. rewrite length_map.
  apply (take_rows_np_where _ [] curve_1_pts).
Qed.

Lemma filter_head_find {A} (p : A → bool) (l : list A) :
  match List.filter p l with [] => None | x :: _ => Some x end = List.find p l.
Proof.
  induction l as [| a l IH]; [reflexivity |]. cbn. by destruct (p a).
Qed.

Lemma create_radius_pairs_acc (curve_1_pts curve_2_pts : PlumePoints)
    (acc : list (fl * point * point)) :
  foldl (fun pairs '(r, x, y) =>
           let mask := radius_mask curve_1_pts r in
           match take_rows curve_1_pts mask with
           | [] => pairs
           | (_, cx, cy) :: _ => pairs ++ [(r, (cx, cy), (x, y))]
           end)
        acc curve_2_pts
  = acc ++ omap (fun '(r, x, y) =>
                   match first_mean_point curve_1_pts r with
                   | Some c => Some (r, c, (x, y))
                   | None => None
                   end)
                curve_2_pts.
Proof.
  revert acc. induction curve_2_pts as [| [[r x] y] rest IH]; intros acc.
  - cbn. by rewrite app_nil_r.
  - cbn [foldl omap list_omap]. rewrite IH. cbv zeta.
    rewrite take_rows_radius_mask. unfold first_mean_point.
    rewrite <- filter_head_find.
    destruct (List.filter _ curve_1_pts) as [| [[r1 cx] cy] l].
    + reflexivity.
    + by rewrite <- app_assoc.
Qed.

Lemma flatten_acc (pairs : list (fl * point * point)) (acc : list (fl * fl)) :
  foldl (fun rad_dist '(radius, center_points, edge_points) =>
           let dist := norm_diff center_points edge_points in
           rad_dist ++ [(radius, dist)])
        acc pairs
  = acc ++ map (fun '(radius, c, e) => (radius, norm_diff c e)) pairs.
Proof.
  revert acc. induction pairs as [| [[r c] e] rest IH]; intros acc.
  - cbn. by rewrite app_nil_r.
  - cbn [foldl map]. rewrite IH. by rewrite <- app_assoc.
Qed.

(** The code computes what the words say. *)
Lemma flatten_edge_points_rows (mean_points vari_points : PlumePoints) :
  flatten_edge_points mean_points vari_points
  = flatten_rows mean_points vari_points.
Proof.
  unfold flatten_edge_points, _create_radius_pairs, flatten_rows.
  rewrite create_radius_pairs_acc, flatten_acc. cbn [app].
  induction vari_points as [| [[r x] y] rest IH]; [reflexivity |].
  cbn [omap list_omap]. destruct (first_mean_point mean_points r) as [c |]; cbn [map];
    by rewrite IH.
Qed.

Lemma norm_diff_Fin (cx cy x y : R) :
  norm_diff (Fin cx, Fin cy) (Fin x, Fin y) = Fin (euclid_dist (cx, cy) (x, y)).
Proof.
  unfold norm_diff, np_sum, euclid_dist. cbn [foldl fst snd]. fl_simp.
  rewrite fl_sqrt_Fin.
  - do 2 f_equal. ring.
  - pose proof (Rle_0_sqr (cx - x)). pose proof (Rle_0_sqr (cy - y)).
    unfold Rsqr in *. lra.
Qed.

(** [first_mean_point] is the first match in array order ... *)
Lemma first_mean_point_Some (mean_points : PlumePoints) (r : fl) (c : point) :
  first_mean_point mean_points r = Some c
  ↔ ∃ i r1,
      mean_points !! i = Some (r1, fst c, snd c)
      ∧ isclose r1 r default_rtol default_atol = true
      ∧ ∀ j r' x' y', j < i → mean_points !! j = Some (r', x', y') →
          isclose r' r default_rtol default_atol = false.
Proof.
  unfold first_mean_point. revert c.
  induction mean_points as [| [[r0 x0] y0] l IH]; intros c; cbn [List.find].
  - split; [discriminate |]. intros (i & r1 & Hi & _). by destruct i.
  - destruct (isclose r0 r default_rtol default_atol) eqn:Hc.
    + split.
      * intros [= <-]. exists 0, r0. split; [reflexivity |]. split; [exact Hc |].
        intros j ? ? ? Hj. lia.
      * intros (i & r1 & Hi & Hr1 & Hfirst). destruct i as [| i].
        -- destruct c as [a b]. cbn in Hi. by injection Hi as _ -> ->.
        -- specialize (Hfirst 0 r0 x0 y0 ltac:(lia) eq_refl). congruence.
    + rewrite IH. split.
      * intros (i & r1 & Hi & Hr1 & Hfirst). exists (S i), r1.
        split; [exact Hi |]. split; [exact Hr1 |].
        intros [| j] r' x' y' Hj Hl; cbn in Hl.
        -- by injection Hl as <- _ _.
        -- apply (Hfirst j r' x' y'); [lia | exact Hl].
      * intros (i & r1 & Hi & Hr1 & Hfirst). destruct i as [| i].
        -- cbn in Hi. injection Hi as -> _ _. congruence.
        -- exists i, r1. split; [exact Hi |]. split; [exact Hr1 |].
           intros j r' x' y' Hj Hl. apply (Hfirst (S j) r' x' y'); [lia | exact Hl].
Qed.

(** ... and there is none exactly when no mean radius is close to [r]. *)
Lemma first_mean_point_None (mean_points : PlumePoints) (r : fl) :
  first_mean_point mean_points r = None
  ↔ ∀ r1 x1 y1, (r1, x1, y1) ∈ mean_points →
      isclose r1 r default_rtol default_atol = false.
Proof.
  unfold first_mean_point.
  induction mean_points as [| [[r0 x0] y0] l IH]; cbn [List.find].
  - split; [| done]. intros _ ? ? ? H. by apply elem_of_nil in H.
  - destruct (isclose r0 r default_rtol default_atol) eqn:Hc.
    + split; [discriminate |]. intros H.
      specialize (H r0 x0 y0 ltac:(left)). congruence.
    + rewrite IH. split.
      * intros H r1 x1 y1 [[= -> -> ->] | Hin]%elem_of_cons; eauto.
      * intros H r1 x1 y1 Hin. apply (H r1 x1 y1). by right.
Qed.

End FlattenFacts.

(** C10. [flatten_edge_points] returns one [(radius, distance)] row per
    edge point whose radius is close ([np.isclose]) to the radius of some
    mean point, in the order of the edge points; the distance is the
    Euclidean distance from the edge point to the first mean point, in array
    order, with a close radius; an edge point whose radius is close to no
    mean radius gives no row. *)
Theorem flatten_edge_points_first_match (mean_points vari_points : PlumePoints) :
  flatten_edge_points mean_points vari_points
    = omap (fun '(r, x, y) =>
              match first_mean_point mean_points r with
              | Some c => Some (r, norm_diff c (x, y))
              | None => None
              end)
           vari_points
  ∧ (∀ r c,
       first_mean_point mean_points r = Some c
       ↔ ∃ i r1,
           mean_points !! i = Some (r1, fst c, snd c)
           ∧ isclose r1 r default_rtol default_atol = true
           ∧ ∀ j r' x' y', j < i → mean_points !! j = Some (r', x', y') →
               isclose r' r default_rtol default_atol = false)
  ∧ (∀ r,
       first_mean_point mean_points r = None
       ↔ ∀ r1 x1 y1, (r1, x1, y1) ∈ mean_points →
           isclose r1 r default_rtol default_atol = false)
  ∧ (∀ cx cy x y : R,
       norm_diff (Fin cx, Fin cy) (Fin x, Fin y)
       = Fin (euclid_dist (cx, cy) (x, y))).
Proof.
  split; [apply flatten_edge_points_rows |].
  split; [apply first_mean_point_Some |].
  split; [apply first_mean_point_None | apply norm_diff_Fin].
Qed.

Section FlattenExample.
Local Open Scope R_scope.

Lemma isclose_default_Fin (x y : R) :
  isclose (Fin x) (Fin y) default_rtol default_atol
  = Rleb (Rabs (x - y)) (1 / 100000000 + 1 / 100000 * Rabs y).
Proof. reflexivity. Qed.

(** The edge point at radius 1 is paired with the first of the two mean
    points at radius 1; the edge point at radius 5 has no partner and is
    dropped. *)
Example flatten_edge_points_example :
  flatten_edge_points example_mean example_edge = [(Fin 1, Fin 4)].
Proof.
  rewrite flatten_edge_points_rows.
  unfold flatten_rows, example_edge, example_mean, first_mean_point.
  cbn [omap list_omap List.find].
  rewrite !isclose_default_Fin.
  replace (Rleb (Rabs (0 - 1)) _) with false by (symmetry; solve_Rleb).
  replace (Rleb (Rabs (1 - 1)) _) with true by (symmetry; solve_Rleb).
  replace (Rleb (Rabs (0 - 5)) _) with false by (symmetry; solve_Rleb).
  replace (Rleb (Rabs (1 - 5)) _) with false by (symmetry; solve_Rleb).
  rewrite norm_diff_Fin. do 3 f_equal.
  apply euclid_dist_of_sq; cbn [fst snd]; lra.
Qed.

End FlattenExample.

(* --------------------------------------------------------------------- *)
(** ** regress_multiframe_mean: other exceptions, warnings, zero offset *)
(* --------------------------------------------------------------------- *)

Section BatchMore.
Variable regress_frame_mean :
  PlumePoints → string → nat → string → PlumePoints * result (list fl).
Variable h : store.
Variables (method : string) (deg : nat) (dir : string).
Variable decenter : option (fl * fl).

Let fit := frame_fit regress_frame_mean method deg dir decenter.
Let loop := regress_frames_loop regress_frame_mean method deg dir decenter.

Lemma regress_frames_loop_app (l1 l2 : list (Z * loc)) :
  ∀ (i : nat) (st : batch_state),
    loop i (l1 ++ l2) st
    = match loop i l1 st with
      | (st', Return _) => loop (i + length l1) l2 st'
      | (st', Raise e) => (st', Raise e)
      end.
Proof.
  unfold loop.
  induction l1 as [| [frame ref] l1 IH]; intros i st; cbn [app regress_frames_loop length].
  - by rewrite Nat.add_0_r.
  - destruct (regress_frame_step _ method deg dir decenter i ref st)
      as [st' [[] | e]]; [| reflexivity].
    rewrite IH. by replace (i + S (length l1)) with (S i + length l1) by lia.
Qed.

(** A frame whose fit raises anything but the linear-algebra error stops
    the loop with that exception. *)
Lemma regress_frames_loop_raise (frame : Z) (ref : loc) (post : list (Z * loc))
    (i : nat) (st : batch_state) (arr : PlumePoints) (e : exn) :
  h ⊆ st_store st → h !! ref = Some arr →
  fit arr = Raise e → e ≠ LinAlgError →
  snd (loop i ((frame, ref) :: post) st) = Raise e
  ∧ st_warnings (fst (loop i ((frame, ref) :: post) st)) = st_warnings st.
Proof.
  intros Hsub Harr Hfit He. unfold loop. cbn [regress_frames_loop].
  assert (Hst : st_store st !! ref = Some arr) by (eapply lookup_weaken; eauto).
  destruct (regress_frame_step_spec regress_frame_mean method deg dir decenter
              i ref st arr Hst) as (h1 & _ & ->).
  fold fit. rewrite Hfit. by destruct e.
Qed.

Lemma regress_frames_loop_warnings (rest : list (Z * loc)) :
  ∀ (i : nat) (st : batch_state),
    h ⊆ st_store st →
    i + length rest ≤ length (st_series st) →
    fits_or_linalg regress_frame_mean h method deg dir decenter rest →
    st_warnings (fst (loop i rest st))
    = st_warnings st
      ++ map InsufficientTrainingPoints
           (failing_frames regress_frame_mean h method deg dir decenter i rest).
Proof.
  unfold loop.
  induction rest as [| [frame ref] rest IH]; intros i st Hsub Hlen Hfit;
    cbn [regress_frames_loop failing_frames].
  - cbn. by rewrite app_nil_r.
  - cbn [length] in Hlen.
    destruct (Hfit frame ref) as (arr & Harr & Hcase); [left |].
    assert (Hst : st_store st !! ref = Some arr) by (eapply lookup_weaken; eauto).
    destruct (regress_frame_step_spec regress_frame_mean method deg dir decenter
                i ref st arr Hst) as (h1 & Hsub1 & ->).
    assert (Hrest : fits_or_linalg regress_frame_mean h method deg dir decenter rest).
    { intros f r Hin. apply (Hfit f r). by right. }
    assert (Hh1 : h ⊆ h1) by (etrans; eauto).
    unfold frame_fails. rewrite Harr.
    destruct Hcase as [-> | (coef & -> & Hc)].
    + rewrite IH; cbn [st_store st_warnings st_series];
        [| done | rewrite length_insert; lia | done].
      cbn [map]. by rewrite <- app_assoc.
    + unfold assign_row. rewrite Hc, Nat.eqb_refl.
      rewrite IH; cbn [st_store st_warnings st_series];
        [| done | rewrite length_insert; lia | done].
      reflexivity.
Qed.

Lemma failing_frames_bounds (rest : list (Z * loc)) :
  ∀ i k, k ∈ failing_frames regress_frame_mean h method deg dir decenter i rest →
    i ≤ k < i + length rest.
Proof.
  induction rest as [| [frame ref] rest IH]; intros i k; cbn [failing_frames length].
  - intros H. by apply elem_of_nil in H.
  - destruct (frame_fails _ _ _ _ _ _ _).
    + intros [-> | Hk%IH]%elem_of_cons; lia.
    + intros Hk%IH. lia.
Qed.

Lemma failing_frames_sorted (rest : list (Z * loc)) :
  ∀ i, StronglySorted lt
         (failing_frames regress_frame_mean h method deg dir decenter i rest).
Proof.
  induction rest as [| [frame ref] rest IH]; intros i; cbn [failing_frames].
  - constructor.
  - destruct (frame_fails _ _ _ _ _ _ _); [| apply IH].
    constructor; [apply IH |].
    apply Forall_forall. intros k Hk%failing_frames_bounds. lia.
Qed.

Lemma elem_of_failing_frames (rest : list (Z * loc)) :
  ∀ i k, k ∈ failing_frames regress_frame_mean h method deg dir decenter i rest
    ↔ ∃ j frame ref,
        k = i + j ∧ rest !! j = Some (frame, ref)
        ∧ frame_fails regress_frame_mean h method deg dir decenter ref = true.
Proof.
  induction rest as [| [frame ref] rest IH]; intros i k; cbn [failing_frames].
  - split; [intros H; by apply elem_of_nil in H |].
    intros (j & ? & ? & _ & Hj & _). by destruct j.
  - assert (Hlater :
      k ∈ failing_frames regress_frame_mean h method deg dir decenter (S i) rest
      ↔ ∃ j frame' ref',
          k = i + S j ∧ rest !! j = Some (frame', ref')
          ∧ frame_fails regress_frame_mean h method deg dir decenter ref' = true).
    { rewrite IH. split; intros (j & f & r & -> & Hj & Hf);
        exists j, f, r; (split; [lia | done]). }
    destruct (frame_fails regress_frame_mean h method deg dir decenter ref) eqn:Hf.
    + rewrite elem_of_cons, Hlater. split.
      * intros [-> | (j & f & r & -> & Hj & Hfr)].
        -- exists 0, frame, ref. split; [lia | done].
        -- exists (S j), f, r. done.
      * intros (j & f & r & -> & Hj & Hfr). destruct j as [| j].
        -- left. lia.
        -- right. exists j, f, r. done.
    + rewrite Hlater. split.
      * intros (j & f & r & -> & Hj & Hfr). exists (S j), f, r. done.
      * intros (j & f & r & -> & Hj & Hfr). destruct j as [| j].
        -- cbn in Hj. injection Hj as <- <-. congruence.
        -- exists j, f, r. done.
Qed.

End BatchMore.

Section BatchMoreTheorems.
Variable regress_frame_mean :
  PlumePoints → string → nat → string → PlumePoints * result (list fl).

Lemma frame_fails_true (h : store) (method : string) (deg : nat) (dir : string)
    (decenter : option (fl * fl)) (ref : loc) :
  frame_fails regress_frame_mean h method deg dir decenter ref = true
  ↔ ∃ arr, h !! ref = Some arr
           ∧ frame_fit regress_frame_mean method deg dir decenter arr
             = Raise LinAlgError.
Proof.
  unfold frame_fails. destruct (h !! ref) as [arr |].
  - destruct (frame_fit _ _ _ _ _ arr) as [coef | []] eqn:Hfit; split;
      try discriminate; try (intros (? & [= <-] & ?); congruence).
    intros _. by exists arr.
  - split; [discriminate | by intros (? & ? & _)].
Qed.

(** X7. A frame whose fit raises an exception other than the
    linear-algebra error is not isolated: when every frame before it
    either fits or fails with the linear-algebra error, the whole call
    raises that frame's exception, no coefficient array is returned, and
    the warnings emitted so far are those of the earlier failing frames
    only. *)
Theorem regress_multiframe_mean_propagates_other_errors
    (h : store) (pre : list (Z * loc)) (frame : Z) (ref : loc)
    (post : list (Z * loc)) (method : string) (deg : nat) (dir : string)
    (decenter : option (fl * fl)) (arr : PlumePoints) (e : exn) :
  fits_or_linalg regress_frame_mean h method deg dir decenter pre →
  h !! ref = Some arr →
  frame_fit regress_frame_mean method deg dir decenter arr = Raise e →
  e ≠ LinAlgError →
  snd (regress_multiframe_mean regress_frame_mean h
         (pre ++ (frame, ref) :: post) method deg dir decenter) = Raise e
  ∧ snd (fst (regress_multiframe_mean regress_frame_mean h
                (pre ++ (frame, ref) :: post) method deg dir decenter))
    = map InsufficientTrainingPoints
        (failing_frames regress_frame_mean h method deg dir decenter 0 pre).
Proof.
  intros Hpre Harr Hfit He. unfold regress_multiframe_mean.
  set (st0 := {| st_store := h; st_warnings := []; st_series := _ |}).
  rewrite regress_frames_loop_app.
  assert (Hlen : 0 + length pre ≤ length (st_series st0)).
  { unfold st0. cbn [st_series]. rewrite length_replicate, length_app. lia. }
  pose proof (regress_frames_loop_warnings regress_frame_mean h method deg dir
                decenter pre 0 st0 (reflexivity h) Hlen Hpre) as Hw.
  destruct (regress_frames_loop_isolates regress_frame_mean h method deg dir
              decenter pre 0 st0 (reflexivity h) Hlen Hpre)
    as (st' & Hloop & Hsub & _).
  rewrite Hloop in Hw |- *. cbn [fst] in Hw.
  destruct (regress_frames_loop_raise regress_frame_mean h method deg dir decenter
              frame ref post (0 + length pre) st' arr e Hsub Harr Hfit He)
    as [Hr Hws].
  destruct (regress_frames_loop regress_frame_mean method deg dir decenter
              (0 + length pre) ((frame, ref) :: post) st') as [st'' [[] | e']];
    cbn [fst snd] in *; [discriminate |].
  injection Hr as ->. split; [done |]. by rewrite Hws, Hw.
Qed.

(** X8. When every frame either fits or fails with the linear-algebra
    error, the warnings emitted are exactly the positions of the failing
    frames: one warning per failing frame, none for any other frame, in
    increasing frame order. *)
Theorem regress_multiframe_mean_warnings
    (h : store) (mean_points : list (Z * loc)) (method : string) (deg : nat)
    (dir : string) (decenter : option (fl * fl)) :
  fits_or_linalg regress_frame_mean h method deg dir decenter mean_points →
  ∃ ks : list nat,
    snd (fst (regress_multiframe_mean regress_frame_mean h mean_points
                method deg dir decenter))
    = map InsufficientTrainingPoints ks
    ∧ StronglySorted lt ks
    ∧ ∀ k, k ∈ ks
        ↔ ∃ frame ref arr,
            mean_points !! k = Some (frame, ref) ∧ h !! ref = Some arr
            ∧ frame_fit regress_frame_mean method deg dir decenter arr
              = Raise LinAlgError.
Proof.
  intros Hfit.
  exists (failing_frames regress_frame_mean h method deg dir decenter 0 mean_points).
  split; [| split].
  - unfold regress_multiframe_mean.
    set (st0 := {| st_store := h; st_warnings := []; st_series := _ |}).
    assert (Hlen : 0 + length mean_points ≤ length (st_series st0)).
    { unfold st0. cbn [st_series]. rewrite length_replicate. lia. }
    pose proof (regress_frames_loop_warnings regress_frame_mean h method deg dir
                  decenter mean_points 0 st0 (reflexivity h) Hlen Hfit) as Hw.
    destruct (regress_frames_loop regress_frame_mean method deg dir decenter 0
                mean_points st0) as [st' [[] | e]]; cbn [fst snd] in *; exact Hw.
  - apply failing_frames_sorted.
  - intros k. rewrite elem_of_failing_frames. split.
    + intros (j & frame & ref & -> & Hj & (arr & Harr & Hf)%frame_fails_true).
      by exists frame, ref, arr.
    + intros (frame & ref & arr & Hk & Harr & Hf).
      exists k, frame, ref. repeat split; [done |].
      apply frame_fails_true. by exists arr.
Qed.

Lemma fl_sub_zero (a : fl) : (a - Fin 0)%fl = a.
Proof.
  destruct a as [x | | |]; try reflexivity.
  rewrite fl_sub_Fin. f_equal. lra.
Qed.

Lemma decenter_points_zero (arr : PlumePoints) :
  decenter_points (Fin 0, Fin 0) arr = arr.
Proof.
  induction arr as [| [[r x] y] arr IH]; [done |].
  unfold decenter_points in *. cbn [map fst snd] in *.
  by rewrite !fl_sub_zero, IH.
Qed.

Lemma regress_frame_step_zero_offset (method : string) (deg : nat) (dir : string)
    (i : nat) (ref : loc) (st : batch_state) :
  regress_frame_step regress_frame_mean method deg dir (Some (Fin 0, Fin 0)) i ref st
  = regress_frame_step regress_frame_mean method deg dir None i ref st.
Proof.
  unfold regress_frame_step. destruct (st_store st !! ref) as [arr |]; [| done].
  replace (alter (decenter_points (Fin 0, Fin 0)) (fresh (dom (st_store st)))
             (<[fresh (dom (st_store st)) := arr]> (st_store st)))
    with (<[fresh (dom (st_store st)) := arr]> (st_store st)); [done |].
  apply map_eq. intros k.
  destruct (decide (k = fresh (dom (st_store st)))) as [-> | Hk].
  - rewrite lookup_alter_eq, lookup_insert_eq. cbn [fmap option_fmap option_map].
    by rewrite decenter_points_zero.
  - by rewrite lookup_alter_ne.
Qed.

(** X9. Passing the origin as [decenter] changes nothing: the store, the
    warnings and the outcome are those of the call without [decenter],
    for every input. *)
Theorem regress_multiframe_mean_zero_offset
    (h : store) (mean_points : list (Z * loc)) (method : string) (deg : nat)
    (dir : string) :
  regress_multiframe_mean regress_frame_mean h mean_points method deg dir
    (Some (Fin 0, Fin 0))
  = regress_multiframe_mean regress_frame_mean h mean_points method deg dir None.
Proof.
  unfold regress_multiframe_mean.
  generalize ({| st_store := h; st_warnings := [];
                 st_series := replicate (length mean_points)
                                (replicate (n_coef method deg) (Fin 0)) |}).
  generalize 0.
  assert (Hloop : ∀ i st,
    regress_frames_loop regress_frame_mean method deg dir (Some (Fin 0, Fin 0))
      i mean_points st
    = regress_frames_loop regress_frame_mean method deg dir None i mean_points st).
  { induction mean_points as [| [frame ref] rest IH]; intros i st;
      cbn [regress_frames_loop]; [done |].
    rewrite regress_frame_step_zero_offset.
    destruct (regress_frame_step _ method deg dir None i ref st)
      as [st' [[] | e]]; [apply IH | done]. }
  intros i st. by rewrite Hloop.
Qed.

End BatchMoreTheorems.

Lemma regress_multiframe_mean_propagates_other_errors_witness :
  snd (regress_multiframe_mean mode_checked_fit example_store
         ([] ++ (1%Z, 1%positive) :: [(2%Z, 2%positive)])
         "cubic" 3 "x" None) = Raise ValueError
  ∧ snd (fst (regress_multiframe_mean mode_checked_fit example_store
                ([] ++ (1%Z, 1%positive) :: [(2%Z, 2%positive)])
                "cubic" 3 "x" None))
    = map InsufficientTrainingPoints
        (failing_frames mode_checked_fit example_store "cubic" 3 "x" None 0 []).
Proof.
  apply (regress_multiframe_mean_propagates_other_errors mode_checked_fit
           example_store [] 1%Z 1%positive [(2%Z, 2%positive)]
           "cubic" 3 "x" None two_points ValueError).
  - intros f r H. by apply elem_of_nil in H.
  - reflexivity.
  - reflexivity.
  - discriminate.
Defined.

Lemma regress_multiframe_mean_warnings_witness :
  ∃ ks : list nat,
    snd (fst (regress_multiframe_mean two_point_fit example_store example_frames
                "linear" 1 "x" None))
    = map InsufficientTrainingPoints ks
    ∧ StronglySorted lt ks
    ∧ ∀ k, k ∈ ks
        ↔ ∃ frame ref arr,
            example_frames !! k = Some (frame, ref)
            ∧ example_store !! ref = Some arr
            ∧ frame_fit two_point_fit "linear" 1 "x" None arr
              = Raise LinAlgError.
Proof.
  apply (regress_multiframe_mean_warnings two_point_fit example_store example_frames
           "linear" 1 "x" None).
  intros frame ref Hin.
  apply elem_of_cons in Hin as [[= -> ->] | Hin].
  { exists two_points. split; [reflexivity |]. right.
    eexists. split; reflexivity. }
  apply elem_of_cons in Hin as [[= -> ->] | Hin].
  { exists one_point. split; [reflexivity |]. by left. }
  by apply elem_of_nil in Hin.
Defined.

(* --------------------------------------------------------------------- *)
(** ** The ring tracker: both searches, and the shape of the mean path *)
(* --------------------------------------------------------------------- *)

Section MaxOnMaskTotal.
Variable array : GrayImage.
Hypothesis Hgray : gray_image array.

Let idxs : list (nat * nat) := row_major (fst (shape array)) (snd (shape array)).

(** The search over a mask either fails with [np.max]'s ValueError, on an
    empty mask, or returns the first maximum of the mask. *)
Lemma max_on_mask_total (mask : nat * nat → bool) :
  match max_on_mask array mask with
  | Return (m, (col, row)) =>
      (row, col) ∈ idxs ∧ mask (row, col) = true
      ∧ pixel array (row, col) = m
      ∧ (∀ rc, rc ∈ idxs → mask rc = true → (pixel array rc <= m)%Z)
      ∧ (∀ rc, rc ∈ idxs → mask rc = true → pixel array rc = m →
           rc = (row, col) ∨ scans_before (row, col) rc)
  | Raise e => e = ValueError ∧ ∀ rc, rc ∈ idxs → mask rc = false
  end.
Proof.
  destruct (filter (fun rc => mask rc = true) idxs) as [| rc0 l] eqn:Hf.
  - rewrite max_on_mask_empty; [| by rewrite masked_eq; fold idxs; rewrite Hf].
    split; [reflexivity |]. intros rc Hin.
    destruct (mask rc) eqn:Hm; [| reflexivity].
    assert (H : rc ∈ filter (fun rc => mask rc = true) idxs)
      by (apply list_elem_of_filter; auto).
    rewrite Hf in H. by apply elem_of_nil in H.
  - assert (H0 : rc0 ∈ filter (fun rc => mask rc = true) idxs)
      by (rewrite Hf; left).
    apply list_elem_of_filter in H0 as [Hm0 Hin0].
    destruct (max_on_mask_spec array Hgray mask) as (m & row & col & -> & H).
    { by exists rc0. }
    exact H.
Qed.

End MaxOnMaskTotal.

(** X10. On a grayscale (uint8) array [find_next_center] either returns
    the maximum intensity over the candidate pixels (on the tolerance
    ring around the origin and within [r*scale] of the neighbouring
    centre) with the coordinates [(col, row)] of the first candidate, in
    row-major order, that attains it; or it raises ValueError, and then
    there is no candidate pixel at all. *)
Theorem find_next_center_first_maximum (array : GrayImage)
    (orig_center neig_center : point) (r scale rtol atol : fl) :
  gray_image array →
  match find_next_center array orig_center neig_center r scale rtol atol with
  | Return (m, (col, row)) =>
      next_center_candidate array orig_center neig_center r scale rtol atol
        (row, col)
      ∧ pixel array (row, col) = m
      ∧ (∀ rc, next_center_candidate array orig_center neig_center r scale
                 rtol atol rc → (pixel array rc <= m)%Z)
      ∧ (∀ rc, next_center_candidate array orig_center neig_center r scale
                 rtol atol rc → pixel array rc = m →
           rc = (row, col) ∨ scans_before (row, col) rc)
  | Raise e =>
      e = ValueError
      ∧ ∀ rc, ¬ next_center_candidate array orig_center neig_center r scale
                  rtol atol rc
  end.
Proof.
  intros Hgray. unfold find_next_center.
  pose proof (max_on_mask_total array Hgray
                (search_mask orig_center neig_center r scale rtol atol)) as H.
  assert (Hc : ∀ rc,
    next_center_candidate array orig_center neig_center r scale rtol atol rc
    ↔ rc ∈ row_major (fst (shape array)) (snd (shape array))
      ∧ search_mask orig_center neig_center r scale rtol atol rc = true).
  { intros rc. unfold next_center_candidate, ring_pixel, search_mask.
    rewrite elem_of_row_major, andb_true_iff. tauto. }
  destruct (max_on_mask array _) as [[m [col row]] | e].
  - destruct H as (Hin & Hmask & Hpix & Hmax & Hfirst).
    split; [by apply Hc |]. split; [exact Hpix |]. split.
    + intros rc [Hin' Hm']%Hc. by apply Hmax.
    + intros rc [Hin' Hm']%Hc Hp. by apply Hfirst.
  - destruct H as [-> Hnone]. split; [reflexivity |].
    intros rc [Hin' Hm']%Hc. rewrite Hnone in Hm' by done. discriminate.
Qed.

Lemma find_next_center_first_maximum_witness :
  match find_next_center tie_image (Fin 1, Fin 0) (Fin 0, Fin 0) (Fin 1)
          (Fin (3 / 5)) (Fin (1 / 1000)) (Fin (1 / 1000000)) with
  | Return (m, (col, row)) =>
      next_center_candidate tie_image (Fin 1, Fin 0) (Fin 0, Fin 0) (Fin 1)
        (Fin (3 / 5)) (Fin (1 / 1000)) (Fin (1 / 1000000)) (row, col)
      ∧ pixel tie_image (row, col) = m
      ∧ (∀ rc, next_center_candidate tie_image (Fin 1, Fin 0) (Fin 0, Fin 0)
                 (Fin 1) (Fin (3 / 5)) (Fin (1 / 1000)) (Fin (1 / 1000000)) rc →
           (pixel tie_image rc <= m)%Z)
      ∧ (∀ rc, next_center_candidate tie_image (Fin 1, Fin 0) (Fin 0, Fin 0)
                 (Fin 1) (Fin (3 / 5)) (Fin (1 / 1000)) (Fin (1 / 1000000)) rc →
           pixel tie_image rc = m →
           rc = (row, col) ∨ scans_before (row, col) rc)
  | Raise e =>
      e = ValueError
      ∧ ∀ rc, ¬ next_center_candidate tie_image (Fin 1, Fin 0) (Fin 0, Fin 0)
                  (Fin 1) (Fin (3 / 5)) (Fin (1 / 1000)) (Fin (1 / 1000000)) rc
  end.
Proof.
  apply (find_next_center_first_maximum tie_image (Fin 1, Fin 0) (Fin 0, Fin 0)
           (Fin 1) (Fin (3 / 5)) (Fin (1 / 1000)) (Fin (1 / 1000000))).
  repeat constructor; unfold is_uint8; lia.
Defined.

(** X11. On a grayscale (uint8) array the only exception
    [find_max_on_boundary] can raise is ValueError, and it raises it
    exactly when no pixel of the array lies on the tolerance ring. *)
Theorem find_max_on_boundary_raises_iff_empty_ring (array : GrayImage)
    (center : point) (r rtol atol : fl) :
  gray_image array →
  (∀ e, find_max_on_boundary array center r rtol atol = Raise e →
        e = ValueError)
  ∧ (find_max_on_boundary array center r rtol atol = Raise ValueError
     ↔ ∀ rc, ¬ ring_pixel array center r rtol atol rc).
Proof.
  intros Hgray. unfold find_max_on_boundary.
  pose proof (max_on_mask_total array Hgray (boundary_mask center r rtol atol))
    as H.
  destruct (max_on_mask array _) as [[m [col row]] | e].
  - split; [discriminate |]. split; [discriminate |].
    intros Hnone. exfalso. destruct H as (Hin & Hmask & _).
    apply elem_of_row_major in Hin as [Hr Hc].
    apply (Hnone (row, col)). by repeat split.
  - destruct H as [-> Hnone]. split; [by intros ? [= <-] |].
    split; [| reflexivity].
    intros _ rc (Hr & Hc & Hm).
    rewrite Hnone in Hm; [discriminate | by apply elem_of_row_major].
Qed.

Lemma find_max_on_boundary_raises_iff_empty_ring_witness :
  (∀ e, find_max_on_boundary short_image (Fin 0, Fin 0) (Fin 5) (Fin (1 / 100))
          (Fin (1 / 1000000)) = Raise e → e = ValueError)
  ∧ (find_max_on_boundary short_image (Fin 0, Fin 0) (Fin 5) (Fin (1 / 100))
       (Fin (1 / 1000000)) = Raise ValueError
     ↔ ∀ rc, ¬ ring_pixel short_image (Fin 0, Fin 0) (Fin 5) (Fin (1 / 100))
                 (Fin (1 / 1000000)) rc).
Proof.
  apply (find_max_on_boundary_raises_iff_empty_ring short_image (Fin 0, Fin 0)
           (Fin 5) (Fin (1 / 100)) (Fin (1 / 1000000))).
  repeat constructor; unfold is_uint8; lia.
Defined.

Section RingLoopShape.
Variable array : GrayImage.
Variable orig_center : point.
Variables radii interior_scale rtol atol : fl.

Let next (center : point) (step : nat) :=
  find_next_center array orig_center center (fl_mul radii (of_nat step))
    interior_scale rtol atol.
Let loop := ring_loop array orig_center radii interior_scale rtol atol.
Let center_at := ring_center array orig_center radii interior_scale rtol atol.

(** From ring [j] on, the loop assigns the rings it finds, up to some ring
    [m], and leaves every later entry as it was. *)
Lemma ring_loop_shape (n : nat) :
  ∀ (j : nat) (cj : point) (pm : list point),
    1 ≤ j → center_at j = Return cj → j + n < length pm →
    (∀ i, j < i < length pm → pm !! i = Some unset) →
    ∃ m : nat,
      j ≤ m ≤ j + n
      ∧ length (loop (seq (S j) n) cj pm) = length pm
      ∧ (∀ i, i ≤ j → loop (seq (S j) n) cj pm !! i = pm !! i)
      ∧ (∀ i, j < i ≤ m →
           ∃ ci, center_at i = Return ci
                 ∧ loop (seq (S j) n) cj pm !! i = Some ci)
      ∧ (∀ i, m < i < length pm → loop (seq (S j) n) cj pm !! i = Some unset)
      ∧ (m = j + n
         ∨ ∃ cm e, center_at m = Return cm ∧ next cm (S m) = Raise e).
Proof.
  induction n as [| n IH]; intros j cj pm Hj Hcj Hlen Hunset.
  - exists j. cbn [seq]. unfold loop. cbn [ring_loop].
    repeat split; try lia; auto.
  - cbn [seq]. destruct (next cj (S j)) as [[mm c] | e] eqn:Hn.
    + rewrite (ring_loop_found array orig_center radii interior_scale rtol atol
                 (S j) _ cj pm mm c Hn).
      fold loop.
      assert (Hc : center_at (S j) = Return (as_point c)).
      { destruct j as [| j]; [lia |]. unfold center_at.
        rewrite ring_center_SS. fold center_at. rewrite Hcj.
        cbn [mbind result_bind]. fold (next cj (S (S j))). by rewrite Hn. }
      destruct (IH (S j) (as_point c) (<[S j := as_point c]> pm))
        as (m & Hm & Hl & Hlow & Hmid & Hhigh & Hend).
      { lia. } { exact Hc. } { rewrite length_insert. lia. }
      { intros i Hi. rewrite length_insert in Hi.
        rewrite list_lookup_insert_ne by lia. apply Hunset. lia. }
      rewrite length_insert in Hl, Hhigh.
      exists m. split; [lia |]. split; [exact Hl |]. split; [| split; [| split]].
      * intros i Hi. rewrite Hlow by lia. apply list_lookup_insert_ne. lia.
      * intros i Hi. destruct (decide (i = S j)) as [-> | Hne].
        -- exists (as_point c). split; [exact Hc |].
           rewrite Hlow by lia. apply list_lookup_insert_eq. lia.
        -- apply Hmid. lia.
      * exact Hhigh.
      * destruct Hend as [-> | Hend]; [left; lia | by right].
    + rewrite (ring_loop_halt array orig_center radii interior_scale rtol atol
                 (S j) _ cj pm e Hn).
      exists j. split; [lia |]. split; [reflexivity |].
      split; [reflexivity |]. split; [intros i Hi; lia |].
      split; [intros i Hi; apply Hunset; lia |].
      right. by exists cj, e.
Qed.

End RingLoopShape.

(** X12. Whatever the image, a mean path returned by the ring search has
    one entry per ring and the origin; up to some ring [m ≥ 1] its entries
    are the centres accepted ring after ring, every entry after ring [m]
    still holds its initial value, and either [m] is the last ring or the
    search for ring [m+1] raised. *)
Theorem ring_search_mean_path_shape (array : GrayImage) (orig_center : point)
    (radii interior_scale rtol atol : fl) (num_of_circs : nat)
    (points_mean : list point) :
  1 ≤ num_of_circs →
  ring_search array orig_center radii num_of_circs interior_scale rtol atol
    = Return points_mean →
  ∃ m : nat,
    1 ≤ m ≤ num_of_circs
    ∧ length points_mean = num_of_circs + 1
    ∧ (∀ i, i ≤ m →
         ∃ ci, ring_center array orig_center radii interior_scale rtol atol i
               = Return ci
               ∧ points_mean !! i = Some ci)
    ∧ (∀ i, m < i ≤ num_of_circs → points_mean !! i = Some unset)
    ∧ (m = num_of_circs
       ∨ ∃ cm e,
           ring_center array orig_center radii interior_scale rtol atol m
             = Return cm
           ∧ find_next_center array orig_center cm
               (fl_mul radii (of_nat (S m))) interior_scale rtol atol
             = Raise e).
Proof.
  intros HN Hrun.
  destruct (find_max_on_boundary array orig_center radii rtol atol)
    as [[m1 cc1] | e] eqn:Hmax.
  2: { exfalso. revert Hrun. unfold ring_search, set_point.
       rewrite length_replicate.
       replace (0 <? num_of_circs + 1)%nat with true
         by (symmetry; apply Nat.ltb_lt; lia).
       cbn [mbind result_bind]. rewrite Hmax. discriminate. }
  rewrite (ring_search_unfold array orig_center radii interior_scale rtol atol
             num_of_circs m1 cc1 HN Hmax) in Hrun.
  injection Hrun as <-.
  set (pm0 := <[1 := as_point cc1]>
                (<[0 := orig_center]> (replicate (num_of_circs + 1) unset))).
  assert (Hlen0 : length pm0 = num_of_circs + 1)
    by (unfold pm0; by rewrite !length_insert, length_replicate).
  assert (Hc1 : ring_center array orig_center radii interior_scale rtol atol 1
                = Return (as_point cc1))
    by (cbn [ring_center]; by rewrite Hmax).
  destruct (ring_loop_shape array orig_center radii interior_scale rtol atol
              (num_of_circs - 1) 1 (as_point cc1) pm0)
    as (m & Hm & Hl & Hlow & Hmid & Hhigh & Hend).
  { lia. } { exact Hc1. } { lia. }
  { intros i Hi. unfold pm0. rewrite !list_lookup_insert_ne by lia.
    apply lookup_replicate. split; [reflexivity | lia]. }
  exists m. split; [lia |]. split; [lia |]. split; [| split].
  - intros i Hi. destruct (decide (i ≤ 1)) as [Hi1 | Hi1].
    + rewrite Hlow by lia. unfold pm0. destruct i as [| [| i]]; [| | lia].
      * exists orig_center. split; [reflexivity |].
        rewrite list_lookup_insert_ne by lia.
        apply list_lookup_insert_eq. rewrite length_replicate. lia.
      * exists (as_point cc1). split; [exact Hc1 |].
        apply list_lookup_insert_eq. rewrite length_insert, length_replicate. lia.
    + apply Hmid. lia.
  - intros i Hi. apply Hhigh. lia.
  - destruct Hend as [-> | Hend]; [left; lia | by right].
Qed.

Lemma ring_search_mean_path_shape_witness :
  ∃ m : nat,
    1 ≤ m ≤ 2
    ∧ length [(Fin 0, Fin 0); as_point (1%nat, 0%nat); unset] = 2 + 1
    ∧ (∀ i, i ≤ m →
         ∃ ci, ring_center short_image (Fin 0, Fin 0) (Fin 1) (Fin (3 / 5))
                 (Fin (1 / 100)) (Fin (1 / 1000000)) i = Return ci
               ∧ [(Fin 0, Fin 0); as_point (1%nat, 0%nat); unset] !! i = Some ci)
    ∧ (∀ i, m < i ≤ 2 →
         [(Fin 0, Fin 0); as_point (1%nat, 0%nat); unset] !! i = Some unset)
    ∧ (m = 2
       ∨ ∃ cm e,
           ring_center short_image (Fin 0, Fin 0) (Fin 1) (Fin (3 / 5))
             (Fin (1 / 100)) (Fin (1 / 1000000)) m = Return cm
           ∧ find_next_center short_image (Fin 0, Fin 0) cm
               (fl_mul (Fin 1) (of_nat (S m))) (Fin (3 / 5)) (Fin (1 / 100))
               (Fin (1 / 1000000))
             = Raise e).
Proof.
  apply (ring_search_mean_path_shape short_image (Fin 0, Fin 0) (Fin 1)
           (Fin (3 / 5)) (Fin (1 / 100)) (Fin (1 / 1000000)) 2).
  - lia.
  - exact ring_search_short_image.
Defined.

(** X13. The ring search raises only at its start: it raises [e] exactly
    when the search of ring 1 raises [e], or when ring 1 is found but no
    ring was requested ([num_of_circs = 0], IndexError on the write of
    entry 1).  A failure at any later ring never raises. *)
Theorem ring_search_raises_iff (array : GrayImage) (orig_center : point)
    (radii interior_scale rtol atol : fl) (num_of_circs : nat) (e : exn) :
  ring_search array orig_center radii num_of_circs interior_scale rtol atol
    = Raise e
  ↔ find_max_on_boundary array orig_center radii rtol atol = Raise e
    ∨ ((∃ v, find_max_on_boundary array orig_center radii rtol atol = Return v)
       ∧ num_of_circs = 0 ∧ e = IndexError).
Proof.
  unfold ring_search, set_point. rewrite length_replicate.
  replace (0 <? num_of_circs + 1)%nat with true
    by (symmetry; apply Nat.ltb_lt; lia).
  cbn [mbind result_bind].
  destruct (find_max_on_boundary array orig_center radii rtol atol)
    as [[m1 cc1] | e1]; cbn [mbind result_bind].
  - rewrite length_insert, length_replicate.
    destruct (1 <? num_of_circs + 1)%nat eqn:Hlt; cbn [mbind result_bind mret result_ret].
    + apply Nat.ltb_lt in Hlt. split; [discriminate |].
      intros [[=] | (_ & HN & _)]. lia.
    + apply Nat.ltb_ge in Hlt. split.
      * intros [= <-]. right. split; [by eexists |]. split; [lia | reflexivity].
      * intros [[=] | (_ & _ & ->)]. reflexivity.
  - split.
    + intros [= <-]. by left.
    + intros [[= <-] | ((v & [=]) & _)]. reflexivity.
Qed.

(* --------------------------------------------------------------------- *)
(** ** flatten_edge_points: curves with matching radii *)
(* --------------------------------------------------------------------- *)

Lemma isclose_refl (r : fl) :
  r ≠ NaN → isclose r r default_rtol default_atol = true.
Proof.
  intros Hr. destruct r as [x | | |]; try reflexivity; [| done].
  unfold default_rtol, default_atol. rewrite isclose_Fin.
  apply Rleb_true.
  replace (x - x)%R with 0%R by ring. rewrite Rabs_R0.
  pose proof (Rabs_pos x). lra.
Qed.

(** X14. When every edge point has a radius that is not NaN and is the
    radius of some mean point, no edge point is dropped: the result has
    one row per edge point and its radius column is the radius column of
    the edge points, in order. *)
Theorem flatten_edge_points_matching_support
    (mean_points vari_points : PlumePoints) :
  (∀ r x y, (r, x, y) ∈ vari_points →
     r ≠ NaN ∧ ∃ x1 y1, (r, x1, y1) ∈ mean_points) →
  map fst (flatten_edge_points mean_points vari_points)
  = map (fun '(r, _, _) => r) vari_points
  ∧ length (flatten_edge_points mean_points vari_points) = length vari_points.
Proof.
  intros H.
  assert (Hcol : map fst (flatten_edge_points mean_points vari_points)
                 = map (fun '(r, _, _) => r) vari_points).
  { rewrite flatten_edge_points_rows. unfold flatten_rows.
    induction vari_points as [| [[r x] y] rest IH]; [reflexivity |].
    cbn [omap list_omap map].
    destruct (H r x y ltac:(left)) as (Hr & x1 & y1 & Hin).
    destruct (first_mean_point mean_points r) as [c |] eqn:Hc.
    - cbn [fst map]. f_equal. apply IH.
      intros r' x' y' Hin'. apply (H r' x' y'). by right.
    - exfalso.
      pose proof (proj1 (first_mean_point_None mean_points r) Hc r x1 y1 Hin)
        as Hfalse.
      rewrite isclose_refl in Hfalse by exact Hr. discriminate. }
  split; [exact Hcol |].
  rewrite <- (length_map fst), Hcol. apply length_map.
Qed.

Lemma flatten_edge_points_matching_support_witness :
  map fst (flatten_edge_points example_mean [(Fin 1, Fin 3, Fin 4)])
  = map (fun '(r, _, _) => r) [(Fin 1, Fin 3, Fin 4)]
  ∧ length (flatten_edge_points example_mean [(Fin 1, Fin 3, Fin 4)])
    = length [(Fin 1, Fin 3, Fin 4)].
Proof.
  apply (flatten_edge_points_matching_support example_mean
           [(Fin 1, Fin 3, Fin 4)]).
  intros r x y Hin.
  apply elem_of_cons in Hin as [[= -> -> ->] | Hin];
    [| by apply elem_of_nil in Hin].
  split; [discriminate |].
  exists (Fin 3), (Fin 0). unfold example_mean. right. left.
Defined.

(* --------------------------------------------------------------------- *)
(** ** utils.py: labels, frame ids and directory listings *)
(* --------------------------------------------------------------------- *)

(** Unfolds one step of string concatenation. *)
Ltac string_app :=
  repeat match goal with
         | |- context [String ?x ?a +:+ ?b] =>
             change (String x a +:+ b) with (String x (a +:+ b))
         | |- context [EmptyString +:+ ?b] =>
             change (EmptyString +:+ b) with b
         | H : context [String ?x ?a +:+ ?b] |- _ =>
             change (String x a +:+ b) with (String x (a +:+ b)) in H
         | H : context [EmptyString +:+ ?b] |- _ =>
             change (EmptyString +:+ b) with b in H
         end.

Section StringFacts.

Lemma string_app_assoc (a b c : string) : (a +:+ b) +:+ c = a +:+ (b +:+ c).
Proof. induction a as [| x a IH]; string_app; [reflexivity |]. by rewrite IH. Qed.

Lemma string_app_nil_r (a : string) : a +:+ "" = a.
Proof. induction a as [| x a IH]; string_app; [reflexivity |]. by rewrite IH. Qed.

Lemma string_length_app (a b : string) :
  String.length (a +:+ b) = String.length a + String.length b.
Proof.
  induction a as [| x a IH]; string_app; [reflexivity |].
  cbn [String.length]. by rewrite IH.
Qed.

Lemma list_ascii_of_string_app (a b : string) :
  String.list_ascii_of_string (a +:+ b)
  = String.list_ascii_of_string a ++ String.list_ascii_of_string b.
Proof.
  induction a as [| x a IH]; string_app; [reflexivity |].
  cbn [String.list_ascii_of_string app]. by rewrite IH.
Qed.

Lemma replace_underscore_clean (s : string) :
  Forall (fun c => c ≠ "_"%char) (String.list_ascii_of_string (replace_underscore s)).
Proof.
  induction s as [| c s IH]; cbn [replace_underscore String.list_ascii_of_string];
    constructor; [| exact IH].
  destruct (Ascii.eqb_spec c "_"); [discriminate | done].
Qed.

Lemma replace_underscore_fixed (s : string) :
  Forall (fun c => c ≠ "_"%char) (String.list_ascii_of_string s) →
  replace_underscore s = s.
Proof.
  induction s as [| c s IH]; [reflexivity |].
  cbn [replace_underscore String.list_ascii_of_string]. intros [Hc Hs]%Forall_cons.
  rewrite IH by exact Hs. by destruct (Ascii.eqb_spec c "_").
Qed.

Lemma prefix_replace_underscore (p : string) :
  ∀ s, String.prefix p s = true →
       String.prefix (replace_underscore p) (replace_underscore s) = true.
Proof.
  induction p as [| a p IH]; intros [| b s]; cbn [String.prefix replace_underscore];
    try done.
  destruct (ascii_dec a b) as [-> | Hne]; [| discriminate].
  intros H. destruct (ascii_dec _ _); [by apply IH | done].
Qed.

Lemma endswith_spec (s suffix : string) :
  endswith s suffix = true ↔ ∃ stem, s = stem +:+ suffix.
Proof.
  induction s as [| c s IH]; cbn [endswith]; rewrite orb_true_iff, String.eqb_eq.
  - split.
    + intros [<- | [=]]. by exists "".
    + intros ([| x stem] & H); string_app; [left; exact H | discriminate].
  - rewrite IH. split.
    + intros [<- | [stem ->]]; [by exists "" | by exists (String c stem)].
    + intros ([| x stem] & H); string_app; [left; exact H |].
      right. injection H as <- ->. by exists stem.
Qed.

End StringFacts.

(** X15. The label that [add_clock] logs always starts with [apply] and
    contains no underscore, whatever the function is called; and
    labelling a label changes nothing. *)
Theorem rename_string_apply_label (f_name : string) :
  String.prefix "apply" (_rename_string f_name) = true
  ∧ ("_"%char ∉ String.list_ascii_of_string (_rename_string f_name))
  ∧ _rename_string (_rename_string f_name) = _rename_string f_name.
Proof.
  assert (Hp : String.prefix "apply" (_rename_string f_name) = true).
  { unfold _rename_string.
    destruct (String.eqb f_name "video_to_ROM"); [reflexivity |].
    destruct (String.prefix "apply" f_name) eqn:Hpre; [| reflexivity].
    by apply (prefix_replace_underscore "apply"). }
  assert (Hc : Forall (fun c => c ≠ "_"%char)
                 (String.list_ascii_of_string (_rename_string f_name))).
  { unfold _rename_string.
    destruct (String.eqb f_name "video_to_ROM").
    { repeat constructor; discriminate. }
    destruct (String.prefix "apply" f_name); [apply replace_underscore_clean |].
    rewrite list_ascii_of_string_app. apply Forall_app. split.
    - repeat constructor; discriminate.
    - apply replace_underscore_clean. }
  split; [exact Hp |]. split.
  - intros Hin. rewrite Forall_forall in Hc. by apply (Hc _ Hin).
  - unfold _rename_string at 1.
    destruct (String.eqb_spec (_rename_string f_name) "video_to_ROM") as [He | _].
    { exfalso. rewrite He in Hc. rewrite Forall_forall in Hc.
      apply (Hc "_"%char); [| reflexivity].
      cbn. do 5 right. left. }
    rewrite Hp. by apply replace_underscore_fixed.
Qed.

Section CreateId.

Lemma frame_str_loop (l : list nat) :
  ∀ acc, foldl (fun frame_str _ => frame_str +:+ "0") acc l
         = acc +:+ String.string_of_list_ascii (replicate (length l) "0"%char).
Proof.
  induction l as [| x l IH]; intros acc; cbn [foldl length replicate].
  - cbn [String.string_of_list_ascii]. by rewrite string_app_nil_r.
  - rewrite IH, string_app_assoc. reflexivity.
Qed.

Lemma create_id_unfold (id magnitude : Z) :
  create_id id magnitude
  = String.string_of_list_ascii
      (replicate (Z.to_nat (magnitude - Z.of_nat (String.length (str id))))
         "0"%char)
    +:+ str id.
Proof.
  unfold create_id, range. rewrite frame_str_loop, length_seq. reflexivity.
Qed.

Lemma length_string_of_list_ascii (l : list ascii) :
  String.length (String.string_of_list_ascii l) = length l.
Proof. induction l as [| c l IH]; [reflexivity |]. cbn. by rewrite IH. Qed.

Lemma pretty_N_go_head (x : N) :
  ∀ s, (0 < x)%N →
       ∃ c rest, pretty_N_go x s = String c rest ∧ c ≠ "0"%char.
Proof.
  induction (N.lt_wf_0 x) as [x _ IH]; intros s Hx.
  rewrite pretty_N_go_step by exact Hx.
  destruct (decide (x < 10)%N) as [Hlt | Hge].
  - rewrite N.div_small by exact Hlt. rewrite pretty_N_go_0.
    rewrite N.mod_small by exact Hlt.
    eexists _, _. split; [reflexivity |].
    intros Hc. change "0"%char with (pretty_N_char 0) in Hc.
    apply pretty_N_char_inj in Hc; lia.
  - apply IH.
    + apply N.div_lt; lia.
    + apply N.div_str_pos. lia.
Qed.

(** [str] of an int is ["0"], or starts with a character other than
    ['0']. *)
Lemma str_head (id : Z) :
  str id = "0" ∨ ∃ c rest, str id = String c rest ∧ c ≠ "0"%char.
Proof.
  unfold str, pretty, pretty_Z. destruct id as [| p | p].
  - by left.
  - right. unfold pretty, pretty_positive, pretty, pretty_N.
    destruct (decide (N.pos p = 0%N)); [done |].
    apply pretty_N_go_head. lia.
  - right. eexists _, _. split; [reflexivity | discriminate].
Qed.

Lemma zero_padding_inj (a b : nat) (p q : string) :
  (p = "0" ∨ ∃ c rest, p = String c rest ∧ c ≠ "0"%char) →
  (q = "0" ∨ ∃ c rest, q = String c rest ∧ c ≠ "0"%char) →
  String.string_of_list_ascii (replicate a "0"%char) +:+ p
  = String.string_of_list_ascii (replicate b "0"%char) +:+ q →
  p = q.
Proof.
  intros Hp Hq. revert b.
  induction a as [| a IH]; intros [| b]; cbn [replicate String.string_of_list_ascii].
  - string_app. done.
  - string_app. intros ->.
    destruct Hp as [Hp | (c & rest & Hp & Hc)].
    + injection Hp as Hp.
      destruct b, Hq as [-> | (? & ? & -> & _)];
        cbn [replicate String.string_of_list_ascii] in Hp; string_app; discriminate.
    + injection Hp as <- _. done.
  - string_app. intros <-.
    destruct Hq as [Hq | (c & rest & Hq & Hc)].
    + injection Hq as Hq.
      destruct a, Hp as [-> | (? & ? & -> & _)];
        cbn [replicate String.string_of_list_ascii] in Hq; string_app; discriminate.
    + injection Hq as <- _. done.
  - string_app. intros H. injection H as H. by apply (IH b).
Qed.

End CreateId.

(** X16. [create_id] pads with zeros on the left and never truncates: the
    result has [max(magnitude, len(str(id)))] characters, it is a run of
    ['0'] characters followed by [str(id)], and for a fixed [magnitude]
    two different ids never get the same string. *)
Theorem create_id_zero_padding (id magnitude : Z) :
  Z.of_nat (String.length (create_id id magnitude))
  = Z.max magnitude (Z.of_nat (String.length (str id)))
  ∧ (∃ pad, create_id id magnitude = pad +:+ str id
            ∧ Forall (fun c => c = "0"%char) (String.list_ascii_of_string pad))
  ∧ (∀ id', create_id id magnitude = create_id id' magnitude → id = id').
Proof.
  split; [| split].
  - rewrite create_id_unfold, string_length_app, length_string_of_list_ascii,
      length_replicate. lia.
  - rewrite create_id_unfold. eexists. split; [reflexivity |].
    rewrite String.list_ascii_of_string_of_list_ascii. apply Forall_replicate. reflexivity.
  - intros id'. rewrite !create_id_unfold. intros H.
    apply zero_padding_inj in H; [| apply str_head ..].
    by apply (inj pretty).
Qed.

Section Listing.
Variable extension : string.

Let keep (filename : string) : bool := endswith filename ("." +:+ extension).

Lemma count_files_acc (listdir : list string) :
  ∀ count,
    foldl (fun count filename => if keep filename then S count else count)
      count listdir
    = count + length (List.filter keep listdir).
Proof.
  induction listdir as [| f l IH]; intros count; cbn [foldl List.filter].
  - cbn. lia.
  - rewrite IH. destruct (keep f); cbn [length]; lia.
Qed.

Lemma file_ids_acc (listdir : list string) :
  ∀ file_ids,
    foldl (fun file_ids filename =>
             if keep filename then file_ids ++ [filename] else file_ids)
      file_ids listdir
    = file_ids ++ List.filter keep listdir.
Proof.
  induction listdir as [| f l IH]; intros file_ids; cbn [foldl List.filter].
  - by rewrite app_nil_r.
  - rewrite IH. destruct (keep f); [by rewrite <- app_assoc | reflexivity].
Qed.

Lemma get_frame_ids_eq (listdir : list string) :
  get_frame_ids listdir extension
  = merge_sort String.le (List.filter keep listdir).
Proof. unfold get_frame_ids. fold keep. by rewrite file_ids_acc. Qed.

Lemma count_files_eq (listdir : list string) :
  count_files listdir extension = length (List.filter keep listdir).
Proof. unfold count_files. fold keep. by rewrite count_files_acc. Qed.

Lemma filter_Permutation (l l' : list string) :
  l ≡ₚ l' → List.filter keep l ≡ₚ List.filter keep l'.
Proof.
  induction 1 as [| x l l' _ IH | x y l | l l' l'' _ IH1 _ IH2]; cbn [List.filter].
  - done.
  - destruct (keep x); [by constructor | done].
  - destruct (keep x), (keep y); try done. apply perm_swap.
  - by etrans.
Qed.

End Listing.

(** X17. [get_frame_ids] returns the names of the listing that end with
    ["." + extension], each as often as it is listed, in ascending order;
    the result does not depend on the order in which the directory is
    listed; and [count_files] is the number of names it returns. *)
Theorem get_frame_ids_sorted_listing (listdir : list string) (extension : string) :
  StronglySorted String.le (get_frame_ids listdir extension)
  ∧ get_frame_ids listdir extension
    ≡ₚ List.filter (fun filename => endswith filename ("." +:+ extension)) listdir
  ∧ (∀ filename, filename ∈ get_frame_ids listdir extension
       ↔ filename ∈ listdir ∧ ∃ stem, filename = stem +:+ "." +:+ extension)
  ∧ (∀ listdir', listdir ≡ₚ listdir' →
       get_frame_ids listdir' extension = get_frame_ids listdir extension)
  ∧ count_files listdir extension = length (get_frame_ids listdir extension).
Proof.
  rewrite get_frame_ids_eq.
  split; [apply StronglySorted_merge_sort; apply _ |].
  split; [apply merge_sort_Permutation |].
  split; [| split].
  - intros filename. rewrite merge_sort_Permutation.
    rewrite list_elem_of_In, filter_In, <- list_elem_of_In, endswith_spec. done.
  - intros listdir' Hperm. rewrite get_frame_ids_eq.
    apply (Sorted_unique_strong String.le).
    + intros ? ? _ _. apply (anti_symm String.le).
    + apply Sorted_merge_sort; apply _.
    + apply Sorted_merge_sort; apply _.
    + rewrite !merge_sort_Permutation. symmetry. by apply filter_Permutation.
  - rewrite count_files_eq. by rewrite merge_sort_Permutation.
Qed.

(* --------------------------------------------------------------------- *)
(** ** video_to_ROM: frame labels *)
(* --------------------------------------------------------------------- *)

Lemma slice_bound_nonneg (n i : Z) :
  (0 <= i)%Z → (0 <= n)%Z → slice_bound n i = Z.min i n.
Proof. intros Hi Hn. unfold slice_bound. destruct (Z.ltb_spec i 0); [lia | done]. Qed.

(** For bounds that are not negative the slice holds the entries of the
    array from [start] on. *)
Lemma py_slice_lookup {A} (a : list A) (start stop : Z) (j : nat) (x : A) :
  (0 <= start)%Z →
  py_slice a start stop !! j = Some x → a !! (Z.to_nat start + j) = Some x.
Proof.
  intros Hs. unfold py_slice.
  rewrite (slice_bound_nonneg _ start) by lia.
  intros H. apply lookup_take_Some in H as [H _].
  rewrite lookup_drop in H.
  destruct (decide (start <= Z.of_nat (length a))%Z) as [Hle | Hgt].
  - by rewrite Z.min_l in H by lia.
  - rewrite Z.min_r in H by lia. rewrite Nat2Z.id in H.
    apply lookup_lt_Some in H. lia.
Qed.

Lemma py_slice_length {A} (a : list A) (start stop : Z) :
  (0 <= start)%Z → (0 <= stop)%Z →
  Z.of_nat (length (py_slice a start stop))
  = Z.max 0 (Z.min stop (Z.of_nat (length a)) - Z.min start (Z.of_nat (length a))).
Proof.
  intros Hs He. unfold py_slice.
  rewrite !slice_bound_nonneg by lia.
  rewrite length_take, length_drop. lia.
Qed.

Section VideoToROMFacts.
Context {Contour_List : Type}.
Variable get_contour : GrayImage → result Contour_List.
Variable concentric_circle :
  GrayImage → Contour_List → Z * Z →
  result (PlumePoints * PlumePoints * PlumePoints).
Variable orig_center : Z * Z.
Variable start_frame : Z.

Lemma video_to_ROM_loop_spec (frames : list GrayImage) :
  ∀ (k : nat) (ms0 v10 v20 ms v1 v2 : list (Z * PlumePoints)),
    video_to_ROM_loop get_contour concentric_circle orig_center start_frame k
      frames (ms0, v10, v20) = Return (ms, v1, v2) →
    ∃ ms' v1' v2' : list (Z * PlumePoints),
      ms = ms0 ++ ms' ∧ v1 = v10 ++ v1' ∧ v2 = v20 ++ v2'
      ∧ length ms' = length frames
      ∧ length v1' = length frames
      ∧ length v2' = length frames
      ∧ ∀ j frame, frames !! j = Some frame →
          ∃ contours m a b,
            get_contour frame = Return contours
            ∧ concentric_circle frame contours orig_center = Return (m, a, b)
            ∧ ms' !! j = Some ((Z.of_nat (k + j) + start_frame)%Z, m)
            ∧ v1' !! j = Some ((Z.of_nat (k + j) + start_frame)%Z, a)
            ∧ v2' !! j = Some ((Z.of_nat (k + j) + start_frame)%Z, b).
Proof.
  induction frames as [| frame_k rest IH]; intros k ms0 v10 v20 ms v1 v2;
    cbn [video_to_ROM_loop].
  - intros [= <- <- <-]. exists [], [], []. rewrite !app_nil_r.
    repeat split; try reflexivity.
    intros j frame Hj. by rewrite lookup_nil in Hj.
  - destruct (get_contour frame_k) as [contours | e] eqn:Hc;
      cbn [mbind result_bind]; [| discriminate].
    destruct (concentric_circle frame_k contours orig_center)
      as [[[mk ak] bk] | e] eqn:Hcc; cbn [mbind result_bind]; [| discriminate].
    intros Hrun.
    apply IH in Hrun
      as (ms' & v1' & v2' & -> & -> & -> & Hl1 & Hl2 & Hl3 & Hall).
    exists (((Z.of_nat k + start_frame)%Z, mk) :: ms'),
           (((Z.of_nat k + start_frame)%Z, ak) :: v1'),
           (((Z.of_nat k + start_frame)%Z, bk) :: v2').
    rewrite <- !app_assoc. cbn [app length].
    repeat split; try reflexivity; try lia.
    intros j frame Hj. destruct j as [| j].
    + injection Hj as <-. exists contours, mk, ak, bk.
      rewrite Nat.add_0_r. by repeat split.
    + cbn [lookup list_lookup] in Hj |- *.
      destruct (Hall j frame Hj) as (c & m & a & b & H1 & H2 & H3 & H4 & H5).
      exists c, m, a, b.
      replace (k + S j) with (S k + j) by lia. by repeat split.
Qed.

End VideoToROMFacts.

(** X18. When [video_to_ROM] returns for a range [(start_frame,
    end_frame)] with [start_frame ≥ 0], the three lists have one entry
    per frame of the range, in order; entry [j] of each carries the same
    label [start_frame + j], which is the index in [arr] of the frame it
    was computed from.  With [end_frame = -1] the range runs to the end
    of [arr], last frame included. *)
Theorem video_to_ROM_frame_labels {Contour_List : Type}
    (get_contour : GrayImage → result Contour_List)
    (concentric_circle :
       GrayImage → Contour_List → Z * Z →
       result (PlumePoints * PlumePoints * PlumePoints))
    (arr : list GrayImage) (orig_center : Z * Z) (start_frame end_frame : Z)
    (mean_points var1_points var2_points : list (Z * PlumePoints)) :
  (0 <= start_frame)%Z →
  video_to_ROM get_contour concentric_circle arr orig_center
    (start_frame, end_frame)
  = Return (mean_points, var1_points, var2_points) →
  length var1_points = length mean_points
  ∧ length var2_points = length mean_points
  ∧ (end_frame = (-1)%Z →
     length mean_points = length arr - Z.to_nat start_frame)
  ∧ ∀ j, j < length mean_points →
      ∃ frame contours m a b,
        arr !! (Z.to_nat start_frame + j) = Some frame
        ∧ get_contour frame = Return contours
        ∧ concentric_circle frame contours orig_center = Return (m, a, b)
        ∧ mean_points !! j = Some ((start_frame + Z.of_nat j)%Z, m)
        ∧ var1_points !! j = Some ((start_frame + Z.of_nat j)%Z, a)
        ∧ var2_points !! j = Some ((start_frame + Z.of_nat j)%Z, b).
Proof.
  intros Hs. unfold video_to_ROM. destruct orig_center as [cx cy]. cbn [fst snd].
  set (stop := if (end_frame =? -1)%Z then Z.of_nat (length arr) else end_frame).
  intros Hrun.
  apply video_to_ROM_loop_spec in Hrun
    as (ms' & v1' & v2' & -> & -> & -> & Hl1 & Hl2 & Hl3 & Hall).
  cbn [app]. split; [lia |]. split; [lia |]. split.
  - intros ->. unfold stop in Hl1. cbn in Hl1.
    pose proof (py_slice_length arr start_frame (Z.of_nat (length arr))
                  ltac:(lia) ltac:(lia)) as Hlen.
    lia.
  - intros j Hj.
    destruct (lookup_lt_is_Some_2 (py_slice arr start_frame stop) j)
      as [frame Hframe]; [lia |].
    destruct (Hall j frame Hframe) as (c & m & a & b & H1 & H2 & H3 & H4 & H5).
    exists frame, c, m, a, b.
    split; [by apply (py_slice_lookup arr start_frame stop) |].
    replace (start_frame + Z.of_nat j)%Z with (Z.of_nat (0 + j) + start_frame)%Z
      by lia.
    by repeat split.
Qed.

Lemma video_to_ROM_frame_labels_witness :
  length example_rom = length example_rom
  ∧ length example_rom = length example_rom
  ∧ ((-1)%Z = (-1)%Z → length example_rom = length example_video - Z.to_nat 0)
  ∧ ∀ j, j < length example_rom →
      ∃ frame contours m a b,
        example_video !! (Z.to_nat 0 + j) = Some frame
        ∧ no_contour frame = Return contours
        ∧ fixed_circle frame contours (0%Z, 0%Z) = Return (m, a, b)
        ∧ example_rom !! j = Some ((0 + Z.of_nat j)%Z, m)
        ∧ example_rom !! j = Some ((0 + Z.of_nat j)%Z, a)
        ∧ example_rom !! j = Some ((0 + Z.of_nat j)%Z, b).
Proof.
  apply (video_to_ROM_frame_labels no_contour fixed_circle example_video
           (0%Z, 0%Z) 0 (-1) example_rom example_rom example_rom).
  - lia.
  - reflexivity.
Defined.

(* --------------------------------------------------------------------- *)
(** ** apply_gauss_time_blur: which entry each frame receives *)
(* --------------------------------------------------------------------- *)

Lemma odd_half (k : Z) : (k mod 2 =? 0)%Z = false → k = (2 * (k / 2) + 1)%Z.
Proof.
  intros H%Z.eqb_neq.
  pose proof (Z.div_mod k 2 ltac:(lia)). pose proof (Z.mod_pos_bound k 2 ltac:(lia)).
  lia.
Qed.

(** [l[t]] is entry [p] when [t] is [p] or, counting from the end,
    [p - len(l)]. *)
Lemma np_index_at {A} (l : list A) (t p : Z) (x : A) :
  (0 <= p < Z.of_nat (length l))%Z →
  t = p ∨ t = (p - Z.of_nat (length l))%Z →
  l !! Z.to_nat p = Some x →
  np_index l t = Return x.
Proof.
  intros Hp Ht Hx. unfold np_index.
  set (i := if (0 <=? t)%Z then t else (Z.of_nat (length l) + t)%Z).
  assert (Hi : i = p).
  { unfold i. destruct (Z.leb_spec 0 t); lia. }
  rewrite Hi.
  replace ((0 <=? p)%Z && (p <? Z.of_nat (length l))%Z) with true.
  2: { symmetry. apply andb_true_iff. split; [apply Z.leb_le | apply Z.ltb_lt]; lia. }
  by rewrite Hx.
Qed.

Lemma py_slice_inner_length {A} (a : list A) (start stop : Z) :
  (0 <= start <= stop)%Z → (stop <= Z.of_nat (length a))%Z →
  Z.of_nat (length (py_slice a start stop)) = (stop - start)%Z.
Proof. intros H1 H2. rewrite py_slice_length by lia. lia. Qed.

Lemma py_slice_inner_lookup {A} (a : list A) (start stop : Z) (j : nat) :
  (0 <= start <= stop)%Z → (stop <= Z.of_nat (length a))%Z →
  py_slice a start stop !! j
  = if decide (Z.of_nat j < stop - start)%Z
    then a !! (Z.to_nat start + j) else None.
Proof.
  intros H1 H2. unfold py_slice. rewrite !slice_bound_nonneg by lia.
  rewrite !Z.min_l by lia. rewrite lookup_take, lookup_drop.
  destruct (decide (j < Z.to_nat (stop - start))),
           (decide (Z.of_nat j < stop - start)%Z); try lia; reflexivity.
Qed.

(** The window around frame [i] in its slice is the window around frame
    [i] in the whole array. *)
Lemma window_py_slice {A} (arr : list A) (i : nat) (h : Z) :
  (0 <= h)%Z → i < length arr →
  window (py_slice arr (Z.max (Z.of_nat i - h) 0)
            (Z.min (Z.of_nat i + h + 1) (Z.of_nat (length arr))))
         (Z.of_nat i - Z.max (Z.of_nat i - h) 0) h
  = window arr (Z.of_nat i) h.
Proof.
  intros Hh Hi. unfold window.
  set (n := Z.of_nat (length arr)).
  set (start := Z.max (Z.of_nat i - h) 0).
  set (stop := Z.min (Z.of_nat i + h + 1) n).
  replace (Z.of_nat i - start - h)%Z with (- start + (Z.of_nat i - h))%Z by lia.
  rewrite <- fmap_add_seqZ, <- list_fmap_compose.
  apply list_fmap_ext. intros j t Ht.
  apply list_elem_of_lookup_2, elem_of_seqZ in Ht. cbn [compose].
  destruct (Z.ltb_spec t 0) as [Hneg | Hpos].
  - destruct (Z.ltb_spec (- start + t) 0); [reflexivity | lia].
  - destruct (Z.ltb_spec (- start + t) 0); [lia |].
    rewrite py_slice_inner_lookup by (unfold start, stop, n; lia).
    destruct (decide (Z.of_nat (Z.to_nat (- start + t)) < stop - start)%Z).
    + f_equal. lia.
    + symmetry. apply lookup_ge_None_2. unfold start, stop, n in *. lia.
Qed.

Section BlurFacts.
Context {Image : Type}.
Variable convolve1d : Z → list Image → list Image.
Variable arr : list Image.
Variable kernel_size : Z.
Hypothesis Hpos : (0 < kernel_size)%Z.
Hypothesis Hodd : (kernel_size mod 2 =? 0)%Z = false.
Hypothesis Hshape : ∀ l, length (convolve1d kernel_size l) = length l.

Let n : Z := Z.of_nat (length arr).
Let h : Z := (kernel_size / 2)%Z.
Let start (i : nat) : Z := Z.max (Z.of_nat i - h) 0.
Let stop (i : nat) : Z := Z.min (Z.of_nat i + h + 1) n.

(** The position, in the convolved slice, of the entry frame [i]
    receives. *)
Let pos (i : nat) : Z :=
  if decide (kernel_size <= Z.of_nat i ∨ Z.of_nat i + h < n)%Z
  then (Z.of_nat i - start i)%Z
  else (n - h - 1 - start i)%Z.

Lemma blur_frame_position (i : nat) :
  i < length arr → (h < n)%Z →
  (0 <= pos i < stop i - start i)%Z
  ∧ ∃ x,
      blur_frame convolve1d arr kernel_size (Z.of_nat i) = Return x
      ∧ convolve1d kernel_size (py_slice arr (start i) (stop i))
          !! Z.to_nat (pos i) = Some x.
Proof.
  intros Hi Hn.
  pose proof (odd_half kernel_size Hodd) as Hk. fold h in Hk.
  assert (Hh : (0 <= h)%Z) by lia.
  assert (HL : Z.of_nat (length (convolve1d kernel_size
                                   (py_slice arr (start i) (stop i))))
               = (stop i - start i)%Z).
  { rewrite Hshape. apply py_slice_inner_length; unfold start, stop, n; lia. }
  assert (Hp : (0 <= pos i < stop i - start i)%Z).
  { unfold pos. destruct (decide _); unfold start, stop, n in *; lia. }
  split; [exact Hp |].
  destruct (lookup_lt_is_Some_2
              (convolve1d kernel_size (py_slice arr (start i) (stop i)))
              (Z.to_nat (pos i))) as [x Hx]; [lia |].
  exists x. split; [| exact Hx].
  unfold blur_frame. fold n h. fold (start i) (stop i).
  apply (np_index_at _ _ (pos i)); [lia | | exact Hx].
  rewrite HL. unfold pos.
  destruct (Z.ltb_spec (Z.of_nat i) kernel_size) as [Hlt | Hge].
  - right. destruct (decide _); unfold start, stop, n in *; lia.
  - left. destruct (decide _); unfold start, stop, n in *; lia.
Qed.

Lemma blur_frames_returns (frames : list nat) :
  (∀ i, i ∈ frames →
     ∃ x, blur_frame convolve1d arr kernel_size (Z.of_nat i) = Return x) →
  ∃ out,
    blur_frames convolve1d arr kernel_size frames = Return out
    ∧ length out = length frames
    ∧ ∀ j i, frames !! j = Some i →
        ∃ x, out !! j = Some x
             ∧ blur_frame convolve1d arr kernel_size (Z.of_nat i) = Return x.
Proof.
  induction frames as [| i rest IH]; intros Hall; cbn [blur_frames].
  - exists []. repeat split. intros j i Hj. by rewrite lookup_nil in Hj.
  - destruct (Hall i ltac:(left)) as [x Hx]. rewrite Hx. cbn [mbind result_bind].
    destruct IH as (out & -> & Hlen & Hout).
    { intros i' Hi'. apply Hall. by right. }
    cbn [mbind result_bind mret result_ret].
    exists (x :: out). split; [reflexivity |]. split; [cbn; lia |].
    intros [| j] i' Hj; cbn in Hj |- *.
    + injection Hj as <-. by exists x.
    + by apply Hout.
Qed.

Lemma blur_frame_short :
  (1 <= n <= h)%Z →
  blur_frame convolve1d arr kernel_size (Z.of_nat 0) = Raise IndexError.
Proof.
  intros Hn.
  pose proof (odd_half kernel_size Hodd) as Hk. fold h in Hk.
  unfold blur_frame. fold n h.
  change (Z.of_nat 0) with 0%Z.
  assert (HL : Z.of_nat (length (convolve1d kernel_size
                 (py_slice arr (Z.max (0 - h) 0) (Z.min (0 + h + 1) n)))) = n).
  { rewrite Hshape. rewrite py_slice_inner_length; unfold n in *; lia. }
  apply np_index_out_of_range. rewrite HL.
  destruct (Z.ltb_spec 0 kernel_size); lia.
Qed.

End BlurFacts.

(** X19. For a positive kernel size and a shape-preserving convolution,
    the iterative blur raises exactly in two cases: ValueError when the
    kernel size is even, and IndexError when it is odd and the video has
    between 1 and [kernel_size // 2] frames, whatever their content. *)
Theorem apply_gauss_time_blur_raises_iff {Image : Type}
    (convolve1d : Z → list Image → list Image) (arr : list Image)
    (kernel_size : Z) (e : exn) :
  (0 < kernel_size)%Z →
  (∀ l, length (convolve1d kernel_size l) = length l) →
  apply_gauss_time_blur convolve1d arr kernel_size true = Raise e
  ↔ ((kernel_size mod 2 = 0)%Z ∧ e = ValueError)
    ∨ ((kernel_size mod 2 ≠ 0)%Z
       ∧ (1 <= Z.of_nat (length arr) <= kernel_size / 2)%Z
       ∧ e = IndexError).
Proof.
  intros Hpos Hshape. unfold apply_gauss_time_blur.
  destruct (Z.eqb_spec (kernel_size mod 2) 0) as [Heven | Hodd].
  { split.
    - intros [= <-]. by left.
    - intros [[_ ->] | [Hne _]]; [reflexivity | contradiction]. }
  assert (Hodd' : (kernel_size mod 2 =? 0)%Z = false) by by apply Z.eqb_neq.
  destruct (decide (1 <= Z.of_nat (length arr) <= kernel_size / 2)%Z)
    as [Hshort | Hlong].
  - unfold range. rewrite Nat2Z.id.
    destruct (length arr) as [| m] eqn:Hlen; [lia |].
    cbn [seq blur_frames].
    rewrite (blur_frame_short convolve1d arr kernel_size Hpos Hodd' Hshape)
      by (rewrite Hlen; lia).
    cbn [mbind result_bind]. split.
    + intros [= <-]. right. split; [exact Hodd | split; [exact Hshort | reflexivity]].
    + intros [[? _] | (_ & _ & ->)]; [contradiction | reflexivity].
  - destruct (blur_frames_returns convolve1d arr kernel_size
                (range (Z.of_nat (length arr)))) as (out & -> & _).
    { intros i Hi. unfold range in Hi. rewrite Nat2Z.id in Hi.
      apply elem_of_seq in Hi.
      destruct (blur_frame_position convolve1d arr kernel_size Hpos Hodd'
                  Hshape i) as (_ & x & Hx & _); [lia | lia |].
      by exists x. }
    split; [discriminate |].
    intros [[? _] | (_ & ? & _)]; contradiction.
Qed.

Lemma apply_gauss_time_blur_raises_iff_witness :
  apply_gauss_time_blur unit_convolve1d [10; 20]%Z 5 true = Raise IndexError
  ↔ ((5 mod 2 = 0)%Z ∧ IndexError = ValueError)
    ∨ ((5 mod 2 ≠ 0)%Z
       ∧ (1 <= Z.of_nat (length [10; 20]%Z) <= 5 / 2)%Z
       ∧ IndexError = IndexError).
Proof.
  apply (apply_gauss_time_blur_raises_iff unit_convolve1d [10; 20]%Z 5
           IndexError).
  - lia.
  - reflexivity.
Defined.

(** X20. For an odd positive kernel size and a video of more than
    [kernel_size // 2] frames the iterative blur returns one frame per
    input frame.  Frame [i] receives the entry of its convolved slice at
    its own position when [i ≥ kernel_size] or [i + kernel_size // 2] is
    still inside the video; otherwise (an early frame of a short video)
    it receives the entry at the position of frame
    [n - kernel_size // 2 - 1], an earlier frame. *)
Theorem apply_gauss_time_blur_positions {Image : Type}
    (convolve1d : Z → list Image → list Image) (arr : list Image)
    (kernel_size : Z) :
  (0 < kernel_size)%Z →
  (kernel_size mod 2 ≠ 0)%Z →
  (∀ l, length (convolve1d kernel_size l) = length l) →
  (kernel_size / 2 < Z.of_nat (length arr))%Z →
  ∃ blurred_arr,
    apply_gauss_time_blur convolve1d arr kernel_size true = Return blurred_arr
    ∧ length blurred_arr = length arr
    ∧ ∀ i : nat, i < length arr →
        let n := Z.of_nat (length arr) in
        let h := (kernel_size / 2)%Z in
        let start_idx := Z.max (Z.of_nat i - h) 0 in
        let end_idx := Z.min (Z.of_nat i + h + 1) n in
        let convolved_slice :=
          convolve1d kernel_size (py_slice arr start_idx end_idx) in
        ((kernel_size <= Z.of_nat i ∨ Z.of_nat i + h < n)%Z →
         blurred_arr !! i
         = convolved_slice !! Z.to_nat (Z.of_nat i - start_idx)
         ∧ is_Some (blurred_arr !! i))
        ∧ ((Z.of_nat i < kernel_size ∧ n <= Z.of_nat i + h)%Z →
           blurred_arr !! i
           = convolved_slice !! Z.to_nat (n - h - 1 - start_idx)
           ∧ is_Some (blurred_arr !! i)
           ∧ (start_idx <= n - h - 1 < Z.of_nat i)%Z).
Proof.
  intros Hpos Hodd Hshape Hn.
  assert (Hodd' : (kernel_size mod 2 =? 0)%Z = false) by by apply Z.eqb_neq.
  unfold apply_gauss_time_blur. rewrite Hodd'.
  destruct (blur_frames_returns convolve1d arr kernel_size
              (range (Z.of_nat (length arr)))) as (out & -> & Hlen & Hout).
  { intros i Hi. unfold range in Hi. rewrite Nat2Z.id in Hi.
    apply elem_of_seq in Hi.
    destruct (blur_frame_position convolve1d arr kernel_size Hpos Hodd'
                Hshape i) as (_ & x & Hx & _); [lia | lia |].
    by exists x. }
  unfold range in Hlen, Hout. rewrite Nat2Z.id in Hlen, Hout.
  rewrite length_seq in Hlen.
  exists out. split; [reflexivity |]. split; [exact Hlen |].
  intros i Hi. cbv zeta.
  destruct (Hout i i) as (x & Hxi & Hrun); [by apply lookup_seq_lt |].
  destruct (blur_frame_position convolve1d arr kernel_size Hpos Hodd'
              Hshape i Hi Hn) as (Hp & x' & Hrun' & Hx').
  rewrite Hrun in Hrun'. injection Hrun' as <-.
  split.
  - intros Hown. rewrite decide_True in Hx' by exact Hown.
    rewrite Hxi, Hx'. split; [reflexivity | by eexists].
  - intros [Hearly Hend]. rewrite decide_False in Hx', Hp by lia.
    rewrite Hxi, Hx'. split; [reflexivity |]. split; [by eexists | lia].
Qed.

Lemma apply_gauss_time_blur_positions_witness :
  ∃ blurred_arr,
    apply_gauss_time_blur unit_convolve1d [10; 20; 30; 40]%Z 3 true
      = Return blurred_arr
    ∧ length blurred_arr = length [10; 20; 30; 40]%Z
    ∧ ∀ i : nat, i < length [10; 20; 30; 40]%Z →
        let n := Z.of_nat (length [10; 20; 30; 40]%Z) in
        let h := (3 / 2)%Z in
        let start_idx := Z.max (Z.of_nat i - h) 0 in
        let end_idx := Z.min (Z.of_nat i + h + 1) n in
        let convolved_slice :=
          unit_convolve1d 3 (py_slice [10; 20; 30; 40]%Z start_idx end_idx) in
        ((3 <= Z.of_nat i ∨ Z.of_nat i + h < n)%Z →
         blurred_arr !! i
         = convolved_slice !! Z.to_nat (Z.of_nat i - start_idx)
         ∧ is_Some (blurred_arr !! i))
        ∧ ((Z.of_nat i < 3 ∧ n <= Z.of_nat i + h)%Z →
           blurred_arr !! i
           = convolved_slice !! Z.to_nat (n - h - 1 - start_idx)
           ∧ is_Some (blurred_arr !! i)
           ∧ (start_idx <= n - h - 1 < Z.of_nat i)%Z).
Proof.
  apply (apply_gauss_time_blur_positions unit_convolve1d [10; 20; 30; 40]%Z 3).
  - lia.
  - discriminate.
  - reflexivity.
  - reflexivity.
Defined.

(** X21. For an odd positive kernel size and a video of at least
    [kernel_size + kernel_size // 2] frames, the iterative blur returns
    exactly what the one-shot convolution of the whole video returns,
    provided the convolution preserves the shape and each of its entries
    depends only on the input entries at most [kernel_size // 2]
    positions away. *)
Theorem apply_gauss_time_blur_iterative_agrees {Image : Type}
    (convolve1d : Z → list Image → list Image) (arr : list Image)
    (kernel_size : Z) :
  (0 < kernel_size)%Z →
  (kernel_size mod 2 ≠ 0)%Z →
  windowed (convolve1d kernel_size) (kernel_size / 2) →
  (kernel_size + kernel_size / 2 <= Z.of_nat (length arr))%Z →
  apply_gauss_time_blur convolve1d arr kernel_size true
  = apply_gauss_time_blur convolve1d arr kernel_size false.
Proof.
  intros Hpos Hodd [Hshape [K HK]] Hn.
  assert (Hodd' : (kernel_size mod 2 =? 0)%Z = false) by by apply Z.eqb_neq.
  pose proof (odd_half kernel_size Hodd') as Hk.
  unfold apply_gauss_time_blur. rewrite Hodd'.
  destruct (blur_frames_returns convolve1d arr kernel_size
              (range (Z.of_nat (length arr)))) as (out & -> & Hlen & Hout).
  { intros i Hi. unfold range in Hi. rewrite Nat2Z.id in Hi.
    apply elem_of_seq in Hi.
    destruct (blur_frame_position convolve1d arr kernel_size Hpos Hodd'
                Hshape i) as (_ & x & Hx & _); [lia | lia |].
    by exists x. }
  unfold range in Hlen, Hout. rewrite Nat2Z.id in Hlen, Hout.
  rewrite length_seq in Hlen.
  f_equal. apply (list_eq_same_length _ _ (length arr));
    [apply Hshape | exact Hlen |].
  intros i x y Hi Hx Hy.
  destruct (Hout i i) as (x' & Hxi & Hrun); [by apply lookup_seq_lt |].
  rewrite Hx in Hxi. injection Hxi as <-.
  destruct (blur_frame_position convolve1d arr kernel_size Hpos Hodd'
              Hshape i Hi ltac:(lia)) as (Hp & x' & Hrun' & Hx').
  rewrite Hrun in Hrun'. injection Hrun' as <-.
  rewrite decide_True in Hx', Hp by lia.
  rewrite HK in Hx'.
  2: { apply Nat2Z.inj_lt. rewrite py_slice_length by lia. lia. }
  rewrite HK in Hy by exact Hi.
  injection Hx' as <-. injection Hy as <-.
  f_equal. rewrite Z2Nat.id by lia.
  apply window_py_slice; lia.
Qed.

Lemma unit_convolve1d_windowed : windowed (unit_convolve1d 3) (3 / 2).
Proof.
  split; [reflexivity |]. exists centre_entry. intros l j Hj.
  unfold unit_convolve1d, window.
  change (3 / 2)%Z with 1%Z. change (2 * 1 + 1)%Z with 3%Z.
  destruct (lookup_lt_is_Some_2 l j Hj) as [x Hx]. rewrite Hx. f_equal.
  replace (seqZ (Z.of_nat j - 1) 3)
    with [(Z.of_nat j - 1)%Z; Z.of_nat j; (Z.of_nat j + 1)%Z].
  2: { apply list_eq. intros [| [| [| i]]].
       - rewrite lookup_seqZ_lt by lia. cbn. f_equal. lia.
       - rewrite lookup_seqZ_lt by lia. cbn. f_equal. lia.
       - rewrite lookup_seqZ_lt by lia. cbn. f_equal. lia.
       - rewrite lookup_seqZ_ge by lia. reflexivity. }
  cbn [fmap list_fmap].
  destruct (Z.ltb_spec (Z.of_nat j) 0); [lia |].
  rewrite Nat2Z.id, Hx. reflexivity.
Qed.

Lemma apply_gauss_time_blur_iterative_agrees_witness :
  apply_gauss_time_blur unit_convolve1d [10; 20; 30; 40]%Z 3 true
  = apply_gauss_time_blur unit_convolve1d [10; 20; 30; 40]%Z 3 false.
Proof.
  apply (apply_gauss_time_blur_iterative_agrees unit_convolve1d
           [10; 20; 30; 40]%Z 3).
  - lia.
  - discriminate.
  - exact unit_convolve1d_windowed.
  - reflexivity.
Defined.

(* --------------------------------------------------------------------- *)
(** ** background_subtract: which frames are written *)
(* --------------------------------------------------------------------- *)

Section BackgroundFacts.
Context {Image : Type}.
Variable cv2_subtract : Image → Image → Image.
Variable background : Image.

Lemma subtract_loop_spec (frames : list Image) :
  ∀ (i : nat) (clean_vid : list (option Image)),
    i + length frames ≤ length clean_vid →
    ∃ out,
      subtract_loop cv2_subtract background i frames clean_vid = Return out
      ∧ length out = length clean_vid
      ∧ (∀ j frame, frames !! j = Some frame →
           out !! (i + j) = Some (Some (cv2_subtract frame background)))
      ∧ (∀ j, j < i ∨ i + length frames ≤ j → out !! j = clean_vid !! j).
Proof.
  induction frames as [| frame rest IH]; intros i clean_vid Hlen;
    cbn [subtract_loop length] in *.
  - exists clean_vid. repeat split; auto.
    intros j frame Hj. by rewrite lookup_nil in Hj.
  - unfold set_frame.
    replace (i <? length clean_vid)%nat with true
      by (symmetry; apply Nat.ltb_lt; lia).
    cbn [mbind result_bind].
    destruct (IH (S i) (<[i := Some (cv2_subtract frame background)]> clean_vid))
      as (out & -> & Hl & Hin & Hout).
    { rewrite length_insert. lia. }
    rewrite length_insert in Hl.
    exists out. split; [reflexivity |]. split; [exact Hl |]. split.
    + intros [| j] f Hj; cbn in Hj.
      * injection Hj as <-. rewrite Nat.add_0_r, Hout by lia.
        apply list_lookup_insert_eq. lia.
      * replace (i + S j) with (S i + j) by lia. by apply Hin.
    + intros j Hj. rewrite Hout by lia. apply list_lookup_insert_ne. lia.
Qed.

End BackgroundFacts.

Lemma py_slice_inner_lookup_lt {A} (a : list A) (start stop : Z) (j : nat) :
  (0 <= start)%Z → (0 <= stop)%Z →
  j < length (py_slice a start stop) →
  py_slice a start stop !! j = a !! (Z.to_nat start + j).
Proof.
  intros Hs He Hj.
  destruct (lookup_lt_is_Some_2 _ _ Hj) as [x Hx]. rewrite Hx.
  symmetry. by apply (py_slice_lookup a start stop).
Qed.

(** X22. For a non-empty video and a range with [0 ≤ start_frame ≤
    end_frame] (after [-1] is replaced by the number of frames)
    [background_subtract] returns [end_frame - start_frame] frames;
    output frame [i] is [cv2.subtract] of input frame [start_frame + i]
    and the background of [fixed_range] when that input frame exists,
    and is never written (it keeps the content of [np.empty]) when
    [start_frame + i] is past the end of the video. *)
Theorem background_subtract_frames {Image FloatImage : Type}
    (np_mean : list Image → FloatImage) (astype_uint8 : FloatImage → Image)
    (cv2_subtract : Image → Image → Image)
    (frames : list Image) (fixed_range : Z * Z) (start_frame end_frame : Z) :
  frames ≠ [] →
  (0 <= start_frame)%Z →
  (start_frame
   <= (if (end_frame =? -1)%Z then Z.of_nat (length frames) else end_frame))%Z →
  ∃ clean_vid,
    background_subtract np_mean astype_uint8 cv2_subtract frames fixed_range
      (start_frame, end_frame) = Return clean_vid
    ∧ Z.of_nat (length clean_vid)
      = ((if (end_frame =? -1)%Z then Z.of_nat (length frames) else end_frame)
         - start_frame)%Z
    ∧ ∀ i, i < length clean_vid →
        clean_vid !! i
        = Some (match frames !! (Z.to_nat start_frame + i) with
                | Some frame =>
                    Some (cv2_subtract frame
                            (astype_uint8
                               (_create_background_img np_mean frames
                                  (inr fixed_range))))
                | None => None
                end).
Proof.
  intros Hne Hs. unfold background_subtract.
  set (stop := if (end_frame =? -1)%Z then Z.of_nat (length frames) else end_frame).
  set (bg := astype_uint8 (_create_background_img np_mean frames (inr fixed_range))).
  intros Hle.
  destruct frames as [| f0 rest] eqn:Hframes; [done |]. rewrite <- Hframes in *.
  destruct (Z.ltb_spec (stop - start_frame) 0) as [Hneg | _]; [lia |].
  pose proof (py_slice_length frames start_frame stop ltac:(lia) ltac:(lia))
    as Hsl.
  destruct (subtract_loop_spec cv2_subtract bg (py_slice frames start_frame stop)
              0 (replicate (Z.to_nat (stop - start_frame)) None))
    as (out & -> & Hl & Hin & Hout).
  { rewrite length_replicate. lia. }
  rewrite length_replicate in Hl.
  exists out. split; [reflexivity |]. split; [lia |].
  intros i Hi.
  destruct (decide (i < length (py_slice frames start_frame stop))) as [Hlt | Hge].
  - destruct (lookup_lt_is_Some_2 _ _ Hlt) as [frame Hf].
    rewrite (py_slice_lookup frames start_frame stop i frame Hs Hf).
    apply (Hin i frame Hf).
  - rewrite Hout by lia.
    rewrite lookup_replicate_2 by lia.
    rewrite (lookup_ge_None_2 frames) by lia. reflexivity.
Qed.

Lemma background_subtract_frames_witness :
  ∃ clean_vid,
    background_subtract first_pixel (fun v : Z => v) saturating_sub [10; 30]%Z (0, 1)%Z
      (0, 3)%Z = Return clean_vid
    ∧ Z.of_nat (length clean_vid)
      = ((if (3 =? -1)%Z then Z.of_nat (length [10; 30]%Z) else 3) - 0)%Z
    ∧ ∀ i, i < length clean_vid →
        clean_vid !! i
        = Some (match [10; 30]%Z !! (Z.to_nat 0 + i) with
                | Some frame =>
                    Some (saturating_sub frame
                            ((fun v : Z => v) (_create_background_img first_pixel [10; 30]%Z
                                   (inr (0, 1)%Z))))
                | None => None
                end).
Proof.
  apply (background_subtract_frames first_pixel (fun v : Z => v) saturating_sub [10; 30]%Z
           (0, 1)%Z 0 3).
  - discriminate.
  - lia.
  - cbn. lia.
Defined.

(* --------------------------------------------------------------------- *)
(** ** create_background_img: what is averaged *)
(* --------------------------------------------------------------------- *)

Lemma background_loop_sum (frames : list Z) (img_count : Z) :
  ∀ (k : Z) (b : R),
    (0 <= k)%Z →
    background_loop frames k img_count (Fin b)
    = Fin (b + IZR (gray_sum (take (Z.to_nat (img_count - k)) frames))).
Proof.
  induction frames as [| frame rest IH]; intros k b Hk; cbn [background_loop].
  - rewrite take_nil. cbn. f_equal. lra.
  - destruct (Z.ltb_spec k img_count) as [Hlt | Hge].
    + unfold of_Z. rewrite fl_add_Fin, IH by lia.
      replace (Z.to_nat (img_count - k)) with (S (Z.to_nat (img_count - (k + 1))))
        by lia.
      cbn [take gray_sum foldr]. fold (gray_sum (take (Z.to_nat (img_count - (k + 1))) rest)).
      rewrite plus_IZR. f_equal. lra.
    + rewrite IH by lia.
      replace (Z.to_nat (img_count - k)) with 0 by lia.
      replace (Z.to_nat (img_count - (k + 1))) with 0 by lia.
      reflexivity.
Qed.

Lemma gray_sum_constant (v : Z) (l : list Z) :
  Forall (fun frame => frame = v) l → gray_sum l = (Z.of_nat (length l) * v)%Z.
Proof.
  induction 1 as [| x l -> _ IH]; [reflexivity |].
  cbn [gray_sum foldr length]. fold (gray_sum l). rewrite IH. lia.
Qed.

(** X23. [create_background_img] counts the first frame twice: for
    [img_count ≥ 1] and a video with at least one frame, the value cast
    to uint8 is (first frame + sum of the first [img_count] frames) /
    [img_count].  On a static video of at least [img_count] frames with
    gray value [v] that is [v * (img_count + 1) / img_count], not [v]. *)
Theorem create_background_img_counts_first_frame_twice
    (astype_uint8 : fl → Z) (frame0 : Z) (rest : list Z) (img_count : Z) :
  (1 <= img_count)%Z →
  create_background_img astype_uint8 (frame0 :: rest) img_count
  = Return (astype_uint8
              (Fin ((IZR frame0
                     + IZR (gray_sum (take (Z.to_nat img_count) (frame0 :: rest))))
                    / IZR img_count)))
  ∧ (Forall (fun frame => frame = frame0) rest →
     (img_count <= Z.of_nat (length (frame0 :: rest)))%Z →
     create_background_img astype_uint8 (frame0 :: rest) img_count
     = Return (astype_uint8
                 (Fin (IZR frame0 * (IZR img_count + 1) / IZR img_count)))).
Proof.
  intros Hc.
  assert (Hc' : IZR img_count ≠ 0%R).
  { apply not_0_IZR. lia. }
  assert (Hrun : create_background_img astype_uint8 (frame0 :: rest) img_count
    = Return (astype_uint8
                (Fin ((IZR frame0
                       + IZR (gray_sum (take (Z.to_nat img_count) (frame0 :: rest))))
                      / IZR img_count)))).
  { unfold create_background_img, of_Z.
    rewrite background_loop_sum by lia. rewrite Z.sub_0_r.
    by rewrite fl_div_Fin by exact Hc'. }
  split; [exact Hrun |].
  intros Hstatic Hlen. rewrite Hrun. do 3 f_equal.
  rewrite (gray_sum_constant frame0).
  - rewrite length_take. rewrite Nat.min_l by lia.
    rewrite mult_IZR, Z2Nat.id by lia. field. exact Hc'.
  - apply Forall_take. by constructor.
Qed.

Lemma create_background_img_counts_first_frame_twice_witness :
  create_background_img wrap_uint8 (100 :: [100])%Z 2
  = Return (wrap_uint8
              (Fin ((IZR 100
                     + IZR (gray_sum (take (Z.to_nat 2) (100 :: [100])%Z)))
                    / IZR 2)))
  ∧ (Forall (fun frame => frame = 100%Z) [100%Z] →
     (2 <= Z.of_nat (length (100 :: [100])%Z))%Z →
     create_background_img wrap_uint8 (100 :: [100])%Z 2
     = Return (wrap_uint8 (Fin (IZR 100 * (IZR 2 + 1) / IZR 2)))).
Proof.
  apply (create_background_img_counts_first_frame_twice wrap_uint8 100 [100%Z] 2).
  lia.
Defined.

(* --------------------------------------------------------------------- *)
(** ** The ring tracker: comparing searches *)
(* --------------------------------------------------------------------- *)

Section MaxOnMaskMono.
Variable array : GrayImage.
Hypothesis Hgray : gray_image array.

(** A search over a larger mask succeeds whenever the search over the
    smaller one does, with a maximum at least as large. *)
Lemma max_on_mask_mono (mask mask' : nat * nat → bool) (m : Z) (c : nat * nat) :
  (∀ rc, mask rc = true → mask' rc = true) →
  max_on_mask array mask = Return (m, c) →
  ∃ m' c', max_on_mask array mask' = Return (m', c') ∧ (m <= m')%Z.
Proof.
  intros Hsub Hrun.
  pose proof (max_on_mask_total array Hgray mask) as H.
  rewrite Hrun in H. destruct c as [col row].
  destruct H as (Hin & Hmask & Hpix & _).
  pose proof (max_on_mask_total array Hgray mask') as H'.
  destruct (max_on_mask array mask') as [[m' [col' row']] | e].
  - exists m', (col', row'). split; [reflexivity |].
    destruct H' as (_ & _ & _ & Hmax & _).
    rewrite <- Hpix. apply Hmax; [exact Hin | by apply Hsub].
  - destruct H' as [_ Hnone]. specialize (Hsub _ Hmask).
    rewrite Hnone in Hsub by exact Hin. discriminate.
Qed.

End MaxOnMaskMono.

Lemma isclose_tolerance_mono (a b : fl) (rt rt' at_ at' : R) :
  (rt <= rt')%R → (at_ <= at')%R →
  isclose a b (Fin rt) (Fin at_) = true →
  isclose a b (Fin rt') (Fin at') = true.
Proof.
  intros Hrt Hat. destruct a as [x | | |], b as [y | | |]; try done.
  rewrite !isclose_Fin, !Rleb_spec. intros H.
  pose proof (Rabs_pos y). nra.
Qed.

(** X24. On a grayscale (uint8) array, whenever [find_next_center]
    returns an intensity for a ring, [find_max_on_boundary] succeeds on
    the same ring with the same tolerances, and the intensity of the next
    centre is at most that ring maximum. *)
Theorem find_next_center_below_ring_maximum (array : GrayImage)
    (orig_center neig_center : point) (r scale rtol atol : fl)
    (m : Z) (c : nat * nat) :
  gray_image array →
  find_next_center array orig_center neig_center r scale rtol atol
    = Return (m, c) →
  ∃ m' c',
    find_max_on_boundary array orig_center r rtol atol = Return (m', c')
    ∧ (m <= m')%Z.
Proof.
  intros Hgray Hrun. unfold find_next_center in Hrun. unfold find_max_on_boundary.
  apply (max_on_mask_mono array Hgray
           (search_mask orig_center neig_center r scale rtol atol)
           (boundary_mask orig_center r rtol atol) m c); [| exact Hrun].
  intros rc. unfold search_mask. by intros [H _]%andb_true_iff.
Qed.

(** X25. On a grayscale (uint8) array, widening the tolerances never
    loses the ring: if [find_max_on_boundary] returns a maximum with
    finite tolerances [rtol], [atol], it also returns one with any larger
    finite tolerances, and that maximum is at least as large. *)
Theorem find_max_on_boundary_tolerance_monotone (array : GrayImage)
    (center : point) (r : fl) (rt rt' at_ at' : R) (m : Z) (c : nat * nat) :
  gray_image array →
  (rt <= rt')%R → (at_ <= at')%R →
  find_max_on_boundary array center r (Fin rt) (Fin at_) = Return (m, c) →
  ∃ m' c',
    find_max_on_boundary array center r (Fin rt') (Fin at') = Return (m', c')
    ∧ (m <= m')%Z.
Proof.
  intros Hgray Hrt Hat Hrun. unfold find_max_on_boundary in *.
  apply (max_on_mask_mono array Hgray
           (boundary_mask center r (Fin rt) (Fin at_))
           (boundary_mask center r (Fin rt') (Fin at')) m c); [| exact Hrun].
  intros rc. unfold boundary_mask. by apply isclose_tolerance_mono.
Qed.

Lemma find_max_on_boundary_tolerance_monotone_witness :
  ∃ m' c',
    find_max_on_boundary tie_image (Fin 1, Fin 0) (Fin 1)
      (Fin (1 / 1000)) (Fin 1) = Return (m', c')
    ∧ (5 <= m')%Z.
Proof.
  apply (find_max_on_boundary_tolerance_monotone tie_image (Fin 1, Fin 0) (Fin 1)
           (1 / 1000) (1 / 1000) (1 / 1000000) 1 5 (0, 0)).
  - exact tie_image_gray.
  - lra.
  - lra.
  - exact find_max_on_boundary_tie.
Defined.

Section NextCenterExample.
Local Open Scope R_scope.

(** On [tie_image], of the two ring pixels only column 0 is within
    [r*scale] of the neighbouring centre at column 0. *)
Lemma tie_image_search (c : nat) :
  search_mask (Fin 1, Fin 0) (Fin 0, Fin 0) (Fin 1) (Fin (3 / 5))
    (Fin (1 / 1000)) (Fin (1 / 1000000)) (0%nat, c)
  = match c with 0%nat => true | _ => false end.
Proof.
  unfold search_mask. rewrite tie_image_ring, distances_row0. fl_simp.
  cbn [fl_le].
  destruct c as [| [| [| c]]]; cbn [andb]; try reflexivity.
  - solve_Rleb.
  - solve_Rleb.
Qed.

Lemma find_next_center_tie :
  find_next_center tie_image (Fin 1, Fin 0) (Fin 0, Fin 0) (Fin 1) (Fin (3 / 5))
    (Fin (1 / 1000)) (Fin (1 / 1000000)) = Return (5%Z, (0%nat, 0%nat)).
Proof.
  unfold find_next_center, max_on_mask, masked, argwhere_max.
  cbn [tie_image shape length row_major seq foldr map app fst snd].
  rewrite filter_cons_True by apply (tie_image_search 0).
  rewrite filter_cons_False by (rewrite (tie_image_search 1); discriminate).
  rewrite filter_cons_False by (rewrite (tie_image_search 2); discriminate).
  rewrite filter_nil. cbn [map pixel np_max foldl mbind result_bind].
  change (pixel tie_image (0%nat, 0%nat)) with 5%Z. cbn [foldl mbind result_bind].
  rewrite filter_cons_True; [reflexivity |].
  apply andb_true_iff. split; [| apply (tie_image_search 0)].
  change (pixel tie_image (0%nat, 0%nat)) with 5%Z.
  apply isclose_uint8; unfold is_uint8; lia.
Qed.

End NextCenterExample.

Lemma find_next_center_below_ring_maximum_witness :
  ∃ m' c',
    find_max_on_boundary tie_image (Fin 1, Fin 0) (Fin 1)
      (Fin (1 / 1000)) (Fin (1 / 1000000)) = Return (m', c')
    ∧ (5 <= m')%Z.
Proof.
  apply (find_next_center_below_ring_maximum tie_image (Fin 1, Fin 0)
           (Fin 0, Fin 0) (Fin 1) (Fin (3 / 5)) (Fin (1 / 1000))
           (Fin (1 / 1000000)) 5 (0, 0)).
  - exact tie_image_gray.
  - exact find_next_center_tie.
Defined.

(** X26. On a grayscale (uint8) array every centre the ring search
    accepts is a pixel position of the array lying on its ring: the
    ring-1 centre on the tolerance ring of radius [radii], the centre of
    ring [j ≥ 2] on the tolerance ring of radius [radii * j] and within
    [radii * j * interior_scale] of the centre accepted at ring [j-1]. *)
Theorem ring_center_on_ring (array : GrayImage) (orig_center : point)
    (radii interior_scale rtol atol : fl) (j : nat) (c : point) :
  gray_image array →
  ring_center array orig_center radii interior_scale rtol atol (S j) = Return c →
  ∃ row col,
    c = as_point (col, row)
    ∧ match j with
      | O => ring_pixel array orig_center radii rtol atol (row, col)
      | S _ =>
          ∃ prev,
            ring_center array orig_center radii interior_scale rtol atol j
              = Return prev
            ∧ next_center_candidate array orig_center prev
                (fl_mul radii (of_nat (S j))) interior_scale rtol atol
                (row, col)
      end.
Proof.
  intros Hgray Hc. destruct j as [| j].
  - apply ring_center_1_inv in Hc as (m1 & [col row] & Hmax & ->).
    exists row, col. split; [reflexivity |].
    pose proof (max_on_mask_total array Hgray
                  (boundary_mask orig_center radii rtol atol)) as H.
    unfold find_max_on_boundary in Hmax. rewrite Hmax in H.
    destruct H as (Hin & Hmask & _).
    apply elem_of_row_major in Hin as [Hr Hcol]. by repeat split.
  - apply ring_center_S_inv in Hc as (prev & m & [col row] & Hprev & Hnext & ->);
      [| lia].
    exists row, col. split; [reflexivity |].
    exists prev. split; [exact Hprev |].
    pose proof (max_on_mask_total array Hgray
                  (search_mask orig_center prev (fl_mul radii (of_nat (S (S j))))
                     interior_scale rtol atol)) as H.
    unfold find_next_center in Hnext. rewrite Hnext in H.
    destruct H as (Hin & Hmask & _).
    apply elem_of_row_major in Hin as [Hr Hcol].
    unfold search_mask in Hmask. apply andb_true_iff in Hmask as [Hb Hi].
    split; [by repeat split | exact Hi].
Qed.

Lemma ring_center_on_ring_witness :
  ∃ row col,
    as_point (1%nat, 0%nat) = as_point (col, row)
    ∧ ring_pixel short_image (Fin 0, Fin 0) (Fin 1) (Fin (1 / 100))
        (Fin (1 / 1000000)) (row, col).
Proof.
  apply (ring_center_on_ring short_image (Fin 0, Fin 0) (Fin 1) (Fin (3 / 5))
           (Fin (1 / 100)) (Fin (1 / 1000000)) 0 (as_point (1%nat, 0%nat))).
  - repeat constructor; unfold is_uint8; lia.
  - exact short_image_ring_center_1.
Defined.
